(** * Reviews persistence over the GitHub contents API

    A shallow embedding of [src/server/services/githubReviews.ts] and of the
    review handlers of [src/server/routes/reviews.ts]: the configuration
    readers, the two HTTP operations ([fetchReviewsFromGitHub],
    [persistReviewsToGitHub]) and the optimistic retry loop
    ([mutateReviewsWithRetry]), followed by the properties of the retry
    protocol. *)

From Stdlib Require Import ZArith QArith Ascii String List Bool Lia.
From Stdlib Require Qcanon.
From stdpp Require Import base option list strings pretty gmap.

Local Open Scope Z_scope.

(* ================================================================== *)
(** * JavaScript runtime values used by the service *)
(* ================================================================== *)

Module Js.

(** ** Strings

    A JavaScript string is modelled by the bytes of its UTF-8 encoding;
    [Buffer.from(s)] and [buffer.toString("utf-8")] are then the identity
    on well-formed text. *)

(** [!s] is [true] exactly for the empty string. *)
Definition truthy_string (s : string) : bool :=
  match s with
  | EmptyString => false
  | String _ _ => true
  end.

(** Truthiness of an optional string ([undefined] is falsy). *)
Definition truthy (o : option string) : bool :=
  match o with
  | Some s => truthy_string s
  | None => false
  end.

(** [a ?? b]: the left operand unless it is [undefined]. *)
Definition nullish {A} (a : option A) (b : option A) : option A :=
  match a with
  | Some x => Some x
  | None => b
  end.

(** [a ?? d] with a default that is always defined. *)
Definition nullish_default {A} (a : option A) (d : A) : A :=
  match a with
  | Some x => x
  | None => d
  end.

(** [a || d] on strings: the left operand unless it is falsy. *)
Definition or_string (a : option string) (d : string) : string :=
  match a with
  | Some (String c s) => String c s
  | _ => d
  end.

(** The code points that [String.prototype.trim] strips and [Number]
    skips are the white space and the line terminators of the language:
    TAB, LF, VT, FF, CR and SP, one byte each; U+00A0, two bytes; and
    U+1680, U+2000 to U+200A, U+2028, U+2029, U+202F, U+205F, U+3000 and
    U+FEFF, three bytes each. *)
Definition byte (c : ascii) : Z := Z.of_N (N_of_ascii c).

Definition isWhiteSpace (c : ascii) : bool := Ascii.is_space c.

(** U+00A0 is [C2 A0]. *)
Definition isWhiteSpace2 (a b : ascii) : bool :=
  (byte a =? 194) && (byte b =? 160).

(** U+1680 is [E1 9A 80]; U+2000 to U+200A, U+2028, U+2029 and U+202F are
    [E2 80] followed by [80] to [8A], [A8], [A9] and [AF]; U+205F is
    [E2 81 9F]; U+3000 is [E3 80 80]; U+FEFF is [EF BB BF]. *)
Definition isWhiteSpace3 (a b c : ascii) : bool :=
  let x := byte a in
  let y := byte b in
  let z := byte c in
  ((x =? 225) && (y =? 154) && (z =? 128)) ||
  ((x =? 226) && (y =? 128) &&
   (((128 <=? z) && (z <=? 138)) || (z =? 168) || (z =? 169) || (z =? 175))) ||
  ((x =? 226) && (y =? 129) && (z =? 159)) ||
  ((x =? 227) && (y =? 128) && (z =? 128)) ||
  ((x =? 239) && (y =? 187) && (z =? 191)).

(** Strips the white space at the head of the text; with [backwards] the
    text is a reversed one, so that the bytes of a code point come last
    byte first. *)
Fixpoint strip (backwards : bool) (s : string) : string :=
  match s with
  | String a s1 =>
      if isWhiteSpace a then strip backwards s1
      else
        match s1 with
        | String b s2 =>
            if (if backwards then isWhiteSpace2 b a else isWhiteSpace2 a b)
            then strip backwards s2
            else
              match s2 with
              | String c s3 =>
                  if (if backwards then isWhiteSpace3 c b a
                      else isWhiteSpace3 a b c)
                  then strip backwards s3
                  else s
              | EmptyString => s
              end
        | EmptyString => s
        end
  | EmptyString => EmptyString
  end.

Definition trimStart (s : string) : string := strip false s.

Definition trimEnd (s : string) : string :=
  String.rev (strip true (String.rev s)).

Definition trim (s : string) : string := trimEnd (trimStart s).

(** ** Numbers

    A number is NaN, an infinity, or a finite value; finite values are
    kept as exact rationals (every binary64 value is one). *)
Inductive number : Type :=
| NaN
| Infinity (negative : bool)
| Finite (q : Q).

Definition of_Z (z : Z) : number := Finite (inject_Z z).

(** [!n]: zero and NaN are falsy. *)
Definition truthy_number (n : number) : bool :=
  match n with
  | NaN => false
  | Infinity _ => true
  | Finite q => negb (Qeq_bool q 0)
  end.

Definition isNaN (n : number) : bool :=
  match n with
  | NaN => true
  | _ => false
  end.

(** [n < bound] for an integer bound; every comparison with NaN is false. *)
Definition ltZ (n : number) (bound : Z) : bool :=
  match n with
  | NaN => false
  | Infinity negative => negative
  | Finite q => negb (Qle_bool (inject_Z bound) q)
  end.

(** *** Rounding to binary64

    The Number value of a real number: the binary64 value nearest to it,
    the one with the even significand of two that are equally near, and
    an infinity from [2^1024 - 2^970] on.  The sign of a zero is not
    kept: the service never tells the two zeros apart. *)

(** The largest [e] with [2^e <= n / d], for positive [n] and [d]. *)
Definition floor_log2 (n d : Z) : Z :=
  let e := Z.log2 n - Z.log2 d in
  if (if 0 <=? e then d * 2 ^ e <=? n else d <=? n * 2 ^ (- e))
  then e else e - 1.

(** The integer nearest to [a / b], the even one of two that are equally
    near. *)
Definition nearest_even (a b : Z) : Z :=
  let q := a / b in
  match 2 * (a mod b) ?= b with
  | Lt => q
  | Gt => q + 1
  | Eq => if Z.even q then q else q + 1
  end.

(** [m * 2^u] in lowest terms. *)
Definition scale2 (m u : Z) : Q :=
  Qred (Qmake (m * 2 ^ Z.max u 0) (Z.to_pos (2 ^ Z.max (- u) 0))).

(** The significand has 53 bits; the unit in its last place is [2^u],
    and never below [2^-1074]. *)
Definition binary64 (q : Q) : number :=
  let n := Z.abs (Qnum q) in
  let d := Zpos (Qden q) in
  if n =? 0 then Finite 0
  else
    let e := floor_log2 n d in
    let u := Z.max (e - 52) (-1074) in
    let m :=
      if 0 <=? u then nearest_even n (d * 2 ^ u)
      else nearest_even (n * 2 ^ (- u)) d in
    if 1024 <=? Z.log2 m + u then Infinity (Qnum q <? 0)
    else Finite (scale2 (if Qnum q <? 0 then - m else m) u).

(** *** [Number(string)]

    The StringNumericLiteral grammar: optional white space around an
    optionally signed decimal literal (digits, fraction, exponent,
    [Infinity]) or an unsigned binary, octal or hexadecimal integer; the
    empty string is 0 and anything else is NaN.  The value is the Number
    value of the mathematical value of the literal. *)

Definition digit_of (c : ascii) : option Z :=
  let n := Z.of_N (N_of_ascii c) in
  if (48 <=? n) && (n <=? 57) then Some (n - 48) else None.

Definition hex_digit_of (c : ascii) : option Z :=
  let n := Z.of_N (N_of_ascii c) in
  if (48 <=? n) && (n <=? 57) then Some (n - 48)
  else if (97 <=? n) && (n <=? 102) then Some (n - 87)
  else if (65 <=? n) && (n <=? 70) then Some (n - 55)
  else None.

Definition digit_below (radix : Z) (c : ascii) : option Z :=
  match hex_digit_of c with
  | Some d => if d <? radix then Some d else None
  | None => None
  end.

(** Reads the longest prefix of digits: its value in the radix, the number
    of digits read, and what follows. *)
Fixpoint read_digits (radix : Z) (acc : Z) (count : nat) (s : string)
  : Z * nat * string :=
  match s with
  | String c s' =>
      match digit_below radix c with
      | Some d => read_digits radix (acc * radix + d) (S count) s'
      | None => (acc, count, s)
      end
  | EmptyString => (acc, count, s)
  end.

(** [m * 10^k] as a rational in lowest terms. *)
Definition scale10 (m k : Z) : Q :=
  if 0 <=? k then inject_Z (m * 10 ^ k)
  else Qred (Qmake m (Z.to_pos (10 ^ (- k)))).

Definition read_sign (s : string) : bool * string :=
  match s with
  | String "+" s' => (false, s')
  | String "-" s' => (true, s')
  | _ => (false, s)
  end.

Definition is_exponent_mark (c : ascii) : bool :=
  match c with
  | "e"%char | "E"%char => true
  | _ => false
  end.

(** The exponent part, if the text is one: [e], optional sign, digits, and
    nothing after. *)
Definition read_exponent (s : string) : option Z :=
  match s with
  | EmptyString => Some 0
  | String c s' =>
      if is_exponent_mark c then
        let '(neg, s'') := read_sign s' in
        match read_digits 10 0 0 s'' with
        | (e, S _, EmptyString) => Some (if neg then - e else e)
        | _ => None
        end
      else None
  end.

(** An unsigned decimal literal other than [Infinity]. *)
Definition unsigned_decimal (s : string) : option Q :=
  let '(i, ni, r1) := read_digits 10 0 0 s in
  let '(f, nf, r2) :=
    match r1 with
    | String "." r => read_digits 10 i 0 r
    | _ => (i, 0%nat, r1)
    end in
  match (ni + nf)%nat with
  | O => None
  | S _ =>
      match read_exponent r2 with
      | Some e => Some (scale10 f (e - Z.of_nat nf))
      | None => None
      end
  end.

Definition signed_decimal (s : string) : number :=
  let '(neg, s') := read_sign s in
  if String.eqb s' "Infinity" then Infinity neg
  else
    match unsigned_decimal s' with
    | Some q => binary64 (if neg then Qopp q else q)
    | None => NaN
    end.

Definition radix_literal (radix : Z) (s : string) : number :=
  match read_digits radix 0 0 s with
  | (v, S _, EmptyString) => binary64 (inject_Z v)
  | _ => NaN
  end.

Definition Number_ (s : string) : number :=
  match trim s with
  | EmptyString => of_Z 0
  | String "0" (String "x" s') | String "0" (String "X" s') =>
      radix_literal 16 s'
  | String "0" (String "o" s') | String "0" (String "O" s') =>
      radix_literal 8 s'
  | String "0" (String "b" s') | String "0" (String "B" s') =>
      radix_literal 2 s'
  | t => signed_decimal t
  end.

End Js.

(* ================================================================== *)
(** * Configuration: [process.env] *)
(* ================================================================== *)

(** [process.env]: a finite map from variable names to strings; a variable
    that is not set reads as [undefined]. *)
Abbreviation Env := (gmap string string).

Definition DEFAULT_MAX_RETRIES : Js.number := Js.of_Z 5.

(** The first of the three settings that is not [undefined] (the [??]
    chain of the source). *)
Definition retries_setting (env : Env) : option string :=
  Js.nullish (env !! "GITHUB_MAX_RETRIES")
    (Js.nullish (env !! "GITHUB_RETRY_LIMIT") (env !! "MAX_RETRIES")).

Definition getMaxRetries (env : Env) : Js.number :=
  let raw := retries_setting env in
  let parsed :=
    match raw with
    | Some s => if Js.truthy_string s then Some (Js.Number_ s) else None
    | None => None
    end in
  match parsed with
  | None => DEFAULT_MAX_RETRIES
  | Some n =>
      if negb (Js.truthy_number n) || Js.isNaN n || Js.ltZ n 1
      then DEFAULT_MAX_RETRIES
      else n
  end.

(* ================================================================== *)
(** * JSON text: [JSON.stringify] and [JSON.parse] *)
(* ================================================================== *)

Module JSON.

(** The values JSON text denotes.  An object lists its properties in
    enumeration order. *)
#[local] Unset Elimination Schemes.
Inductive value : Type :=
| Null
| Bool (b : bool)
| Num (n : Js.number)
| Str (s : string)
| Arr (items : list value)
| Obj (fields : list (string * value)).
#[local] Set Elimination Schemes.

Definition int (z : Z) : value := Num (Js.of_Z z).

(** ** Characters *)

Definition quote_char : ascii := "034"%char.
Definition backslash : ascii := "092"%char.
Definition newline : ascii := "010"%char.

Definition code (c : ascii) : Z := Z.of_N (N_of_ascii c).
Definition char_of (n : Z) : ascii := ascii_of_N (Z.to_N n).

Definition hex_char (d : Z) : ascii :=
  if d <? 10 then char_of (48 + d) else char_of (87 + d).

(** ** Printing *)

Definition escape_char (c : ascii) : string :=
  let n := code c in
  if n =? 34 then String backslash (String quote_char "")
  else if n =? 92 then String backslash (String backslash "")
  else if n =? 8 then String backslash "b"
  else if n =? 12 then String backslash "f"
  else if n =? 10 then String backslash "n"
  else if n =? 13 then String backslash "r"
  else if n =? 9 then String backslash "t"
  else if n <? 32 then
    String backslash
      (String "u" (String "0" (String "0"
        (String (hex_char (n / 16)) (String (hex_char (n mod 16)) "")))))
  else String c "".

Fixpoint escape (s : string) : string :=
  match s with
  | EmptyString => EmptyString
  | String c s' => escape_char c +:+ escape s'
  end.

Definition quote (s : string) : string :=
  String quote_char (escape s +:+ String quote_char "").

(** Digits of the fractional part [r / den], by long division. *)
Fixpoint fraction_digits (fuel : nat) (r den : Z) : string :=
  match fuel with
  | O => EmptyString
  | S fuel' =>
      if r =? 0 then EmptyString
      else String (char_of (48 + (r * 10) / den))
             (fraction_digits fuel' ((r * 10) mod den) den)
  end.

(** Integers print in decimal; other finite values print their exact
    decimal expansion.  [JSON.stringify] prints NaN and the infinities as
    [null].  For an integer of absolute value below 2^53 the text is the
    one of the runtime, which prints the shortest digits that read back
    as the same binary64 value and turns to an exponent from 10^21 on. *)
Definition print_number (n : Js.number) : string :=
  match n with
  | Js.NaN | Js.Infinity _ => "null"
  | Js.Finite q =>
      let den := Zpos (Qden q) in
      if den =? 1 then pretty (Qnum q)
      else
        let a := Z.abs (Qnum q) in
        (if Qnum q <? 0 then "-" else "") +:+ pretty (a / den) +:+ "." +:+
        fraction_digits (Pos.size_nat (Qden q)) (a mod den) den
  end.

Fixpoint join (sep : string) (parts : list string) : string :=
  match parts with
  | [] => ""
  | [p] => p
  | p :: rest => p +:+ sep +:+ join sep rest
  end.

Definition gap : string := "  ".

(** [JSON.stringify(v, null, 2)] below the indentation [indent]. *)
Fixpoint stringify_at (indent : string) (v : value) : string :=
  match v with
  | Null => "null"
  | Bool true => "true"
  | Bool false => "false"
  | Num n => print_number n
  | Str s => quote s
  | Arr [] => "[]"
  | Arr items =>
      let inner := indent +:+ gap in
      let sep := String "," (String newline inner) in
      String "[" (String newline inner) +:+
      join sep (map (stringify_at inner) items) +:+
      String newline indent +:+ "]"
  | Obj [] => "{}"
  | Obj fields =>
      let inner := indent +:+ gap in
      let sep := String "," (String newline inner) in
      String "{" (String newline inner) +:+
      join sep
        (map (fun kv => quote (fst kv) +:+ ": " +:+ stringify_at inner (snd kv))
             fields) +:+
      String newline indent +:+ "}"
  end.

Definition stringify (v : value) : string := stringify_at "" v.

(** ** Lexing *)

Inductive token : Type :=
| TLBrace | TRBrace | TLBracket | TRBracket | TColon | TComma
| TString (s : string)
| TNumber (n : Js.number)
| TTrue | TFalse | TNull.

(** The JSON number grammar: an optional minus sign, an integer part
    without superfluous leading zero, an optional fraction (a point and at
    least one digit) and an optional exponent.  The value is kept exact;
    the runtime rounds it to binary64, which changes nothing for an
    integer of absolute value below 2^53. *)
Definition json_number (s : string) : option Js.number :=
  let '(neg, s1) :=
    match s with
    | String "-" r => (true, r)
    | _ => (false, s)
    end in
  let '(i, ni, r1) := Js.read_digits 10 0 0 s1 in
  let leading_zero :=
    match s1 with
    | String "0" _ => negb (Nat.eqb ni 1)
    | _ => false
    end in
  match ni with
  | O => None
  | S _ =>
      if leading_zero then None
      else
        let frac :=
          match r1 with
          | String "." r =>
              match Js.read_digits 10 i 0 r with
              | (f, S nf, r2) => Some (f, S nf, r2)
              | _ => None
              end
          | _ => Some (i, O, r1)
          end in
        match frac with
        | None => None
        | Some (f, nf, r2) =>
            match Js.read_exponent r2 with
            | Some e =>
                let q := Js.scale10 f (e - Z.of_nat nf) in
                Some (Js.Finite (if neg then Qopp q else q))
            | None => None
            end
        end
  end.

Definition word_token (s : string) : option token :=
  if String.eqb s "true" then Some TTrue
  else if String.eqb s "false" then Some TFalse
  else if String.eqb s "null" then Some TNull
  else None.

Definition is_number_char (c : ascii) : bool :=
  match Js.digit_of c with
  | Some _ => true
  | None =>
      match c with
      | "-"%char | "+"%char | "."%char | "e"%char | "E"%char => true
      | _ => false
      end
  end.

Definition is_word_char (c : ascii) : bool :=
  let n := code c in (97 <=? n) && (n <=? 122).

Definition is_json_space (c : ascii) : bool :=
  let n := code c in (n =? 32) || (n =? 9) || (n =? 10) || (n =? 13).

(** The UTF-8 bytes of a code unit read from a [\uXXXX] escape, when it
    stands for a code point on its own. *)
Definition utf8_of_code_unit (u : Z) : string :=
  if u <? 128 then String (char_of u) ""
  else if u <? 2048 then
    String (char_of (192 + u / 64)) (String (char_of (128 + u mod 64)) "")
  else
    String (char_of (224 + u / 4096))
      (String (char_of (128 + (u / 64) mod 64))
        (String (char_of (128 + u mod 64)) "")).

Inductive lex_state : Type :=
| LStart
| LString (acc : string)
| LEscape (acc : string)
| LUnicode (acc : string) (read : nat) (u : Z)
| LNumber (acc : string)
| LWord (acc : string).

(** Texts under construction are kept reversed. *)
Definition push (part acc : string) : string := String.rev part +:+ acc.

Definition lex_start (c : ascii) (out : list token)
  : option (lex_state * list token) :=
  if is_json_space c then Some (LStart, out)
  else if Ascii.eqb c quote_char then Some (LString "", out)
  else if is_number_char c then Some (LNumber (String c ""), out)
  else if is_word_char c then Some (LWord (String c ""), out)
  else
    match c with
    | "{"%char => Some (LStart, TLBrace :: out)
    | "}"%char => Some (LStart, TRBrace :: out)
    | "["%char => Some (LStart, TLBracket :: out)
    | "]"%char => Some (LStart, TRBracket :: out)
    | ":"%char => Some (LStart, TColon :: out)
    | ","%char => Some (LStart, TComma :: out)
    | _ => None
    end.

Definition unescape (c : ascii) : option ascii :=
  if Ascii.eqb c quote_char then Some quote_char
  else if Ascii.eqb c backslash then Some backslash
  else
    match c with
    | "/"%char => Some "/"%char
    | "b"%char => Some "008"%char
    | "f"%char => Some "012"%char
    | "n"%char => Some "010"%char
    | "r"%char => Some "013"%char
    | "t"%char => Some "009"%char
    | _ => None
    end.

(** The text with the code unit of a [\uXXXX] escape at its end.  A low
    surrogate that follows a high one completes a code point above
    U+FFFF, which has four bytes in UTF-8; the high one was pushed as
    [ED], [A0] to [AF], and a third byte. *)
Definition push_code_unit (u : Z) (acc : string) : string :=
  if (56320 <=? u) && (u <? 57344) then
    match acc with
    | String z (String y (String x rest)) =>
        if (code x =? 237) && (160 <=? code y) && (code y <? 176) then
          let high := 53248 + (code y - 128) * 64 + (code z - 128) in
          let point := 65536 + (high - 55296) * 1024 + (u - 56320) in
          push
            (String (char_of (240 + point / 262144))
               (String (char_of (128 + (point / 4096) mod 64))
                  (String (char_of (128 + (point / 64) mod 64))
                     (String (char_of (128 + point mod 64)) ""))))
            rest
        else push (utf8_of_code_unit u) acc
    | _ => push (utf8_of_code_unit u) acc
    end
  else push (utf8_of_code_unit u) acc.

(** Closes a pending number or literal. *)
Definition lex_flush (st : lex_state) (out : list token)
  : option (list token) :=
  match st with
  | LStart => Some out
  | LNumber acc =>
      match json_number (String.rev acc) with
      | Some n => Some (TNumber n :: out)
      | None => None
      end
  | LWord acc =>
      match word_token (String.rev acc) with
      | Some t => Some (t :: out)
      | None => None
      end
  | _ => None
  end.

Definition lex_step (st : lex_state) (c : ascii) (out : list token)
  : option (lex_state * list token) :=
  match st with
  | LStart => lex_start c out
  | LString acc =>
      if Ascii.eqb c quote_char then Some (LStart, TString (String.rev acc) :: out)
      else if Ascii.eqb c backslash then Some (LEscape acc, out)
      else if code c <? 32 then None
      else Some (LString (String c acc), out)
  | LEscape acc =>
      if Ascii.eqb c "u" then Some (LUnicode acc 0 0, out)
      else
        match unescape c with
        | Some d => Some (LString (String d acc), out)
        | None => None
        end
  | LUnicode acc read u =>
      match Js.hex_digit_of c with
      | Some d =>
          let u' := u * 16 + d in
          if Nat.eqb read 3
          then Some (LString (push_code_unit u' acc), out)
          else Some (LUnicode acc (S read) u', out)
      | None => None
      end
  | LNumber acc =>
      if is_number_char c then Some (LNumber (String c acc), out)
      else
        match lex_flush st out with
        | Some out' => lex_start c out'
        | None => None
        end
  | LWord acc =>
      if is_word_char c then Some (LWord (String c acc), out)
      else
        match lex_flush st out with
        | Some out' => lex_start c out'
        | None => None
        end
  end.

(** Tokens are accumulated in reverse. *)
Fixpoint lex_from (st : lex_state) (out : list token) (s : string)
  : option (list token) :=
  match s with
  | EmptyString => lex_flush st out
  | String c s' =>
      match lex_step st c out with
      | Some (st', out') => lex_from st' out' s'
      | None => None
      end
  end.

Definition lex (s : string) : option (list token) :=
  match lex_from LStart [] s with
  | Some out => Some (rev out)
  | None => None
  end.

(** ** Parsing *)

(** Defines property [k]: an existing property keeps its place and takes
    the new value, a new one is added last. *)
Fixpoint obj_set (fields : list (string * value)) (k : string) (v : value)
  : list (string * value) :=
  match fields with
  | [] => [(k, v)]
  | (k', v') :: rest =>
      if String.eqb k' k then (k', v) :: rest
      else (k', v') :: obj_set rest k v
  end.

Definition make_object (members : list (string * value))
  : list (string * value) :=
  fold_left (fun o kv => obj_set o (fst kv) (snd kv)) members [].

(** An enclosing array or object whose current member is being read. *)
Inductive frame : Type :=
| FArr (done : list value)
| FObj (done : list (string * value)) (key : string).

Inductive parse_state : Type :=
| PValue (stack : list frame)
| PArrOpen (stack : list frame)
| PArrNext (done : list value) (stack : list frame)
| PObjOpen (stack : list frame)
| PObjKey (done : list (string * value)) (stack : list frame)
| PObjColon (done : list (string * value)) (key : string) (stack : list frame)
| PObjNext (done : list (string * value)) (stack : list frame)
| PDone (v : value).

(** A value is complete: it joins the innermost enclosing container. *)
Definition reduce (v : value) (stack : list frame) : parse_state :=
  match stack with
  | [] => PDone v
  | FArr done :: stack' => PArrNext (v :: done) stack'
  | FObj done key :: stack' => PObjNext ((key, v) :: done) stack'
  end.

Definition start_value (t : token) (stack : list frame)
  : option parse_state :=
  match t with
  | TNull => Some (reduce Null stack)
  | TTrue => Some (reduce (Bool true) stack)
  | TFalse => Some (reduce (Bool false) stack)
  | TNumber n => Some (reduce (Num n) stack)
  | TString s => Some (reduce (Str s) stack)
  | TLBracket => Some (PArrOpen stack)
  | TLBrace => Some (PObjOpen stack)
  | _ => None
  end.

Definition parse_step (st : parse_state) (t : token) : option parse_state :=
  match st with
  | PValue stack => start_value t stack
  | PArrOpen stack =>
      match t with
      | TRBracket => Some (reduce (Arr []) stack)
      | _ => start_value t (FArr [] :: stack)
      end
  | PArrNext done stack =>
      match t with
      | TComma => Some (PValue (FArr done :: stack))
      | TRBracket => Some (reduce (Arr (rev done)) stack)
      | _ => None
      end
  | PObjOpen stack =>
      match t with
      | TRBrace => Some (reduce (Obj []) stack)
      | TString k => Some (PObjColon [] k stack)
      | _ => None
      end
  | PObjKey done stack =>
      match t with
      | TString k => Some (PObjColon done k stack)
      | _ => None
      end
  | PObjColon done key stack =>
      match t with
      | TColon => Some (PValue (FObj done key :: stack))
      | _ => None
      end
  | PObjNext done stack =>
      match t with
      | TComma => Some (PObjKey done stack)
      | TRBrace => Some (reduce (Obj (make_object (rev done))) stack)
      | _ => None
      end
  | PDone _ => None
  end.

Fixpoint parse_from (st : parse_state) (ts : list token) : option value :=
  match ts with
  | [] =>
      match st with
      | PDone v => Some v
      | _ => None
      end
  | t :: ts' =>
      match parse_step st t with
      | Some st' => parse_from st' ts'
      | None => None
      end
  end.

(** [JSON.parse]: [None] stands for the [SyntaxError] it throws. *)
Definition parse (s : string) : option value :=
  match lex s with
  | Some ts => parse_from (PValue []) ts
  | None => None
  end.

End JSON.

(* ================================================================== *)
(** * Errors *)
(* ================================================================== *)

(** The exceptions the service throws or lets through.  [Error] is the
    base class: every other constructor is an instance of it as well. *)
Inductive JsError : Type :=
| Error (message : string)
| GitHubConfigError (message : string)
| GitHubConflictError (message : string)
| TypeError (message : string)
| SyntaxError (message : string).

(** [error instanceof GitHubConflictError]. *)
Definition is_conflict (e : JsError) : bool :=
  match e with
  | GitHubConflictError _ => true
  | _ => false
  end.

(** [error instanceof GitHubConfigError]. *)
Definition is_config_error (e : JsError) : bool :=
  match e with
  | GitHubConfigError _ => true
  | _ => false
  end.

(* ================================================================== *)
(** * [Buffer]: encodings of byte strings *)
(* ================================================================== *)

Module Buffer.

(** What [Buffer.from] takes its second argument to be: one of the
    encodings of Node (a name is read without regard to case; [utf-8] is
    another name of [utf8], [ucs2], [ucs-2] and [utf-16le] of [utf16le],
    [binary] of [latin1], and [ascii] reads a string as [latin1] does; an
    empty name is [utf8]), or, with [rejected], a name that Node does not
    know and refuses with a [TypeError] of that message, such as the
    [none] that the contents API gives for a file above one megabyte. *)
Inductive BufferEncoding : Type :=
| base64
| base64url
| utf8
| utf16le
| latin1
| hex
| rejected (message : string).

Definition code (c : ascii) : Z := Z.of_N (N_of_ascii c).
Definition char_of (n : Z) : ascii := ascii_of_N (Z.to_N n).

(** The character of a six-bit value in the standard alphabet. *)
Definition base64_char (v : Z) : ascii :=
  if v <? 26 then char_of (65 + v)
  else if v <? 52 then char_of (71 + v)
  else if v <? 62 then char_of (v - 4)
  else if v =? 62 then "+"%char
  else "/"%char.

(** The six-bit value of a character of the standard or of the URL-safe
    alphabet. *)
Definition unbase64 (c : ascii) : option Z :=
  let n := code c in
  if (65 <=? n) && (n <=? 90) then Some (n - 65)
  else if (97 <=? n) && (n <=? 122) then Some (n - 71)
  else if (48 <=? n) && (n <=? 57) then Some (n + 4)
  else if (n =? 43) || (n =? 45) then Some 62
  else if (n =? 47) || (n =? 95) then Some 63
  else None.

(** [buffer.toString("base64")]: three bytes give four characters, the
    last group is padded with [=]. *)
Fixpoint encode_base64 (s : string) : string :=
  match s with
  | EmptyString => EmptyString
  | String a EmptyString =>
      let x := code a in
      String (base64_char (x / 4))
        (String (base64_char ((x mod 4) * 16)) "==")
  | String a (String b EmptyString) =>
      let x := code a in
      let y := code b in
      String (base64_char (x / 4))
        (String (base64_char ((x mod 4) * 16 + y / 16))
          (String (base64_char ((y mod 16) * 4)) "="))
  | String a (String b (String c rest)) =>
      let x := code a in
      let y := code b in
      let z := code c in
      String (base64_char (x / 4))
        (String (base64_char ((x mod 4) * 16 + y / 16))
          (String (base64_char ((y mod 16) * 4 + z / 64))
            (String (base64_char (z mod 64)) (encode_base64 rest))))
  end.

(** The six-bit values of the text up to the first [=]; characters
    outside the alphabet (line breaks, for one) are skipped. *)
Fixpoint sextets (s : string) : list Z :=
  match s with
  | EmptyString => []
  | String c s' =>
      if Ascii.eqb c "=" then []
      else
        match unbase64 c with
        | Some v => v :: sextets s'
        | None => sextets s'
        end
  end.

Fixpoint bytes_of_sextets (vs : list Z) : string :=
  match vs with
  | a :: b :: c :: d :: rest =>
      String (char_of (a * 4 + b / 16))
        (String (char_of ((b mod 16) * 16 + c / 4))
          (String (char_of ((c mod 4) * 64 + d)) (bytes_of_sextets rest)))
  | [a; b; c] =>
      String (char_of (a * 4 + b / 16))
        (String (char_of ((b mod 16) * 16 + c / 4)) "")
  | [a; b] => String (char_of (a * 4 + b / 16)) ""
  | _ => EmptyString
  end.

Definition decode_base64 (s : string) : string :=
  bytes_of_sextets (sextets s).

(** The UTF-16 code units of a text: one for a code point of up to three
    bytes, a surrogate pair for one of four.  A byte that starts no
    complete sequence counts as a unit of its own. *)
Fixpoint code_units (s : string) : list Z :=
  match s with
  | EmptyString => []
  | String a s1 =>
      let x := code a in
      if x <? 192 then x :: code_units s1
      else
        match s1 with
        | String b s2 =>
            let y := code b - 128 in
            if x <? 224 then ((x - 192) * 64 + y) :: code_units s2
            else
              match s2 with
              | String c s3 =>
                  let z := code c - 128 in
                  if x <? 240
                  then ((x - 224) * 4096 + y * 64 + z) :: code_units s3
                  else
                    match s3 with
                    | String d s4 =>
                        let w := code d - 128 in
                        let v :=
                          (x - 240) * 262144 + y * 4096 + z * 64 + w - 65536 in
                        (55296 + v / 1024) :: (56320 + v mod 1024) ::
                        code_units s4
                    | EmptyString => x :: code_units s1
                    end
              | EmptyString => x :: code_units s1
              end
        | EmptyString => x :: code_units s1
        end
  end.

Fixpoint bytes_of (values : list Z) : string :=
  match values with
  | [] => EmptyString
  | v :: rest => String (char_of (v mod 256)) (bytes_of rest)
  end.

(** The low byte of each code unit: what the decoders of [base64], [hex]
    and [latin1] see of the text. *)
Definition low_bytes (text : string) : string := bytes_of (code_units text).

(** Each code unit, low byte first. *)
Fixpoint utf16le_bytes (units : list Z) : string :=
  match units with
  | [] => EmptyString
  | u :: rest =>
      String (char_of (u mod 256))
        (String (char_of ((u / 256) mod 256)) (utf16le_bytes rest))
  end.

(** Pairs of hexadecimal digits, up to the first pair that is not one. *)
Fixpoint decode_hex (s : string) : string :=
  match s with
  | String a (String b rest) =>
      match Js.hex_digit_of a, Js.hex_digit_of b with
      | Some x, Some y => String (char_of (x * 16 + y)) (decode_hex rest)
      | _, _ => EmptyString
      end
  | _ => EmptyString
  end.

(** The message of the [TypeError] of [Buffer.from(undefined, ...)]. *)
Definition not_a_string : string :=
  "The first argument must be of type string or an instance of Buffer, ArrayBuffer, or Array or an Array-like Object. Received undefined".

(** [Buffer.from(value, encoding)], as the bytes of the buffer; [None] is
    a [value] that is [undefined], which is refused whatever the encoding
    is. *)
Definition from (value : option string) (encoding : BufferEncoding)
  : JsError + string :=
  match value with
  | None => inl (TypeError not_a_string)
  | Some text =>
      match encoding with
      | base64 | base64url => inr (decode_base64 (low_bytes text))
      | utf8 => inr text
      | utf16le => inr (utf16le_bytes (code_units text))
      | latin1 => inr (low_bytes text)
      | hex => inr (decode_hex (low_bytes text))
      | rejected message => inl (TypeError message)
      end
  end.

(** [buffer.toString("utf-8")].  Bytes that are not well-formed UTF-8,
    which Node replaces by U+FFFD, are kept as they are: they can only
    stand inside the strings of a JSON document and do not change
    whether the text is one. *)
Definition toString (bytes : string) : string := bytes.

End Buffer.

(* ================================================================== *)
(** * Asynchronous computations *)
(* ================================================================== *)

(** ** HTTP exchanges with the contents API *)

Record Headers : Type := {
  Authorization : string;
  Accept : string;
  User_Agent : string;
}.

(** The body of a successful read, [GitHubContentResponse].  The source
    casts what [response.json()] gives to this type without looking at it:
    [content] is [None] when the body has no such property, as when the
    path names a directory. *)
Record GitHubContentResponse : Type := {
  content : option string;
  encoding : option Buffer.BufferEncoding;
  sha : string;
}.

(** [{ sha?: string }]. *)
Record ShaRef : Type := { ref_sha : option string }.

(** The body of a successful write, [GitHubUpdateResponse]. *)
Record GitHubUpdateResponse : Type := {
  upd_content : option ShaRef;
  upd_commit : option ShaRef;
}.

Record Committer : Type := {
  name : string;
  email : string;
}.

(** The object that is sent, serialized, as the body of the PUT. *)
Record PutBody : Type := {
  body_message : string;
  body_content : string;
  body_branch : string;
  body_sha : option string;
  body_committer : option Committer;
}.

(** A response as the service reads it: the status line, the body as text
    ([response.text()]) and the body as a JSON document of the expected
    type ([response.json()], [None] when the body is not JSON). *)
Record Response (X : Type) : Type := {
  status : Z;
  text : string;
  json : option X;
}.
Arguments status {X} _.
Arguments text {X} _.
Arguments json {X} _.

(** [response.ok]: a status in the range 200-299. *)
Definition ok {X} (r : Response X) : bool :=
  (200 <=? status r) && (status r <=? 299).

(** What awaiting [fetch(url, init)] gives: a response, or a rejection
    when no response was obtained. *)
Inductive Settled (X : Type) : Type :=
| Fulfilled (response : Response X)
| Rejected (reason : string).
Arguments Fulfilled {X} _.
Arguments Rejected {X} _.

(** An [async] function, unfolded up to its next network request: it has
    returned, it has thrown, or it awaits the response to a GET or to a
    PUT and goes on from there. *)
Inductive Async (A : Type) : Type :=
| Return (a : A)
| Throw (e : JsError)
| AwaitGet (url : string) (headers : Headers)
    (k : Settled GitHubContentResponse -> Async A)
| AwaitPut (url : string) (headers : Headers) (body : PutBody)
    (k : Settled GitHubUpdateResponse -> Async A).
Arguments Return {A} _.
Arguments Throw {A} _.
Arguments AwaitGet {A} _ _ _.
Arguments AwaitPut {A} _ _ _ _.

(** [const x = await p; f(x)]. *)
Fixpoint bind {A B} (p : Async A) (f : A -> Async B) : Async B :=
  match p with
  | Return a => f a
  | Throw e => Throw e
  | AwaitGet url headers k => AwaitGet url headers (fun r => bind (k r) f)
  | AwaitPut url headers body k =>
      AwaitPut url headers body (fun r => bind (k r) f)
  end.

(** [try { return await p } catch (error) { handler }]. *)
Fixpoint try_catch {A} (p : Async A) (handler : JsError -> Async A) : Async A :=
  match p with
  | Return a => Return a
  | Throw e => handler e
  | AwaitGet url headers k =>
      AwaitGet url headers (fun r => try_catch (k r) handler)
  | AwaitPut url headers body k =>
      AwaitPut url headers body (fun r => try_catch (k r) handler)
  end.

#[global] Instance Async_bind : MBind Async := fun A B f p => bind p f.
#[global] Instance Async_ret : MRet Async := fun A a => Return a.

(** A synchronous step that may throw. *)
Definition lift {A} (r : JsError + A) : Async A :=
  match r with
  | inl e => Throw e
  | inr a => Return a
  end.

(* ================================================================== *)
(** * The service: [githubReviews.ts] *)
(* ================================================================== *)

Record Config : Type := {
  token : string;
  owner : string;
  repo : string;
  filePath : string;
  branch : string;
  commitMessage : string;
  committerName : option string;
  committerEmail : option string;
}.

(** [path.replace(/^\//, "")]: drops one leading slash. *)
Definition strip_leading_slash (path : string) : string :=
  match path with
  | String "/" rest => rest
  | _ => path
  end.

Definition getConfig (env : Env) : JsError + Config :=
  let token := env !! "GITHUB_TOKEN" in
  let owner := env !! "GITHUB_OWNER" in
  let repo := env !! "GITHUB_REPO" in
  let filePath :=
    strip_leading_slash
      (Js.nullish_default (env !! "GITHUB_FILE_PATH") "reviews.json") in
  let branch := Js.nullish_default (env !! "GITHUB_BRANCH") "main" in
  let commitMessage :=
    Js.nullish_default (env !! "GITHUB_COMMIT_MESSAGE") "chore: update reviews" in
  let committerName := env !! "GIT_COMMITTER_NAME" in
  let committerEmail := env !! "GIT_COMMITTER_EMAIL" in
  match token with
  | Some (String c t) =>
      match owner with
      | Some (String c' o) =>
          match repo with
          | Some (String c'' r) =>
              inr {| token := String c t;
                     owner := String c' o;
                     repo := String c'' r;
                     filePath := filePath;
                     branch := branch;
                     commitMessage := commitMessage;
                     committerName := committerName;
                     committerEmail := committerEmail |}
          | _ =>
              inl (GitHubConfigError "Missing GITHUB_REPO environment variable")
          end
      | _ => inl (GitHubConfigError "Missing GITHUB_OWNER environment variable")
      end
  | _ => inl (GitHubConfigError "Missing GITHUB_TOKEN environment variable")
  end.

Definition buildHeaders (token : string) : Headers :=
  {| Authorization := "Bearer " +:+ token;
     Accept := "application/vnd.github+json";
     User_Agent := "reviews-service" |}.

(** [ReviewsWithSha].  [reviews] is whatever [JSON.parse] returned: the
    source casts it to [Review[]] without looking at it. *)
Record ReviewsWithSha : Type := {
  reviews : JSON.value;
  reviews_sha : option string;
}.

(** The message of the [SyntaxError] of [JSON.parse] and of
    [response.json()]; its wording is the engine's. *)
Definition syntax_error_message : string := "Unexpected token in JSON".

Definition contents_url (config : Config) : string :=
  "https://api.github.com/repos/" +:+ owner config +:+ "/" +:+ repo config +:+
  "/contents/" +:+ filePath config.

(** What [fetchReviewsFromGitHub] makes of the settled request: the
    statements after [await fetch(url, ...)], none of which sends anything. *)
Definition readContents (settled : Settled GitHubContentResponse)
  : JsError + ReviewsWithSha :=
  match settled with
  | Rejected reason => inl (TypeError reason)
  | Fulfilled response =>
      if status response =? 404 then
        inr {| reviews := JSON.Arr []; reviews_sha := None |}
      else if negb (ok response) then
        inl (Error ("Failed to fetch reviews from GitHub: " +:+
                    pretty (status response) +:+ " " +:+ text response))
      else
        match json response with
        | None => inl (SyntaxError syntax_error_message)
        | Some payload =>
            match
              Buffer.from (content payload)
                (Js.nullish_default (encoding payload) Buffer.base64)
            with
            | inl error => inl error
            | inr buffer =>
                let rawContent := Js.trim (Buffer.toString buffer) in
                if negb (Js.truthy_string rawContent) then
                  inr {| reviews := JSON.Arr [];
                         reviews_sha := Some (sha payload) |}
                else
                  match JSON.parse rawContent with
                  | Some parsed =>
                      inr {| reviews := parsed;
                             reviews_sha := Some (sha payload) |}
                  | None =>
                      inl (Error
                        ("reviews.json in GitHub repository contains invalid JSON: "
                         +:+ syntax_error_message))
                  end
            end
        end
  end.

Definition fetchReviewsFromGitHub (env : Env) : Async ReviewsWithSha :=
  config ← lift (getConfig env);
  let url := contents_url config +:+ "?ref=" +:+ branch config in
  AwaitGet url (buildHeaders (token config))
    (fun settled => lift (readContents settled)).

(** What [persistReviewsToGitHub] makes of the settled request. *)
Definition readUpdate (settled : Settled GitHubUpdateResponse)
  : JsError + option string :=
  match settled with
  | Rejected reason => inl (TypeError reason)
  | Fulfilled response =>
      if status response =? 409 then
        inl (GitHubConflictError "GitHub file changed during update")
      else if negb (ok response) then
        inl (Error ("Failed to persist reviews to GitHub: " +:+
                    pretty (status response) +:+ " " +:+ text response))
      else
        match json response with
        | None => inl (SyntaxError syntax_error_message)
        | Some payload =>
            inr
              (Js.nullish
                 (match upd_content payload with
                  | Some c => ref_sha c
                  | None => None
                  end)
                 (match upd_commit payload with
                  | Some c => ref_sha c
                  | None => None
                  end))
        end
  end.

(** The body of the PUT for a collection and the version it was read at. *)
Definition putBody (config : Config) (reviews : list JSON.value)
    (sha : option string) : PutBody :=
  {| body_message := commitMessage config;
     body_content :=
       Buffer.encode_base64 (JSON.stringify (JSON.Arr reviews));
     body_branch := branch config;
     body_sha := if Js.truthy sha then sha else None;
     body_committer :=
       match committerName config, committerEmail config with
       | Some (String c n), Some (String c' e) =>
           Some {| name := String c n; email := String c' e |}
       | _, _ => None
       end |}.

Definition persistReviewsToGitHub (env : Env) (reviews : list JSON.value)
    (sha : option string) : Async (option string) :=
  config ← lift (getConfig env);
  let url := contents_url config in
  let headers := buildHeaders (token config) in
  let body := putBody config reviews sha in
  AwaitPut url headers body (fun settled => lift (readUpdate settled)).

(** The text split before every byte that starts a UTF-8 sequence: the
    code points of a string, as strings. *)
Fixpoint code_points (pending : string) (s : string) : list string :=
  match s with
  | EmptyString =>
      match pending with
      | EmptyString => []
      | _ => [String.rev pending]
      end
  | String c s' =>
      let n := Z.of_N (N_of_ascii c) in
      if (128 <=? n) && (n <? 192) then code_points (String c pending) s'
      else
        match pending with
        | EmptyString => code_points (String c "") s'
        | _ => String.rev pending :: code_points (String c "") s'
        end
  end.

(** [[...reviews]]: the elements of an array, the code points of a string;
    nothing else that [JSON.parse] returns is iterable. *)
Definition spread (v : JSON.value) : JsError + list JSON.value :=
  match v with
  | JSON.Arr items => inr items
  | JSON.Str s => inr (map JSON.Str (code_points "" s))
  | _ => inl (TypeError "reviews is not iterable")
  end.

Definition exhausted (lastError : option JsError) : JsError :=
  match lastError with
  | Some e => e
  | None => Error "Exceeded retry attempts when updating reviews"
  end.

Section Mutate.

Context {T : Type}.
Variable env : Env.
(** The mutator returns the pair of [next] and [result]. *)
Variable mutator : list JSON.value -> list JSON.value * T.
(** The bound, for the calls in which it is an integer; the counter
    [attempt] is one always.  A bound with a fraction, which
    [getMaxRetries] returns for a setting such as [2.5], and an infinite
    one are left out. *)
Variable retries : Z.

(** One pass through the body of the [while] loop, entered with the
    counter already incremented; [continue] is what a retry does. *)
Definition attemptOnce (attempt : Z) (continue : JsError -> Async T)
  : Async T :=
  fetched ← fetchReviewsFromGitHub env;
  snapshot ← lift (spread (reviews fetched));
  let '(next, result) := mutator snapshot in
  try_catch
    (persistReviewsToGitHub env next (reviews_sha fetched) ≫=
     fun _ => Return result)
    (fun error =>
       if is_conflict error && (attempt <? retries)
       then continue error
       else Throw error).

(** The [while (attempt < retries)] loop and the [throw] after it.  The
    recursion is on [fuel], a bound on the passes still to come: the
    counter grows by one in each pass, so [retries - attempt] passes are
    enough for the test to fail first ([retryLoop_cycles] and
    [cycles_retryLoop] show that the executions do not depend on the
    fuel). *)
Fixpoint retryLoop (fuel : nat) (attempt : Z)
    (lastError : option JsError) : Async T :=
  if attempt <? retries then
    match fuel with
    | O => Throw (exhausted lastError)
    | S fuel' =>
        let attempt := attempt + 1 in
        attemptOnce attempt
          (fun error => retryLoop fuel' attempt (Some error))
    end
  else Throw (exhausted lastError).

Definition mutateReviewsWithRetry : Async T :=
  retryLoop (Z.to_nat retries) 0 None.

End Mutate.

(* ================================================================== *)
(** * The review handlers: [routes/reviews.ts] *)
(* ================================================================== *)

(** The fields of [AddReviewRequest] that [addReview] reads. *)
Record AddReviewRequest : Type := {
  req_text : string;
  req_avatar : option string;
  req_stars : option Js.number;
}.

Definition placeholder_avatar : string :=
  "https://api.builder.io/api/v1/image/assets/TEMP/50539832474100cc93c13a30455d91939b986e3b?width=124".

(** [stars || 5]. *)
Definition stars_or_default (stars : option Js.number) : Js.number :=
  match stars with
  | Some n => if Js.truthy_number n then n else Js.of_Z 5
  | None => Js.of_Z 5
  end.

(** The object literal [newReview].  [id] stands for
    [Date.now().toString() + Math.random().toString(36).substring(2, 11)]
    and [createdAt] for [new Date().toISOString()]: the readings of the
    clock and of the random source are inputs here. *)
Definition newReview (id createdAt : string) (req : AddReviewRequest)
  : JSON.value :=
  JSON.Obj
    [ ("id", JSON.Str id);
      ("text", JSON.Str (Js.trim (req_text req)));
      ("createdAt", JSON.Str createdAt);
      ("avatar", JSON.Str (Js.or_string (req_avatar req) placeholder_avatar));
      ("stars", JSON.Num (stars_or_default (req_stars req))) ].

(** The check that makes [addReview] answer 400 without calling the
    service: [!text || text.trim().length === 0]. *)
Definition text_rejected (text : string) : bool :=
  negb (Js.truthy_string text) || (String.length (Js.trim text) =? 0)%nat.

(** The mutator that [addReview] passes to [mutateReviewsWithRetry]. *)
Definition addReviewMutator (id createdAt : string) (req : AddReviewRequest)
    (current : list JSON.value) : list JSON.value * JSON.value :=
  let review := newReview id createdAt req in
  (current ++ [review], review).

(** The mutator that [clearReviews] passes. *)
Definition clearReviewsMutator (current : list JSON.value)
  : list JSON.value * unit :=
  ([], tt).

(** ** The handlers

    A handler ends by sending one response, [res.status(code).json(body)];
    what it logs with [console.error] is not modelled. *)
Record HttpResponse : Type := {
  http_status : Z;
  http_body : JSON.value;
}.

(** [error.message]. *)
Definition error_message (e : JsError) : string :=
  match e with
  | Error m => m
  | GitHubConfigError m => m
  | GitHubConflictError m => m
  | TypeError m => m
  | SyntaxError m => m
  end.

Definition handleError (error : JsError) : HttpResponse :=
  if is_conflict error then
    {| http_status := 409;
       http_body :=
         JSON.Obj
           [("error",
             JSON.Str "Conflict while updating reviews. Please retry shortly.")] |}
  else if is_config_error error then
    {| http_status := 500;
       http_body := JSON.Obj [("error", JSON.Str (error_message error))] |}
  else
    {| http_status := 500;
       http_body :=
         JSON.Obj [("error", JSON.Str "Unexpected reviews service error")] |}.

(** Truthiness of a value that may be [undefined]; a parsed request body
    holds JSON values only. *)
Definition truthy_value (v : option JSON.value) : bool :=
  match v with
  | None => false
  | Some JSON.Null => false
  | Some (JSON.Bool b) => b
  | Some (JSON.Num n) => Js.truthy_number n
  | Some (JSON.Str s) => Js.truthy_string s
  | Some (JSON.Arr _) => true
  | Some (JSON.Obj _) => true
  end.

(** [a || d] on values. *)
Definition or_value (a : option JSON.value) (d : JSON.value) : JSON.value :=
  match a with
  | Some v => if truthy_value a then v else d
  | None => d
  end.

Fixpoint lookup_field (key : string) (fields : list (string * JSON.value))
  : option JSON.value :=
  match fields with
  | [] => None
  | (k, v) :: rest =>
      if String.eqb k key then Some v else lookup_field key rest
  end.

(** [body.key] for the three keys that [addReview] reads: an own property
    of an object, [undefined] on every other value that a body can be. *)
Definition property (key : string) (body : JSON.value) : option JSON.value :=
  match body with
  | JSON.Obj fields => lookup_field key fields
  | _ => None
  end.

(** [req.body ?? {}]. *)
Definition body_or_empty (body : option JSON.value) : JSON.value :=
  match body with
  | None => JSON.Obj []
  | Some JSON.Null => JSON.Obj []
  | Some b => b
  end.

(** The object literal [newReview] over the fields of the body as they
    arrive: [text] has passed the check and is a string, [avatar] and
    [stars] are whatever the body holds. *)
Definition createdReview (id createdAt : string) (text : string)
    (avatar stars : option JSON.value) : JSON.value :=
  JSON.Obj
    [ ("id", JSON.Str id);
      ("text", JSON.Str (Js.trim text));
      ("createdAt", JSON.Str createdAt);
      ("avatar", or_value avatar (JSON.Str placeholder_avatar));
      ("stars", or_value stars (JSON.int 5)) ].

Definition bad_request : HttpResponse :=
  {| http_status := 400;
     http_body :=
       JSON.Obj [("error", JSON.Str "Text is required and cannot be empty")] |}.

Section Handlers.

Variable env : Env.
(** The constant [MAX_RETRIES], for the environments in which what
    [getMaxRetries] returned is an integer. *)
Variable MAX_RETRIES : Z.

Definition getReviews : Async HttpResponse :=
  try_catch
    (fetched ← fetchReviewsFromGitHub env;
     Return {| http_status := 200;
               http_body := JSON.Obj [("reviews", reviews fetched)] |})
    (fun error => Return (handleError error)).

(** [id] and [createdAt] are the readings of the clock and of the random
    source, as in [newReview].  The source takes them anew in each call
    of the mutator; here every call is given the same ones, which stand
    for those of the attempt whose review is stored and returned. *)
Definition addReview (id createdAt : string) (body : option JSON.value)
  : Async HttpResponse :=
  let body := body_or_empty body in
  let text := property "text" body in
  let avatar := property "avatar" body in
  let stars := property "stars" body in
  match text with
  | Some (JSON.Str text) =>
      if text_rejected text then Return bad_request
      else
        try_catch
          (review ←
             mutateReviewsWithRetry env
               (fun current =>
                  let newReview :=
                    createdReview id createdAt text avatar stars in
                  (current ++ [newReview], newReview))
               MAX_RETRIES;
           Return {| http_status := 201;
                     http_body := JSON.Obj [("review", review)] |})
          (fun error => Return (handleError error))
  | _ => Return bad_request
  end.

Definition clearReviews : Async HttpResponse :=
  try_catch
    (_ ← mutateReviewsWithRetry env clearReviewsMutator MAX_RETRIES;
     Return {| http_status := 200;
               http_body :=
                 JSON.Obj
                   [("message",
                     JSON.Str "All reviews cleared successfully")] |})
    (fun error => Return (handleError error)).

End Handlers.

(* ================================================================== *)
(** * Executions *)
(* ================================================================== *)

(** One settled request, as seen on the wire. *)
Inductive Event : Type :=
| Get (url : string) (headers : Headers)
    (settled : Settled GitHubContentResponse)
| Put (url : string) (headers : Headers) (body : PutBody)
    (settled : Settled GitHubUpdateResponse).

Inductive Completion (A : Type) : Type :=
| Returned (a : A)
| Thrown (e : JsError).
Arguments Returned {A} _.
Arguments Thrown {A} _.

(** [exec p trace c]: the computation [p] completes as [c] after exactly
    the exchanges of [trace], whatever made the remote side answer so. *)
Inductive exec {A : Type} : Async A -> list Event -> Completion A -> Prop :=
| exec_return a : exec (Return a) [] (Returned a)
| exec_throw e : exec (Throw e) [] (Thrown e)
| exec_get url headers k settled trace c :
    exec (k settled) trace c ->
    exec (AwaitGet url headers k) (Get url headers settled :: trace) c
| exec_put url headers body k settled trace c :
    exec (k settled) trace c ->
    exec (AwaitPut url headers body k) (Put url headers body settled :: trace) c.

(** A remote side with a state of its own. *)
Record Network (W : Type) : Type := {
  on_get : string -> Headers -> W -> Settled GitHubContentResponse * W;
  on_put : string -> Headers -> PutBody -> W -> Settled GitHubUpdateResponse * W;
}.
Arguments on_get {W} _ _ _ _.
Arguments on_put {W} _ _ _ _ _.

(** Runs a computation to completion against a network. *)
Fixpoint run {A W : Type} (net : Network W) (p : Async A) (w : W)
  : Completion A * list Event * W :=
  match p with
  | Return a => (Returned a, [], w)
  | Throw e => (Thrown e, [], w)
  | AwaitGet url headers k =>
      let '(settled, w1) := on_get net url headers w in
      let '(c, trace, w2) := run net (k settled) w1 in
      (c, Get url headers settled :: trace, w2)
  | AwaitPut url headers body k =>
      let '(settled, w1) := on_put net url headers body w in
      let '(c, trace, w2) := run net (k settled) w1 in
      (c, Put url headers body settled :: trace, w2)
  end.

(** The reads and the writes of a trace. *)
Fixpoint reads (trace : list Event) : nat :=
  match trace with
  | [] => O
  | Get _ _ _ :: rest => S (reads rest)
  | Put _ _ _ _ :: rest => reads rest
  end.

Fixpoint writes (trace : list Event) : nat :=
  match trace with
  | [] => O
  | Get _ _ _ :: rest => writes rest
  | Put _ _ _ _ :: rest => S (writes rest)
  end.

(* ================================================================== *)
(** * The remote store *)
(* ================================================================== *)

Module Store.

(** Modelled from the spec: the remote versioned document store is the
    GitHub contents API, which is not part of the repository.  Section 3
    gives its contract: (a) a write is accepted iff the supplied version
    token is the current one, or none is supplied and the object does not
    exist; (b) an accepted write installs a token that no caller has seen.
    Section 6 gives the wire contract: 404 on a read means no document,
    409 on a write means version conflict. *)
Record state : Type := {
  file : option (string * string);
  accepted : nat;
}.

Definition empty : state := {| file := None; accepted := 0 |}.

(** The token installed by the [n]-th accepted write. *)
Definition token_of (n : nat) : string := "v" +:+ pretty n.

Definition get (s : state) : Settled GitHubContentResponse * state :=
  match file s with
  | None =>
      (Fulfilled {| status := 404; text := "Not Found"; json := None |}, s)
  | Some (stored, version) =>
      (Fulfilled
         {| status := 200;
            text := "";
            json := Some {| content := Some stored;
                            encoding := Some Buffer.base64;
                            sha := version |} |}, s)
  end.

Definition matches (s : state) (supplied : option string) : bool :=
  match file s, supplied with
  | None, None => true
  | Some (_, version), Some v => String.eqb version v
  | _, _ => false
  end.

Definition put (body : PutBody) (s : state)
  : Settled GitHubUpdateResponse * state :=
  if matches s (body_sha body) then
    let version := token_of (S (accepted s)) in
    (Fulfilled
       {| status := match file s with Some _ => 200 | None => 201 end;
          text := "";
          json := Some {| upd_content := Some {| ref_sha := Some version |};
                          upd_commit := Some {| ref_sha := Some ("c" +:+ version) |} |} |},
     {| file := Some (body_content body, version);
        accepted := S (accepted s) |})
  else
    (Fulfilled {| status := 409; text := "Conflict"; json := None |}, s).

Definition network : Network state :=
  {| on_get := fun _ _ s => get s;
     on_put := fun _ _ body s => put body s |}.

Definition current_token (s : state) : option string :=
  match file s with
  | Some (_, version) => Some version
  | None => None
  end.

(** Another client's write of [stored]: it carries the current token and
    is therefore accepted. *)
Definition foreign_write (stored : string) (s : state) : state :=
  snd (put {| body_message := "";
              body_content := stored;
              body_branch := "";
              body_sha := current_token s;
              body_committer := None |} s).

(** A store that other clients write to as well: after each of our reads
    the next of their writes goes through. *)
Definition contended : Network (state * list string) :=
  {| on_get := fun _ _ w =>
       (fst (get (fst w)),
        match snd w with
        | [] => w
        | stored :: others => (foreign_write stored (fst w), others)
        end);
     on_put := fun _ _ body w =>
       (fst (put body (fst w)), (snd (put body (fst w)), snd w)) |}.

End Store.


(* ================================================================== *)
(** * Specifications used by the statements below *)
(* ================================================================== *)

(** The first of the three settings whose value is not empty: the reading
    under which a setting that is set to the empty string is passed over. *)
Definition first_non_empty (env : Env) : option string :=
  match env !! "GITHUB_MAX_RETRIES" with
  | Some (String c s) => Some (String c s)
  | _ =>
      match env !! "GITHUB_RETRY_LIMIT" with
      | Some (String c s) => Some (String c s)
      | _ =>
          match env !! "MAX_RETRIES" with
          | Some (String c s) => Some (String c s)
          | _ => None
          end
      end
  end.

(** The value that a single setting stands for. *)
Definition retries_of_setting (raw : option string) : Js.number :=
  match raw with
  | Some (String c s) =>
      let n := Js.Number_ (String c s) in
      if negb (Js.truthy_number n) || Js.isNaN n || Js.ltZ n 1
      then DEFAULT_MAX_RETRIES
      else n
  | _ => DEFAULT_MAX_RETRIES
  end.

(** Serialized collection data: JSON text of an array. *)
Definition is_collection_text (raw : string) : bool :=
  match JSON.parse raw with
  | Some (JSON.Arr _) => true
  | _ => false
  end.

(** The text that [fetchReviewsFromGitHub] hands to [JSON.parse]. *)
Definition decoded (payload : GitHubContentResponse) : JsError + string :=
  match
    Buffer.from (content payload)
      (Js.nullish_default (encoding payload) Buffer.base64)
  with
  | inl error => inl error
  | inr buffer => inr (Js.trim (Buffer.toString buffer))
  end.

(** The errors that are neither configuration errors nor conflicts: the
    class that the spec calls [StoreError]. *)
Definition is_store_error (e : JsError) : bool :=
  negb (is_config_error e) && negb (is_conflict e).

(** The settled write was answered with status 409. *)
Definition answered_409 (settled : Settled GitHubUpdateResponse) : bool :=
  match settled with
  | Fulfilled response => status response =? 409
  | Rejected _ => false
  end.

(** The algorithm of section 4.2 of the spec as a relation between the
    loop counter, the exchanges on the wire and the outcome. *)
Section Cycles.

Context {T : Type}.
Variable config : Config.
Variable mutator : list JSON.value -> list JSON.value * T.
Variable retries : Z.

(** The request of [fetchReviewsFromGitHub] with what it settled to. *)
Definition read_event (settled : Settled GitHubContentResponse) : Event :=
  Get (contents_url config +:+ "?ref=" +:+ branch config)
      (buildHeaders (token config)) settled.

(** The request of [persistReviewsToGitHub] with what it settled to. *)
Definition write_event (next : list JSON.value) (sha : option string)
    (settled : Settled GitHubUpdateResponse) : Event :=
  Put (contents_url config) (buildHeaders (token config))
      (putBody config next sha) settled.

(** [cycles attempt trace c]: entered with the counter at [attempt] and
    at least one attempt left, the loop exchanges [trace] and completes
    as [c]. *)
Inductive cycles : Z -> list Event -> Completion T -> Prop :=
| cycles_read_fails attempt gs e :
    readContents gs = inl e ->
    cycles attempt [read_event gs] (Thrown e)
| cycles_not_iterable attempt gs fetched e :
    readContents gs = inr fetched ->
    spread (reviews fetched) = inl e ->
    cycles attempt [read_event gs] (Thrown e)
| cycles_written attempt gs fetched snapshot ps version :
    readContents gs = inr fetched ->
    spread (reviews fetched) = inr snapshot ->
    readUpdate ps = inr version ->
    cycles attempt
      [read_event gs;
       write_event (fst (mutator snapshot)) (reviews_sha fetched) ps]
      (Returned (snd (mutator snapshot)))
| cycles_write_fails attempt gs fetched snapshot ps e :
    readContents gs = inr fetched ->
    spread (reviews fetched) = inr snapshot ->
    readUpdate ps = inl e ->
    is_conflict e && (attempt + 1 <? retries) = false ->
    cycles attempt
      [read_event gs;
       write_event (fst (mutator snapshot)) (reviews_sha fetched) ps]
      (Thrown e)
| cycles_retry attempt gs fetched snapshot ps e rest c :
    readContents gs = inr fetched ->
    spread (reviews fetched) = inr snapshot ->
    readUpdate ps = inl e ->
    is_conflict e && (attempt + 1 <? retries) = true ->
    cycles (attempt + 1) rest c ->
    cycles attempt
      (read_event gs ::
       write_event (fst (mutator snapshot)) (reviews_sha fetched) ps ::
       rest)
      c.

End Cycles.

(* ================================================================== *)
(** * Concurrent invocations *)
(* ================================================================== *)

(** The collection that the store holds, as a read of the service sees
    it. *)
Definition persisted (s : Store.state) : JsError + list JSON.value :=
  match readContents (fst (Store.get s)) with
  | inl e => inl e
  | inr fetched => spread (reviews fetched)
  end.

(** The document that [persistReviewsToGitHub] sends for a collection. *)
Definition document (collection : list JSON.value) : string :=
  Buffer.encode_base64 (JSON.stringify (JSON.Arr collection)).

(** Several invocations in flight against one store.  An invocation is
    suspended only at its requests, so an interleaving is a sequence of
    choices of which invocation has its pending request served next.
    [accepted_by] records, oldest first, whose writes the store accepted. *)
Record Shared (T : Type) : Type := {
  store : Store.state;
  pool : list (Async T);
  accepted_by : list nat;
}.
Arguments store {T} _.
Arguments pool {T} _.
Arguments accepted_by {T} _.

(** Serves the pending request of invocation [i], if it has one. *)
Definition serve {T} (i : nat) (sys : Shared T) : Shared T :=
  match pool sys !! i with
  | Some (AwaitGet url headers k) =>
      let answer := on_get Store.network url headers (store sys) in
      {| store := snd answer;
         pool := <[i := k (fst answer)]> (pool sys);
         accepted_by := accepted_by sys |}
  | Some (AwaitPut url headers body k) =>
      let answer := on_put Store.network url headers body (store sys) in
      {| store := snd answer;
         pool := <[i := k (fst answer)]> (pool sys);
         accepted_by :=
           if Store.matches (store sys) (body_sha body)
           then accepted_by sys ++ [i]
           else accepted_by sys |}
  | _ => sys
  end.

Definition interleave {T} (schedule : list nat) (sys : Shared T) : Shared T :=
  fold_left (fun sys i => serve i sys) schedule sys.

(** Concurrent calls of [mutateReviewsWithRetry], each with its mutator and
    its bound, against a store without a document. *)
Definition invocations {T} (env : Env)
    (calls : list ((list JSON.value -> list JSON.value * T) * Z))
  : Shared T :=
  {| store := Store.empty;
     pool := (fun call => mutateReviewsWithRetry env (fst call) (snd call))
             <$> calls;
     accepted_by := [] |}.

(** The collection obtained by applying the mutators of the calls listed
    in [order], one after the other, from the empty collection. *)
Definition serial {T}
    (calls : list ((list JSON.value -> list JSON.value * T) * Z))
    (order : list nat) : list JSON.value :=
  fold_left
    (fun collection i =>
       match calls !! i with
       | Some call => fst (fst call collection)
       | None => collection
       end)
    order [].

(** The shapes that an invocation of the loop goes through: about to read
    (or failed), or, after a read, about to write what the mutator made of
    that read, and from there returned or back to reading. *)
Section Shapes.

Context {T : Type}.
Variable mutator : list JSON.value -> list JSON.value * T.

Inductive reading : Async T -> Prop :=
| reading_failed e : reading (Throw e)
| reading_get url headers k :
    (forall gs, read_then gs (k gs)) ->
    reading (AwaitGet url headers k)
with read_then : Settled GitHubContentResponse -> Async T -> Prop :=
| read_then_fail gs e : read_then gs (Throw e)
| read_then_put gs fetched snapshot url headers body k :
    readContents gs = inr fetched ->
    spread (reviews fetched) = inr snapshot ->
    body_content body = document (fst (mutator snapshot)) ->
    body_sha body
    = (if Js.truthy (reviews_sha fetched) then reviews_sha fetched else None) ->
    (forall ps, write_then snapshot ps (k ps)) ->
    read_then gs (AwaitPut url headers body k)
with write_then
  : list JSON.value -> Settled GitHubUpdateResponse -> Async T -> Prop :=
| write_then_return snapshot ps version :
    readUpdate ps = inr version ->
    write_then snapshot ps (Return (snd (mutator snapshot)))
| write_then_retry snapshot ps e p :
    readUpdate ps = inl e ->
    reading p ->
    write_then snapshot ps p.

End Shapes.

(* ================================================================== *)
(** * Vocabulary of the proofs *)
(* ================================================================== *)

Definition conflicts_only (ev : Event) : Prop :=
  match ev with
  | Put _ _ _ ps => answered_409 ps = true
  | Get _ _ _ => True
  end.

(** Closes the arithmetic side conditions on byte values. *)
Ltac sextet_bounds :=
  repeat match goal with
         | c : ascii |- _ =>
             lazymatch goal with
             | H : (N_of_ascii c < 256)%N |- _ => fail
             | _ => pose proof (N_ascii_bounded c)
             end
         end;
  unfold Buffer.code in *;
  Z.to_euclidean_division_equations; lia.

(** What may follow a printed value: the end of the text, or a character
    that continues neither a number nor a literal. *)
Definition boundary (rest : string) : Prop :=
  match rest with
  | EmptyString => True
  | String c _ =>
      JSON.is_number_char c = false /\ JSON.is_word_char c = false
  end.

(** Indentation: spaces only. *)
Fixpoint blank (s : string) : Prop :=
  match s with
  | EmptyString => True
  | String c s' => c = " "%char /\ blank s'
  end.

(** Lexing a prefix of the text: the state reached and the tokens found. *)
Fixpoint lex_prefix (st : JSON.lex_state) (out : list JSON.token) (s : string)
  : option (JSON.lex_state * list JSON.token) :=
  match s with
  | EmptyString => Some (st, out)
  | String c s' =>
      match JSON.lex_step st c out with
      | Some (st', out') => lex_prefix st' out' s'
      | None => None
      end
  end.

(** Text of the ASCII range. *)
Fixpoint ascii_text (s : string) : Prop :=
  match s with
  | EmptyString => True
  | String c s' => Buffer.code c < 128 /\ ascii_text s'
  end.

Fixpoint number_chars (s : string) : Prop :=
  match s with
  | EmptyString => True
  | String c s' => JSON.is_number_char c = true /\ number_chars s'
  end.

(** The tokens of the members of a container, with the commas between. *)
Fixpoint separated (parts : list (list JSON.token)) : list JSON.token :=
  match parts with
  | [] => []
  | [p] => p
  | p :: rest => p ++ JSON.TComma :: separated rest
  end.

(** The tokens of the text of a value. *)
Fixpoint tokens (v : JSON.value) : list JSON.token :=
  match v with
  | JSON.Null => [JSON.TNull]
  | JSON.Bool true => [JSON.TTrue]
  | JSON.Bool false => [JSON.TFalse]
  | JSON.Num n => [JSON.TNumber n]
  | JSON.Str s => [JSON.TString s]
  | JSON.Arr items =>
      JSON.TLBracket :: separated (map tokens items) ++ [JSON.TRBracket]
  | JSON.Obj fields =>
      JSON.TLBrace ::
      separated
        (map (fun kv => JSON.TString (fst kv) :: JSON.TColon :: tokens (snd kv))
             fields) ++
      [JSON.TRBrace]
  end.

(** The values that [JSON.stringify] prints without loss: integers for
    numbers, and objects without a repeated key. *)
Inductive plain : JSON.value -> Prop :=
| plain_null : plain JSON.Null
| plain_bool b : plain (JSON.Bool b)
| plain_int z : plain (JSON.int z)
| plain_str s : plain (JSON.Str s)
| plain_arr items : Forall plain items -> plain (JSON.Arr items)
| plain_obj fields :
    NoDup (map fst fields) ->
    Forall (fun kv => plain (snd kv)) fields ->
    plain (JSON.Obj fields).

(** The [plain] values whose integers are safe ones, of absolute value
    below 2^53: those the runtime prints in plain decimal and reads back
    as they are, which the codec above does for every integer. *)
Inductive lossless : JSON.value -> Prop :=
| lossless_null : lossless JSON.Null
| lossless_bool b : lossless (JSON.Bool b)
| lossless_int z : - 2 ^ 53 < z < 2 ^ 53 -> lossless (JSON.int z)
| lossless_str s : lossless (JSON.Str s)
| lossless_arr items : Forall lossless items -> lossless (JSON.Arr items)
| lossless_obj fields :
    NoDup (map fst fields) ->
    Forall (fun kv => lossless (snd kv)) fields ->
    lossless (JSON.Obj fields).

(** The token that starts a value starts nothing else. *)
Definition starts_value (t : JSON.token) : Prop :=
  match t with
  | JSON.TRBracket | JSON.TRBrace | JSON.TComma | JSON.TColon => False
  | _ => True
  end.

(** The member [key] of an object. *)
Definition member (key : string) (v : JSON.value) : option JSON.value :=
  match v with
  | JSON.Obj fields =>
      match filter (fun kv => bool_decide (fst kv = key)) fields with
      | kv :: _ => Some (snd kv)
      | [] => None
      end
  | _ => None
  end.

(** GETs and PUTs in turn; [expect_get] tells which one is due. *)
Fixpoint alternating (expect_get : bool) (trace : list Event) : bool :=
  match trace with
  | [] => true
  | Get _ _ _ :: rest => expect_get && alternating false rest
  | Put _ _ _ _ :: rest => negb expect_get && alternating true rest
  end.

(** The request goes to the file of the configuration, with its
    credential; a PUT names its branch and its commit message. *)
Definition addressed (config : Config) (ev : Event) : Prop :=
  match ev with
  | Get url headers _ =>
      url = contents_url config +:+ "?ref=" +:+ branch config /\
      headers = buildHeaders (token config)
  | Put url headers body _ =>
      url = contents_url config /\
      headers = buildHeaders (token config) /\
      body_branch body = branch config /\
      body_message body = commitMessage config
  end.

(** What a handler answers to the way its call of the service completed. *)
Definition answer {T} (success : T -> HttpResponse) (c : Completion T)
  : HttpResponse :=
  match c with
  | Returned result => success result
  | Thrown error => handleError error
  end.

(** The success responses of the three handlers. *)
Definition listed (fetched : ReviewsWithSha) : HttpResponse :=
  {| http_status := 200;
     http_body := JSON.Obj [("reviews", reviews fetched)] |}.

Definition created (review : JSON.value) : HttpResponse :=
  {| http_status := 201; http_body := JSON.Obj [("review", review)] |}.

Definition cleared (_ : unit) : HttpResponse :=
  {| http_status := 200;
     http_body :=
       JSON.Obj [("message", JSON.Str "All reviews cleared successfully")] |}.

(** The mutator of [addReview] for a text that passed the check. *)
Definition createdMutator (id createdAt text : string)
    (avatar stars : option JSON.value) (current : list JSON.value)
  : list JSON.value * JSON.value :=
  let review := createdReview id createdAt text avatar stars in
  (current ++ [review], review).

(** The invariant of concurrent invocations. *)
Section Invariant.

Context {T : Type}.
Variable calls : list ((list JSON.value -> list JSON.value * T) * Z).

(** The token that a read of the store gives when [n] writes have been
    accepted. *)
Definition token_at (n : nat) : option string :=
  match n with
  | O => None
  | S _ => Some (Store.token_of n)
  end.

(** The store holds the collection of the serial run, under the token of
    the number of accepted writes. *)
Definition store_inv (s : Store.state) (log : list nat) : Prop :=
  Forall plain (serial calls log) /\
  match Store.file s with
  | None => Store.accepted s = O /\ log = []
  | Some (stored, version) =>
      stored = document (serial calls log) /\
      version = Store.token_of (Store.accepted s) /\
      (0 < Store.accepted s)%nat
  end.

(** An invocation between its read and its write: it read when [n]
    writes had been accepted, and what it read is still the stored
    collection if no write was accepted since. *)
Definition writing (mutator : list JSON.value -> list JSON.value * T)
    (s : Store.state) (log : list nat) (p : Async T) : Prop :=
  exists url headers body k snapshot n,
    p = AwaitPut url headers body k /\
    (forall ps, write_then mutator snapshot ps (k ps)) /\
    body_content body = document (fst (mutator snapshot)) /\
    Forall plain snapshot /\
    (n <= Store.accepted s)%nat /\
    body_sha body = token_at n /\
    (Store.accepted s = n -> snapshot = serial calls log).

Definition thread_inv (s : Store.state) (log : list nat) (i : nat)
    (p : Async T) : Prop :=
  (exists before after call,
     log = before ++ i :: after /\
     calls !! i = Some call /\
     p = Return (snd (fst call (serial calls before)))) \/
  ((i ∉ log) /\
   exists call,
     calls !! i = Some call /\
     (reading (fst call) p \/ writing (fst call) s log p)).

Definition inv (sys : Shared T) : Prop :=
  store_inv (store sys) (accepted_by sys) /\
  NoDup (accepted_by sys) /\
  (forall i, i ∈ accepted_by sys -> is_Some (pool sys !! i)) /\
  (forall i p, pool sys !! i = Some p ->
               thread_inv (store sys) (accepted_by sys) i p).

End Invariant.

(** Sample configurations and requests. *)
Definition sample_env : Env :=
  <["GITHUB_TOKEN" := "secret"]>
    (<["GITHUB_OWNER" := "studio"]> (<["GITHUB_REPO" := "site"]> ∅)).

(** What [getConfig] makes of [sample_env]. *)
Definition sample_config : Config :=
  {| token := "secret";
     owner := "studio";
     repo := "site";
     filePath := "reviews.json";
     branch := "main";
     commitMessage := "chore: update reviews";
     committerName := None;
     committerEmail := None |}.

Definition sample_request : AddReviewRequest :=
  {| req_text := "hello"; req_avatar := None; req_stars := None |}.

(** The answers of the store model to a read of the empty store and to a
    write that it rejects. *)
Definition not_found_answer : Settled GitHubContentResponse :=
  Fulfilled {| status := 404; text := "Not Found"; json := None |}.

Definition conflict_answer : Settled GitHubUpdateResponse :=
  Fulfilled {| status := 409; text := "Conflict"; json := None |}.

Definition server_error_answer : Settled GitHubUpdateResponse :=
  Fulfilled {| status := 500; text := "Server Error"; json := None |}.

Definition sample_mutator : list JSON.value -> list JSON.value * JSON.value :=
  addReviewMutator "1700000000000abc" "2024-01-01T00:00:00.000Z" sample_request.

(** A document with one review, as another client stores it. *)
Definition foreign_document : string :=
  Buffer.encode_base64
    (JSON.stringify
       (JSON.Arr
          [newReview "1699999999999xyz" "2023-12-31T23:59:59.000Z"
             {| req_text := "first"; req_avatar := None;
                req_stars := Some (Js.of_Z 4) |}])).

(** [mutateReviewsWithRetry] with three attempts on an empty store, with
    one write of another client landing after the first read. *)
Definition contended_once :
  Completion JSON.value * list Event * (Store.state * list string) :=
  run Store.contended (mutateReviewsWithRetry sample_env sample_mutator 3)
    (Store.empty, [foreign_document]).

(** The review of the other client, the store once its write has landed,
    and what that store answers to the second read and to the second
    write of [contended_once]. *)
Definition foreign_review : JSON.value :=
  newReview "1699999999999xyz" "2023-12-31T23:59:59.000Z"
    {| req_text := "first"; req_avatar := None;
       req_stars := Some (Js.of_Z 4) |}.

Definition overtaken_store : Store.state :=
  Store.foreign_write foreign_document Store.empty.

Definition fresh_answer : Settled GitHubContentResponse :=
  fst (Store.get overtaken_store).

Definition retried_body : PutBody :=
  putBody sample_config (fst (sample_mutator [foreign_review]))
    (Some (Store.token_of 1)).

Definition accepted_answer : Settled GitHubUpdateResponse :=
  fst (Store.put retried_body overtaken_store).

(** Two attempts, each of them overtaken by a write of another client. *)
Definition contended_twice :
  Completion JSON.value * list Event * (Store.state * list string) :=
  run Store.contended (mutateReviewsWithRetry sample_env sample_mutator 2)
    (Store.empty, [foreign_document; foreign_document]).

(** Two concurrent [addReview] calls, and an interleaving in which both
    read the empty store before either writes. *)
Definition pair_of_calls
  : list ((list JSON.value -> list JSON.value * JSON.value) * Z) :=
  [ (addReviewMutator "1700000000000abc" "2024-01-01T00:00:00.000Z"
       sample_request, 5);
    (addReviewMutator "1700000000001def" "2024-01-01T00:00:01.000Z"
       {| req_text := " second "; req_avatar := None;
          req_stars := Some (Js.of_Z 3) |}, 5) ].

Definition racing_schedule : list nat := [0; 1; 0; 1; 1; 1]%nat.

(** A store without a document that answers every write with status 500. *)
Definition failing_store : Network unit :=
  {| on_get := fun _ _ w => (fst (Store.get Store.empty), w);
     on_put := fun _ _ _ w => (server_error_answer, w) |}.

Definition failing_write : Completion JSON.value * list Event * unit :=
  run failing_store (mutateReviewsWithRetry sample_env sample_mutator 3) tt.

(** A store that is down: every request is answered with status 503. *)
Definition unavailable_answer : Settled GitHubContentResponse :=
  Fulfilled {| status := 503; text := "Service Unavailable"; json := None |}.

Definition unavailable_store : Network unit :=
  {| on_get := fun _ _ w => (unavailable_answer, w);
     on_put := fun _ _ _ w =>
       (Fulfilled {| status := 503; text := "Service Unavailable";
                     json := None |}, w) |}.

Definition failing_read : Completion JSON.value * list Event * unit :=
  run unavailable_store (mutateReviewsWithRetry sample_env sample_mutator 3) tt.

(** A successful read whose document is the JSON text of an empty object. *)
Definition object_response : Response GitHubContentResponse :=
  {| status := 200;
     text := "";
     json := Some {| content := Some "e30=";
                     encoding := Some Buffer.base64;
                     sha := "3f2a" |} |}.

(** A successful read whose document is not JSON text: it decodes to
    [not json]. *)
Definition garbled_response : Response GitHubContentResponse :=
  {| status := 200;
     text := "";
     json := Some {| content := Some "bm90IGpzb24=";
                     encoding := Some Buffer.base64;
                     sha := "3f2a" |} |}.

(** Successful reads of a document that starts with a byte order mark,
    of one that is a single no-break space, and of a file that the API
    does not inline. *)
Definition marked_response : Response GitHubContentResponse :=
  {| status := 200;
     text := "";
     json := Some {| content := Some "77u/WzFd";
                     encoding := Some Buffer.base64;
                     sha := "3f2a" |} |}.

Definition padded_response : Response GitHubContentResponse :=
  {| status := 200;
     text := "";
     json := Some {| content := Some "wqA=";
                     encoding := None;
                     sha := "3f2a" |} |}.

(** A successful read of a path that names a directory: the body has no
    [content]. *)
Definition listing_response : Response GitHubContentResponse :=
  {| status := 200;
     text := "";
     json := Some {| content := None;
                     encoding := None;
                     sha := "3f2a" |} |}.

(** U+00A0 and U+2003 in UTF-8, and texts that are padded with them. *)
Definition no_break_space : string := String "194" (String "160" "").
Definition em_space : string := String "226" (String "128" (String "131" "")).
Definition padded_text : string := em_space +:+ "hello" +:+ no_break_space.
Definition blank_text : string := no_break_space +:+ " " +:+ em_space.

Definition large_file_response : Response GitHubContentResponse :=
  {| status := 200;
     text := "";
     json := Some {| content := Some "";
                     encoding :=
                       Some (Buffer.rejected "Unknown encoding: none");
                     sha := "3f2a" |} |}.

(* ================================================================== *)
(** * Properties *)
(* ================================================================== *)

(** ** The retry bound, [getMaxRetries] *)

Lemma getMaxRetries_setting (env : Env) :
  getMaxRetries env = retries_of_setting (retries_setting env).
Proof.
  unfold getMaxRetries, retries_of_setting.
  destruct (retries_setting env) as [[|c s]|]; reflexivity.
Qed.

(** C8, as stated, fails: with [GITHUB_MAX_RETRIES] set to the empty string
    and [GITHUB_RETRY_LIMIT] set to 3, the first non-empty setting is 3,
    a positive number, and yet the effective value is the default 5. *)
Lemma getMaxRetries_first_non_empty_counterexample :
  let env : Env :=
    <["GITHUB_MAX_RETRIES" := ""]> (<["GITHUB_RETRY_LIMIT" := "3"]> ∅) in
  first_non_empty env = Some "3" /\
  retries_of_setting (first_non_empty env) = Js.of_Z 3 /\
  getMaxRetries env = Js.of_Z 5 /\
  getMaxRetries env <> retries_of_setting (first_non_empty env).
Proof. vm_compute. repeat split; congruence. Qed.

(** C8, amended: the setting that counts is the first of
    GITHUB_MAX_RETRIES, GITHUB_RETRY_LIMIT, MAX_RETRIES that is set at all,
    even to the empty string.  When none is set, or that one is empty, not
    a number, or below 1, the effective value is the default 5; and the
    effective value is never NaN and never below 1. *)
Theorem getMaxRetries_default (env : Env) :
  (retries_setting env = None \/
   retries_setting env = Some "" \/
   exists s, retries_setting env = Some s /\
             (Js.Number_ s = Js.NaN \/ Js.ltZ (Js.Number_ s) 1 = true)) ->
  getMaxRetries env = Js.of_Z 5 /\
  Js.isNaN (getMaxRetries env) = false /\
  Js.ltZ (getMaxRetries env) 1 = false.
Proof.
  intros H.
  assert (Hd : getMaxRetries env = Js.of_Z 5).
  { rewrite getMaxRetries_setting.
    destruct H as [-> | [-> | (s & -> & Hs)]]; try reflexivity.
    destruct s as [|c s]; [reflexivity|].
    unfold retries_of_setting.
    destruct Hs as [-> | ->]; [reflexivity|].
    rewrite !orb_true_r. reflexivity. }
  rewrite Hd. split; [reflexivity|]. split; reflexivity.
Qed.

Lemma getMaxRetries_default_witness :
  let env : Env :=
    <["GITHUB_MAX_RETRIES" := "-2"]> (<["GITHUB_RETRY_LIMIT" := "3"]> ∅) in
  getMaxRetries env = Js.of_Z 5 /\
  Js.isNaN (getMaxRetries env) = false /\
  Js.ltZ (getMaxRetries env) 1 = false.
Proof.
  apply (getMaxRetries_default
           (<["GITHUB_MAX_RETRIES" := "-2"]> (<["GITHUB_RETRY_LIMIT" := "3"]> ∅))).
  right. right. exists "-2". split; [reflexivity|]. right. reflexivity.
Defined.

(** The effective value is at least 1 for every configuration. *)
Lemma getMaxRetries_at_least_one (env : Env) :
  Js.isNaN (getMaxRetries env) = false /\ Js.ltZ (getMaxRetries env) 1 = false.
Proof.
  rewrite getMaxRetries_setting. unfold retries_of_setting.
  destruct (retries_setting env) as [[|c s]|]; try (split; reflexivity).
  destruct (negb _ || _ || _) eqn:E; [split; reflexivity|].
  apply orb_false_elim in E as [E1 E2].
  apply orb_false_elim in E1 as [_ E1]. by split.
Qed.

(** ** Configuration is checked before anything is sent *)

Lemma getConfig_missing (env : Env) :
  Js.truthy (env !! "GITHUB_TOKEN") = false \/
  Js.truthy (env !! "GITHUB_OWNER") = false \/
  Js.truthy (env !! "GITHUB_REPO") = false ->
  exists msg, getConfig env = inl (GitHubConfigError msg).
Proof.
  unfold getConfig. intros H.
  destruct (env !! "GITHUB_TOKEN") as [[|? ?]|]; eauto.
  destruct (env !! "GITHUB_OWNER") as [[|? ?]|]; eauto.
  destruct (env !! "GITHUB_REPO") as [[|? ?]|]; eauto.
  simpl in H. intuition discriminate.
Qed.

Lemma getConfig_error (env : Env) (e : JsError) :
  getConfig env = inl e -> is_config_error e = true.
Proof.
  unfold getConfig.
  destruct (env !! "GITHUB_TOKEN") as [[|? ?]|]; try (intros [= <-]; reflexivity).
  destruct (env !! "GITHUB_OWNER") as [[|? ?]|]; try (intros [= <-]; reflexivity).
  destruct (env !! "GITHUB_REPO") as [[|? ?]|]; intros [= <-]; reflexivity.
Qed.

Lemma fetch_config_error (env : Env) (e : JsError) :
  getConfig env = inl e -> fetchReviewsFromGitHub env = Throw e.
Proof. intros H. unfold fetchReviewsFromGitHub. rewrite H. reflexivity. Qed.

Lemma persist_config_error (env : Env) reviews sha (e : JsError) :
  getConfig env = inl e -> persistReviewsToGitHub env reviews sha = Throw e.
Proof. intros H. unfold persistReviewsToGitHub. rewrite H. reflexivity. Qed.

Lemma retryLoop_config_error {T} (env : Env)
    (mutator : list JSON.value -> list JSON.value * T) retries
    fuel attempt lastError (e : JsError) :
  getConfig env = inl e ->
  attempt < retries ->
  retryLoop env mutator retries (S fuel) attempt lastError = Throw e.
Proof.
  intros H Hlt. cbn [retryLoop].
  rewrite (proj2 (Z.ltb_lt attempt retries) Hlt). unfold attemptOnce.
  rewrite (fetch_config_error _ _ H). reflexivity.
Qed.

Lemma retryLoop_exhausted {T} (env : Env)
    (mutator : list JSON.value -> list JSON.value * T) retries
    fuel attempt lastError :
  retries <= attempt ->
  retryLoop env mutator retries fuel attempt lastError
  = Throw (exhausted lastError).
Proof.
  intros Hle. destruct fuel; cbn [retryLoop];
    by rewrite (proj2 (Z.ltb_ge attempt retries) Hle).
Qed.

(** C6, as stated, fails: with no setting at all and a bound of -3 the
    loop of [mutateReviewsWithRetry] lets no attempt through, the
    configuration is never read, and the call throws the error of the
    [throw] after the loop, which is not a [GitHubConfigError]. *)
Lemma mutate_without_attempts_skips_config_counterexample :
  Js.truthy ((∅ : Env) !! "GITHUB_TOKEN") = false /\
  getConfig ∅
  = inl (GitHubConfigError "Missing GITHUB_TOKEN environment variable") /\
  mutateReviewsWithRetry ∅ clearReviewsMutator (-3)
  = Throw (Error "Exceeded retry attempts when updating reviews") /\
  is_config_error (Error "Exceeded retry attempts when updating reviews")
  = false.
Proof. repeat split. Qed.

(** C6, amended: when the credential, the owner or the repository is
    missing from the configuration, [fetchReviewsFromGitHub],
    [persistReviewsToGitHub] and, for a positive number of attempts,
    [mutateReviewsWithRetry] are the computation that throws a
    [GitHubConfigError] at once: there is no request before the throw,
    hence no network call at all. *)
Theorem missing_config_fails_before_any_request {T} (env : Env)
    (mutator : list JSON.value -> list JSON.value * T) (retries : Z)
    (reviews : list JSON.value) (sha : option string) :
  Js.truthy (env !! "GITHUB_TOKEN") = false \/
  Js.truthy (env !! "GITHUB_OWNER") = false \/
  Js.truthy (env !! "GITHUB_REPO") = false ->
  0 < retries ->
  exists msg,
    fetchReviewsFromGitHub env = Throw (GitHubConfigError msg) /\
    persistReviewsToGitHub env reviews sha = Throw (GitHubConfigError msg) /\
    mutateReviewsWithRetry env mutator retries = Throw (GitHubConfigError msg) /\
    forall trace c,
      exec (mutateReviewsWithRetry env mutator retries) trace c ->
      trace = [] /\ c = Thrown (GitHubConfigError msg).
Proof.
  intros Hmissing Hpos.
  destruct (getConfig_missing env Hmissing) as [msg Hcfg].
  exists msg.
  assert (Hm : mutateReviewsWithRetry env mutator retries
               = Throw (GitHubConfigError msg)).
  { unfold mutateReviewsWithRetry.
    destruct (Z.to_nat retries) as [|n] eqn:E; [lia|].
    by apply retryLoop_config_error. }
  split; [by apply fetch_config_error|].
  split; [by apply persist_config_error|].
  split; [exact Hm|].
  intros trace c Hexec. rewrite Hm in Hexec. by inversion Hexec.
Qed.

Lemma missing_config_fails_before_any_request_witness :
  let env : Env := <["GITHUB_OWNER" := "studio"]> (<["GITHUB_REPO" := "site"]> ∅) in
  exists msg,
    fetchReviewsFromGitHub env = Throw (GitHubConfigError msg) /\
    persistReviewsToGitHub env [] None = Throw (GitHubConfigError msg) /\
    mutateReviewsWithRetry env clearReviewsMutator 5
      = Throw (GitHubConfigError msg) /\
    forall trace c,
      exec (mutateReviewsWithRetry env clearReviewsMutator 5) trace c ->
      trace = [] /\ c = Thrown (GitHubConfigError msg).
Proof.
  apply (missing_config_fails_before_any_request
           (<["GITHUB_OWNER" := "studio"]> (<["GITHUB_REPO" := "site"]> ∅))
           clearReviewsMutator 5 [] None).
  - left. reflexivity.
  - lia.
Defined.

(** ** A retry count that admits no attempt *)

(** C10: with [retries <= 0] the loop body is never entered:
    [mutateReviewsWithRetry] is the computation that throws the generic
    exhaustion error, whatever the mutator and the configuration; it sends
    no request and does not depend on the mutator. *)
Theorem no_attempt_when_retries_not_positive {T} (env : Env)
    (mutator : list JSON.value -> list JSON.value * T) (retries : Z) :
  retries <= 0 ->
  mutateReviewsWithRetry env mutator retries
  = Throw (Error "Exceeded retry attempts when updating reviews") /\
  forall trace c,
    exec (mutateReviewsWithRetry env mutator retries) trace c ->
    trace = [] /\
    c = Thrown (Error "Exceeded retry attempts when updating reviews").
Proof.
  intros Hle.
  assert (Hm : mutateReviewsWithRetry env mutator retries
               = Throw (Error "Exceeded retry attempts when updating reviews")).
  { unfold mutateReviewsWithRetry. by apply retryLoop_exhausted. }
  split; [exact Hm|].
  intros trace c Hexec. rewrite Hm in Hexec. by inversion Hexec.
Qed.

Lemma no_attempt_when_retries_not_positive_witness :
  mutateReviewsWithRetry sample_env
    (addReviewMutator "1700000000000abc" "2024-01-01T00:00:00.000Z" sample_request) 0
  = Throw (Error "Exceeded retry attempts when updating reviews") /\
  forall trace c,
    exec (mutateReviewsWithRetry sample_env
            (addReviewMutator "1700000000000abc" "2024-01-01T00:00:00.000Z"
               sample_request) 0) trace c ->
    trace = [] /\
    c = Thrown (Error "Exceeded retry attempts when updating reviews").
Proof.
  apply (no_attempt_when_retries_not_positive sample_env
           (addReviewMutator "1700000000000abc" "2024-01-01T00:00:00.000Z"
              sample_request) 0).
  lia.
Defined.

(** ** Executions of the retry loop *)

Lemma exec_return_inv {A} (a : A) trace c :
  exec (Return a) trace c -> trace = [] /\ c = Returned a.
Proof. by inversion 1. Qed.

Lemma exec_throw_inv {A} (e : JsError) trace (c : Completion A) :
  exec (Throw e) trace c -> trace = [] /\ c = Thrown e.
Proof. by inversion 1. Qed.

Lemma exec_get_inv {A} url headers (k : _ -> Async A) trace c :
  exec (AwaitGet url headers k) trace c ->
  exists settled rest,
    trace = Get url headers settled :: rest /\ exec (k settled) rest c.
Proof. inversion 1; subst. eauto. Qed.

Lemma exec_put_inv {A} url headers body (k : _ -> Async A) trace c :
  exec (AwaitPut url headers body k) trace c ->
  exists settled rest,
    trace = Put url headers body settled :: rest /\ exec (k settled) rest c.
Proof. inversion 1; subst. eauto. Qed.

(** Running against a network is one of the executions. *)
Lemma run_exec {A W} (net : Network W) (p : Async A) (w : W) :
  exec p (snd (fst (run net p w))) (fst (fst (run net p w))).
Proof.
  revert w. induction p as [a|e|url headers k IH|url headers body k IH];
    intros w; simpl.
  - constructor.
  - constructor.
  - destruct (on_get net url headers w) as [settled w1].
    specialize (IH settled w1).
    destruct (run net (k settled) w1) as [[c trace] w2]. simpl in *.
    by constructor.
  - destruct (on_put net url headers body w) as [settled w1].
    specialize (IH settled w1).
    destruct (run net (k settled) w1) as [[c trace] w2]. simpl in *.
    by constructor.
Qed.

(** Executions are determined by the answers. *)
Lemma exec_deterministic {A} (p : Async A) trace c1 c2 :
  exec p trace c1 -> exec p trace c2 -> c1 = c2.
Proof.
  intros H1. revert c2.
  induction H1; intros c2 H2; inversion H2; subst; auto.
Qed.

Section RetryLoop.

Context {T : Type}.
Variable env : Env.
Variable config : Config.
Variable mutator : list JSON.value -> list JSON.value * T.
Variable retries : Z.
Hypothesis Hconfig : getConfig env = inr config.

Lemma exec_attemptOnce attempt continue trace c :
  exec (attemptOnce env mutator retries attempt continue) trace c ->
  exists gs,
    match readContents gs with
    | inl e => trace = [read_event config gs] /\ c = Thrown e
    | inr fetched =>
        match spread (reviews fetched) with
        | inl e => trace = [read_event config gs] /\ c = Thrown e
        | inr snapshot =>
            exists ps rest,
              trace = read_event config gs ::
                      write_event config (fst (mutator snapshot))
                        (reviews_sha fetched) ps :: rest /\
              match readUpdate ps with
              | inr _ => rest = [] /\ c = Returned (snd (mutator snapshot))
              | inl e =>
                  if is_conflict e && (attempt <? retries)
                  then exec (continue e) rest c
                  else rest = [] /\ c = Thrown e
              end
        end
    end.
Proof.
  unfold attemptOnce, fetchReviewsFromGitHub, persistReviewsToGitHub.
  rewrite Hconfig. unfold mbind, Async_bind. cbn [lift bind].
  intros H. apply exec_get_inv in H as (gs & rest & -> & H).
  exists gs. cbn beta in H.
  destruct (readContents gs) as [e|fetched]; cbn [lift bind] in H.
  { apply exec_throw_inv in H as [-> ->]. done. }
  destruct (spread (reviews fetched)) as [e|snapshot]; cbn [lift bind] in H.
  { apply exec_throw_inv in H as [-> ->]. done. }
  destruct (mutator snapshot) as [next result] eqn:Hm.
  cbn [bind try_catch fst snd] in H |- *.
  apply exec_put_inv in H as (ps & rest' & -> & H).
  exists ps, rest'. split; [reflexivity|].
  destruct (readUpdate ps) as [e|version]; cbn [lift bind try_catch] in H.
  - destruct (is_conflict e && (attempt <? retries)); [exact H|].
    by apply exec_throw_inv in H.
  - by apply exec_return_inv in H.
Qed.

Lemma retryLoop_cycles fuel attempt lastError trace c :
  (Z.to_nat (retries - attempt) <= fuel)%nat ->
  attempt < retries ->
  exec (retryLoop env mutator retries fuel attempt lastError) trace c ->
  cycles config mutator retries attempt trace c.
Proof.
  revert attempt lastError trace.
  induction fuel as [|fuel IH]; intros attempt lastError trace Hfuel Hlt H.
  { lia. }
  cbn [retryLoop] in H.
  rewrite (proj2 (Z.ltb_lt attempt retries) Hlt) in H.
  apply exec_attemptOnce in H as [gs H].
  destruct (readContents gs) as [e|fetched] eqn:Hread.
  { destruct H as [-> ->]. by apply cycles_read_fails. }
  destruct (spread (reviews fetched)) as [e|snapshot] eqn:Hspread.
  { destruct H as [-> ->]. by eapply cycles_not_iterable. }
  destruct H as (ps & rest & -> & H).
  destruct (readUpdate ps) as [e|version] eqn:Hupd.
  - destruct (is_conflict e && (attempt + 1 <? retries)) eqn:Hretry.
    + eapply cycles_retry; eauto.
      apply andb_true_iff in Hretry as [_ Hretry].
      apply Z.ltb_lt in Hretry.
      eapply IH; [lia|lia|exact H].
    + destruct H as [-> ->]. by eapply cycles_write_fails.
  - destruct H as [-> ->]. by eapply cycles_written.
Qed.

(** Conversely every sequence of cycles is an execution of the loop,
    whatever fuel beyond [retries - attempt] it is given. *)
Lemma cycles_retryLoop fuel attempt lastError trace c :
  (Z.to_nat (retries - attempt) <= fuel)%nat ->
  attempt < retries ->
  cycles config mutator retries attempt trace c ->
  exec (retryLoop env mutator retries fuel attempt lastError) trace c.
Proof.
  intros Hfuel Hlt H. revert fuel lastError Hfuel Hlt.
  induction H as [attempt gs e Hread
                 |attempt gs fetched e Hread Hspread
                 |attempt gs fetched snapshot ps version Hread Hspread Hupd
                 |attempt gs fetched snapshot ps e Hread Hspread Hupd Hretry
                 |attempt gs fetched snapshot ps e rest c Hread Hspread Hupd
                    Hretry Hrest IH];
    intros fuel lastError Hfuel Hlt;
    (destruct fuel as [|fuel]; [lia|]);
    cbn [retryLoop]; rewrite (proj2 (Z.ltb_lt attempt retries) Hlt);
    unfold attemptOnce, fetchReviewsFromGitHub, persistReviewsToGitHub;
    rewrite Hconfig; unfold mbind, Async_bind; cbn [lift bind];
    apply exec_get; cbn beta; rewrite Hread; cbn [lift bind];
    [apply exec_throw|..];
    rewrite Hspread; cbn [lift bind]; [apply exec_throw|..];
    destruct (mutator snapshot) as [next result]; cbn [bind try_catch fst snd];
    apply exec_put; rewrite Hupd; cbn [lift bind try_catch].
  - apply exec_return.
  - rewrite Hretry. apply exec_throw.
  - rewrite Hretry. apply andb_true_iff in Hretry as [_ Hretry].
    apply Z.ltb_lt in Hretry. apply IH; lia.
Qed.

Lemma mutate_cycles trace c :
  0 < retries ->
  exec (mutateReviewsWithRetry env mutator retries) trace c ->
  cycles config mutator retries 0 trace c.
Proof.
  intros Hpos H. eapply retryLoop_cycles; [|lia|exact H].
  rewrite Z.sub_0_r. reflexivity.
Qed.

Lemma cycles_mutate trace c :
  0 < retries ->
  cycles config mutator retries 0 trace c ->
  exec (mutateReviewsWithRetry env mutator retries) trace c.
Proof.
  intros Hpos H. apply cycles_retryLoop; [|lia|exact H].
  rewrite Z.sub_0_r. reflexivity.
Qed.

End RetryLoop.

(** An execution of [mutateReviewsWithRetry] that sends anything runs
    under a valid configuration with a positive bound. *)
Lemma mutate_exec_cases {T} (env : Env)
    (mutator : list JSON.value -> list JSON.value * T) retries trace c :
  exec (mutateReviewsWithRetry env mutator retries) trace c ->
  trace = [] \/
  exists config,
    getConfig env = inr config /\ 0 < retries /\
    cycles config mutator retries 0 trace c.
Proof.
  intros H.
  destruct (Z_lt_le_dec 0 retries) as [Hpos|Hle].
  - destruct (getConfig env) as [e|config] eqn:Hcfg.
    + left. unfold mutateReviewsWithRetry in H.
      destruct (Z.to_nat retries) as [|n] eqn:E; [lia|].
      rewrite (retryLoop_config_error _ _ _ _ _ _ _ Hcfg Hpos) in H.
      by apply exec_throw_inv in H as [-> _].
    + right. exists config. repeat split; auto.
      by eapply mutate_cycles.
  - left. unfold mutateReviewsWithRetry in H.
    rewrite retryLoop_exhausted in H by exact Hle.
    by apply exec_throw_inv in H as [-> _].
Qed.

Lemma cycles_head {T} config (mutator : list JSON.value -> list JSON.value * T)
    retries attempt trace c :
  cycles config mutator retries attempt trace c ->
  exists gs rest, trace = read_event config gs :: rest.
Proof. destruct 1; eauto. Qed.

Lemma readUpdate_409 ps :
  answered_409 ps = true ->
  readUpdate ps = inl (GitHubConflictError "GitHub file changed during update").
Proof.
  destruct ps as [r|reason]; simpl; [|discriminate].
  intros ->. reflexivity.
Qed.

Lemma readUpdate_conflict ps e :
  readUpdate ps = inl e -> is_conflict e = true -> answered_409 ps = true.
Proof.
  destruct ps as [r|reason]; simpl.
  - destruct (status r =? 409); [done|].
    destruct (negb (ok r)); [by intros [= <-]|].
    destruct (json r); [discriminate|by intros [= <-]].
  - by intros [= <-].
Qed.

Lemma writes_cons_get url headers gs trace :
  writes (Get url headers gs :: trace) = writes trace.
Proof. reflexivity. Qed.

Lemma writes_cons_put url headers body ps trace :
  writes (Put url headers body ps :: trace) = S (writes trace).
Proof. reflexivity. Qed.

(** Every write of the loop follows the read of its own attempt and
    carries what the mutator made of that read; a conflict that leaves an
    attempt is followed by a new read. *)
Lemma cycles_writes {T} config (mutator : list JSON.value -> list JSON.value * T)
    retries attempt trace c :
  cycles config mutator retries attempt trace c ->
  forall before url headers body ps after,
    trace = before ++ Put url headers body ps :: after ->
    exists before' gs fetched snapshot,
      before = before' ++ [read_event config gs] /\
      readContents gs = inr fetched /\
      spread (reviews fetched) = inr snapshot /\
      Put url headers body ps
        = write_event config (fst (mutator snapshot)) (reviews_sha fetched) ps /\
      (answered_409 ps = true ->
       attempt + Z.of_nat (writes before) + 1 < retries ->
       exists gs' after', after = read_event config gs' :: after').
Proof.
  induction 1 as [attempt gs e Hr|attempt gs fetched e Hr Hs
                 |attempt gs fetched snapshot ps0 version Hr Hs Hu
                 |attempt gs fetched snapshot ps0 e Hr Hs Hu Hno
                 |attempt gs fetched snapshot ps0 e rest c Hr Hs Hu Hyes Hrest IH];
    intros before url headers body ps after Htrace;
    unfold read_event, write_event in Htrace.
  - destruct before as [|x [|y before]]; simplify_eq/=.
  - destruct before as [|x [|y before]]; simplify_eq/=.
  - destruct before as [|x [|y [|z before]]]; simplify_eq/=.
    exists [], gs, fetched, snapshot. repeat split; auto.
    intros H409. apply readUpdate_409 in H409. congruence.
  - destruct before as [|x [|y [|z before]]]; simplify_eq/=.
    exists [], gs, fetched, snapshot. repeat split; auto.
    intros H409 Hlt. apply readUpdate_409 in H409.
    rewrite H409 in Hu. injection Hu as <-. simpl in Hno.
    apply Z.ltb_ge in Hno. simpl in Hlt. lia.
  - destruct before as [|x [|y before]]; simplify_eq/=.
    + exists [], gs, fetched, snapshot. repeat split; auto.
      intros _ _. by eapply cycles_head.
    + destruct (IH before url headers body ps after eq_refl)
        as (before' & gs' & fetched' & snapshot' & -> & Hr' & Hs' & Hw & Hnext).
      exists (read_event config gs ::
              write_event config (fst (mutator snapshot)) (reviews_sha fetched) ps0 ::
              before'), gs', fetched', snapshot'.
      repeat split; auto.
      intros H409 Hlt. apply Hnext; [done|].
      simpl in Hlt. lia.
Qed.

(** C1: in every execution of [mutateReviewsWithRetry], every write is
    immediately preceded by the read of the same attempt and sends exactly
    the collection that the mutator returned for the snapshot of that
    read, under the version token of that read; the snapshot holds the
    items of the collection that this read returned, in their order; and
    when the write is answered with a conflict while an attempt remains,
    the next exchange is a new read, so that the mutator of the next
    attempt is applied to the freshly fetched collection and never to the
    earlier snapshot. *)
Theorem retry_transforms_fresh_read {T} (env : Env)
    (mutator : list JSON.value -> list JSON.value * T) (retries : Z)
    (trace : list Event) (c : Completion T) :
  exec (mutateReviewsWithRetry env mutator retries) trace c ->
  forall before url headers body ps after,
    trace = before ++ Put url headers body ps :: after ->
    exists config before' gs fetched snapshot,
      getConfig env = inr config /\
      before = before' ++ [read_event config gs] /\
      readContents gs = inr fetched /\
      spread (reviews fetched) = inr snapshot /\
      (forall items, reviews fetched = JSON.Arr items -> snapshot = items) /\
      Put url headers body ps
        = write_event config (fst (mutator snapshot)) (reviews_sha fetched) ps /\
      (answered_409 ps = true ->
       Z.of_nat (writes before) + 1 < retries ->
       exists gs' after', after = read_event config gs' :: after').
Proof.
  intros Hexec before url headers body ps after Htrace.
  destruct (mutate_exec_cases _ _ _ _ _ Hexec) as [->|(config & Hcfg & Hpos & Hcycles)].
  { by destruct before. }
  destruct (cycles_writes _ _ _ _ _ _ Hcycles _ _ _ _ _ _ Htrace)
    as (before' & gs & fetched & snapshot & Hb & Hr & Hs & Hw & Hnext).
  exists config, before', gs, fetched, snapshot.
  split; [done|]. split; [done|]. split; [done|]. split; [done|].
  split; [|by split].
  intros items Hitems. rewrite Hitems in Hs. cbn [spread] in Hs. congruence.
Qed.

Lemma retry_transforms_fresh_read_witness :
  exists config before' gs fetched snapshot,
    getConfig sample_env = inr config /\
    take 3 (snd (fst contended_once)) = before' ++ [read_event config gs] /\
    readContents gs = inr fetched /\
    spread (reviews fetched) = inr snapshot /\
    (forall items, reviews fetched = JSON.Arr items -> snapshot = items) /\
    Put (contents_url sample_config) (buildHeaders (token sample_config))
      retried_body accepted_answer
    = write_event config (fst (sample_mutator snapshot)) (reviews_sha fetched)
        accepted_answer /\
    (answered_409 accepted_answer = true ->
     Z.of_nat (writes (take 3 (snd (fst contended_once)))) + 1 < 3 ->
     exists gs' after', [] = read_event config gs' :: after').
Proof.
  apply (retry_transforms_fresh_read sample_env sample_mutator 3
           (snd (fst contended_once)) (fst (fst contended_once))
           (run_exec Store.contended
              (mutateReviewsWithRetry sample_env sample_mutator 3)
              (Store.empty, [foreign_document]))
           (take 3 (snd (fst contended_once)))
           (contents_url sample_config) (buildHeaders (token sample_config))
           retried_body accepted_answer []).
  vm_compute. reflexivity.
Defined.

(** The exchanges of that run: the first write carries the new review
    alone and is rejected; the read of the retry returns the review that
    the other client stored in between, and the write of the retry
    carries that review followed by the new one, under the version that
    the retry read. *)
Example contended_once_exchanges :
  let review :=
    newReview "1700000000000abc" "2024-01-01T00:00:00.000Z" sample_request in
  snd (fst contended_once)
  = [read_event sample_config not_found_answer;
     write_event sample_config [review] None conflict_answer;
     read_event sample_config fresh_answer;
     write_event sample_config [foreign_review; review]
       (Some (Store.token_of 1)) accepted_answer] /\
  readContents fresh_answer
  = inr {| reviews := JSON.Arr [foreign_review];
           reviews_sha := Some (Store.token_of 1) |} /\
  fst (fst contended_once) = Returned review.
Proof. vm_compute. repeat split. Qed.

(** ** The bound on attempts *)

Lemma cycles_bounded {T} config (mutator : list JSON.value -> list JSON.value * T)
    retries attempt trace c :
  cycles config mutator retries attempt trace c ->
  attempt < retries ->
  Z.of_nat (reads trace) <= retries - attempt /\
  Z.of_nat (writes trace) <= retries - attempt /\
  (Z.of_nat (writes trace) = retries - attempt ->
   Forall conflicts_only trace ->
   c = Thrown (GitHubConflictError "GitHub file changed during update")).
Proof.
  induction 1 as [attempt gs e Hr|attempt gs fetched e Hr Hs
                 |attempt gs fetched snapshot ps0 version Hr Hs Hu
                 |attempt gs fetched snapshot ps0 e Hr Hs Hu Hno
                 |attempt gs fetched snapshot ps0 e rest c Hr Hs Hu Hyes Hrest IH];
    intros Hlt; unfold read_event, write_event; simpl.
  - repeat split; lia.
  - repeat split; lia.
  - repeat split; try lia.
    intros _ Hall. inversion Hall as [|? ? _ Hall']; subst.
    inversion Hall' as [|? ? H409 _]; subst. simpl in H409.
    apply readUpdate_409 in H409. congruence.
  - repeat split; try lia.
    intros _ Hall. inversion Hall as [|? ? _ Hall']; subst.
    inversion Hall' as [|? ? H409 _]; subst. simpl in H409.
    apply readUpdate_409 in H409. congruence.
  - apply andb_true_iff in Hyes as [_ Hyes]. apply Z.ltb_lt in Hyes.
    destruct (IH Hyes) as (IHr & IHw & IHc).
    repeat split; try lia.
    intros Hk Hall. inversion Hall as [|? ? _ Hall']; subst.
    inversion Hall' as [|? ? _ Hall'']; subst.
    apply IHc; [lia|done].
Qed.

(** C2: for a positive [k], an execution of [mutateReviewsWithRetry] with
    [retries = k] has at most [k] reads and at most [k] writes; and when
    [k] writes were attempted and every one of them was answered with a
    conflict, the call throws the [GitHubConflictError] of the last one. *)
Theorem attempts_bounded_and_last_conflict_surfaces {T} (env : Env)
    (mutator : list JSON.value -> list JSON.value * T) (k : Z)
    (trace : list Event) (c : Completion T) :
  0 < k ->
  exec (mutateReviewsWithRetry env mutator k) trace c ->
  Z.of_nat (reads trace) <= k /\
  Z.of_nat (writes trace) <= k /\
  (Z.of_nat (writes trace) = k ->
   Forall conflicts_only trace ->
   c = Thrown (GitHubConflictError "GitHub file changed during update")).
Proof.
  intros Hpos Hexec.
  destruct (mutate_exec_cases _ _ _ _ _ Hexec) as [->|(config & Hcfg & _ & Hcycles)].
  { simpl. repeat split; lia. }
  destruct (cycles_bounded _ _ _ _ _ _ Hcycles Hpos) as (Hr & Hw & Hc).
  repeat split; try lia. intros Hk. apply Hc. lia.
Qed.

Lemma attempts_bounded_and_last_conflict_surfaces_witness :
  Z.of_nat (reads (snd (fst contended_twice))) <= 2 /\
  Z.of_nat (writes (snd (fst contended_twice))) <= 2 /\
  (Z.of_nat (writes (snd (fst contended_twice))) = 2 ->
   Forall conflicts_only (snd (fst contended_twice)) ->
   fst (fst contended_twice)
   = Thrown (GitHubConflictError "GitHub file changed during update")).
Proof.
  apply (attempts_bounded_and_last_conflict_surfaces sample_env sample_mutator 2
           (snd (fst contended_twice)) (fst (fst contended_twice))).
  - lia.
  - apply run_exec.
Defined.

(** The hypotheses of the last part hold in that run: two writes, both
    answered with a conflict. *)
Lemma contended_twice_all_conflicts :
  Z.of_nat (writes (snd (fst contended_twice))) = 2 /\
  Forall conflicts_only (snd (fst contended_twice)) /\
  fst (fst contended_twice)
  = Thrown (GitHubConflictError "GitHub file changed during update").
Proof.
  split; [reflexivity|]. split; [|reflexivity].
  vm_compute. repeat constructor.
Qed.

(** The loop always completes: for every network there is an outcome. *)
Lemma mutate_total {T W} (net : Network W) (env : Env)
    (mutator : list JSON.value -> list JSON.value * T) (k : Z) (w : W) :
  exists c trace w',
    run net (mutateReviewsWithRetry env mutator k) w = (c, trace, w') /\
    exec (mutateReviewsWithRetry env mutator k) trace c.
Proof.
  pose proof (run_exec net (mutateReviewsWithRetry env mutator k) w) as H.
  destruct (run net (mutateReviewsWithRetry env mutator k) w) as [[c trace] w'].
  exists c, trace, w'. split; [reflexivity|exact H].
Qed.

(** ** Which write failures are retried *)

Lemma exec_persist (env : Env) config reviews sha trace c :
  getConfig env = inr config ->
  exec (persistReviewsToGitHub env reviews sha) trace c ->
  exists ps,
    trace = [write_event config reviews sha ps] /\
    c = match readUpdate ps with
        | inl e => Thrown e
        | inr version => Returned version
        end.
Proof.
  intros Hcfg. unfold persistReviewsToGitHub. rewrite Hcfg.
  unfold mbind, Async_bind. cbn [lift bind].
  intros H. apply exec_put_inv in H as (ps & rest & -> & H).
  exists ps. destruct (readUpdate ps); cbn [lift] in H.
  - by apply exec_throw_inv in H as [-> ->].
  - by apply exec_return_inv in H as [-> ->].
Qed.

Lemma persist_exec (env : Env) config reviews sha ps :
  getConfig env = inr config ->
  exec (persistReviewsToGitHub env reviews sha)
    [write_event config reviews sha ps]
    match readUpdate ps with
    | inl e => Thrown e
    | inr version => Returned version
    end.
Proof.
  intros Hcfg. unfold persistReviewsToGitHub, write_event. rewrite Hcfg.
  unfold mbind, Async_bind. cbn [lift bind]. apply exec_put.
  destruct (readUpdate ps); constructor.
Qed.

Lemma readUpdate_ok (response : Response GitHubUpdateResponse) payload :
  ok response = true ->
  json response = Some payload ->
  readUpdate (Fulfilled response)
  = inr (Js.nullish
           (match upd_content payload with
            | Some c => ref_sha c
            | None => None
            end)
           (match upd_commit payload with
            | Some c => ref_sha c
            | None => None
            end)).
Proof.
  intros Hok Hjson. unfold readUpdate. rewrite Hok, Hjson.
  destruct (status response =? 409) eqn:E; [|reflexivity].
  apply Z.eqb_eq in E. unfold ok in Hok. rewrite E in Hok. discriminate.
Qed.

Lemma readUpdate_not_ok (response : Response GitHubUpdateResponse) :
  status response <> 409 ->
  ok response = false ->
  readUpdate (Fulfilled response)
  = inl (Error ("Failed to persist reviews to GitHub: " +:+
                pretty (status response) +:+ " " +:+ text response)).
Proof.
  intros Hs Hok. simpl.
  destruct (Z.eqb_spec (status response) 409); [done|].
  by rewrite Hok.
Qed.

Lemma cycles_other_failure_ends {T} config
    (mutator : list JSON.value -> list JSON.value * T) retries attempt trace c :
  cycles config mutator retries attempt trace c ->
  forall before url headers body ps after e,
    trace = before ++ Put url headers body ps :: after ->
    readUpdate ps = inl e ->
    is_conflict e = false ->
    after = [] /\ c = Thrown e.
Proof.
  induction 1 as [attempt gs e0 Hr|attempt gs fetched e0 Hr Hs
                 |attempt gs fetched snapshot ps0 version Hr Hs Hu
                 |attempt gs fetched snapshot ps0 e0 Hr Hs Hu Hno
                 |attempt gs fetched snapshot ps0 e0 rest c Hr Hs Hu Hyes Hrest IH];
    intros before url headers body ps after e Htrace Hfail Hother;
    unfold read_event, write_event in Htrace.
  - destruct before as [|x [|y before]]; simplify_eq/=.
  - destruct before as [|x [|y before]]; simplify_eq/=.
  - destruct before as [|x [|y [|z before]]]; simplify_eq/=. congruence.
  - destruct before as [|x [|y [|z before]]]; simplify_eq/=.
    split; congruence.
  - destruct before as [|x [|y before]]; simplify_eq/=.
    + assert (e0 = e) as -> by congruence.
      rewrite Hother in Hyes. discriminate.
    + eapply IH; eauto.
Qed.

(** C4: [persistReviewsToGitHub] throws a [GitHubConflictError] exactly
    when its request was answered with status 409; any other answer that
    is not a success makes it throw a plain [Error], which is not a
    conflict; and in [mutateReviewsWithRetry] a write that fails with
    anything but a conflict ends the call with that error, with no
    exchange after it. *)
Theorem only_conflicts_are_retried {T} (env : Env)
    (mutator : list JSON.value -> list JSON.value * T) (retries : Z)
    (reviews : list JSON.value) (sha : option string) :
  (forall trace c,
     exec (persistReviewsToGitHub env reviews sha) trace c ->
     ((exists e, c = Thrown e /\ is_conflict e = true) <->
      (exists url headers body response,
         trace = [Put url headers body (Fulfilled response)] /\
         status response = 409)) /\
     (forall url headers body response,
        trace = [Put url headers body (Fulfilled response)] ->
        status response <> 409 ->
        ok response = false ->
        exists msg, c = Thrown (Error msg) /\ is_store_error (Error msg) = true)) /\
  (forall trace c,
     exec (mutateReviewsWithRetry env mutator retries) trace c ->
     forall before url headers body ps after e,
       trace = before ++ Put url headers body ps :: after ->
       readUpdate ps = inl e ->
       is_conflict e = false ->
       after = [] /\ c = Thrown e).
Proof.
  split.
  - intros trace c Hexec.
    destruct (getConfig env) as [e0|config] eqn:Hcfg.
    { rewrite (persist_config_error _ _ _ _ Hcfg) in Hexec.
      apply exec_throw_inv in Hexec as [-> ->].
      pose proof (getConfig_error _ _ Hcfg) as Hce.
      split; [split|].
      - intros (e & [= <-] & Hc). by destruct e0.
      - intros (? & ? & ? & ? & [=] & _).
      - intros ? ? ? ? [=]. }
    destruct (exec_persist _ _ _ _ _ _ Hcfg Hexec) as (ps & -> & ->).
    unfold write_event. split; [split|].
    + intros (e & Hc & Hconf).
      destruct (readUpdate ps) as [e'|] eqn:Hu; [|discriminate].
      injection Hc as ->.
      pose proof (readUpdate_conflict _ _ Hu Hconf) as H409.
      destruct ps as [response|]; [|discriminate].
      simpl in H409. apply Z.eqb_eq in H409. eauto 10.
    + intros (url & headers & body & response & [= <- <- <- ->] & H409).
      exists (GitHubConflictError "GitHub file changed during update").
      rewrite readUpdate_409; [done|]. simpl. by apply Z.eqb_eq.
    + intros url headers body response [= <- <- <- ->] Hs Hok.
      rewrite (readUpdate_not_ok _ Hs Hok). eauto.
  - intros trace c Hexec before url headers body ps after e Htrace Hfail Hother.
    destruct (mutate_exec_cases _ _ _ _ _ Hexec) as [->|(config & Hcfg & _ & Hcycles)].
    { by destruct before. }
    eapply cycles_other_failure_ends; eauto.
Qed.

Lemma only_conflicts_are_retried_witness :
  drop 2 (snd (fst failing_write)) = [] /\
  fst (fst failing_write)
  = Thrown (Error "Failed to persist reviews to GitHub: 500 Server Error").
Proof.
  apply (proj2 (only_conflicts_are_retried sample_env sample_mutator 3 [] None)
           (snd (fst failing_write)) (fst (fst failing_write))
           (run_exec failing_store
              (mutateReviewsWithRetry sample_env sample_mutator 3) tt)
           [read_event sample_config not_found_answer]
           (contents_url sample_config) (buildHeaders (token sample_config))
           (putBody sample_config (fst (sample_mutator [])) None)
           server_error_answer
           (drop 2 (snd (fst failing_write)))
           (Error "Failed to persist reviews to GitHub: 500 Server Error")).
  - vm_compute. reflexivity.
  - reflexivity.
  - reflexivity.
Defined.

(** ** Reading and first writing of a document that does not exist *)

Lemma exec_fetch (env : Env) config trace c :
  getConfig env = inr config ->
  exec (fetchReviewsFromGitHub env) trace c <->
  exists gs,
    trace = [read_event config gs] /\
    c = match readContents gs with
        | inl e => Thrown e
        | inr fetched => Returned fetched
        end.
Proof.
  intros Hcfg. unfold fetchReviewsFromGitHub. rewrite Hcfg.
  unfold mbind, Async_bind. cbn [lift bind]. split.
  - intros H. apply exec_get_inv in H as (gs & rest & -> & H).
    exists gs. destruct (readContents gs); cbn [lift] in H.
    + by apply exec_throw_inv in H as [-> ->].
    + by apply exec_return_inv in H as [-> ->].
  - intros (gs & -> & ->). unfold read_event. apply exec_get.
    destruct (readContents gs); constructor.
Qed.

(** C5: under a valid configuration, a read that is answered "not found"
    (status 404) returns the empty collection and no version token; it is
    an ordinary return, not an error.  The write with no version token
    that follows sends a body without a [sha] field, and returns the
    version of the answer whenever the store answers with success.
    Against a store without a document the read is answered "not found"
    and leaves the store as it is, and the write is accepted: it returns
    the new token and the store then holds the written document. *)
Theorem missing_document_baseline (env : Env) (config : Config)
    (reviews : list JSON.value) :
  getConfig env = inr config ->
  (forall response,
     status response = 404 ->
     exec (fetchReviewsFromGitHub env) [read_event config (Fulfilled response)]
       (Returned {| reviews := JSON.Arr []; reviews_sha := None |})) /\
  body_sha (putBody config reviews None) = None /\
  (forall response payload,
     ok response = true ->
     json response = Some payload ->
     exists version,
       readUpdate (Fulfilled response) = inr version /\
       exec (persistReviewsToGitHub env reviews None)
         [write_event config reviews None (Fulfilled response)]
         (Returned version)) /\
  (exists trace,
     run Store.network (fetchReviewsFromGitHub env) Store.empty
     = (Returned {| reviews := JSON.Arr []; reviews_sha := None |},
        trace, Store.empty)) /\
  (exists version trace,
     run Store.network (persistReviewsToGitHub env reviews None) Store.empty
     = (Returned (Some version), trace,
        {| Store.file :=
             Some (Buffer.encode_base64 (JSON.stringify (JSON.Arr reviews)),
                   version);
           Store.accepted := 1 |})).
Proof.
  intros Hcfg. split; [|split; [|split; [|split]]].
  - intros response H404. apply (exec_fetch _ _ _ _ Hcfg).
    exists (Fulfilled response). split; [reflexivity|].
    simpl. by rewrite H404.
  - reflexivity.
  - intros response payload Hok Hjson.
    pose proof (persist_exec env config reviews None (Fulfilled response) Hcfg)
      as Hexec.
    rewrite (readUpdate_ok response payload Hok Hjson) in Hexec |- *.
    eexists. split; [reflexivity|exact Hexec].
  - unfold fetchReviewsFromGitHub. rewrite Hcfg. eexists. reflexivity.
  - unfold persistReviewsToGitHub. rewrite Hcfg.
    exists (Store.token_of 1). eexists. reflexivity.
Qed.

Lemma missing_document_baseline_witness :
  exists config,
    getConfig sample_env = inr config /\
    (forall response,
       status response = 404 ->
       exec (fetchReviewsFromGitHub sample_env)
         [read_event config (Fulfilled response)]
         (Returned {| reviews := JSON.Arr []; reviews_sha := None |})) /\
    body_sha (putBody config [] None) = None /\
    (forall response payload,
       ok response = true ->
       json response = Some payload ->
       exists version,
         readUpdate (Fulfilled response) = inr version /\
         exec (persistReviewsToGitHub sample_env [] None)
           [write_event config [] None (Fulfilled response)]
           (Returned version)) /\
    (exists trace,
       run Store.network (fetchReviewsFromGitHub sample_env) Store.empty
       = (Returned {| reviews := JSON.Arr []; reviews_sha := None |},
          trace, Store.empty)) /\
    (exists version trace,
       run Store.network (persistReviewsToGitHub sample_env [] None) Store.empty
       = (Returned (Some version), trace,
          {| Store.file :=
               Some (Buffer.encode_base64 (JSON.stringify (JSON.Arr [])),
                     version);
             Store.accepted := 1 |})).
Proof.
  eexists. split; [reflexivity|].
  apply (missing_document_baseline sample_env _ []). reflexivity.
Defined.

(** ** What a read accepts as a document *)

(** C7, as stated, fails: a successful response whose document decodes to
    the JSON text of an empty object, which is not a serialized collection,
    makes [fetchReviewsFromGitHub] return that object as the collection. *)
Lemma fetch_returns_non_collection_counterexample :
  ok object_response = true /\
  (exists payload,
     json object_response = Some payload /\
     decoded payload = inr "{}" /\
     is_collection_text "{}" = false) /\
  readContents (Fulfilled object_response)
  = inr {| reviews := JSON.Obj []; reviews_sha := Some "3f2a" |} /\
  (exists config,
     getConfig sample_env = inr config /\
     exec (fetchReviewsFromGitHub sample_env)
       [read_event config (Fulfilled object_response)]
       (Returned {| reviews := JSON.Obj []; reviews_sha := Some "3f2a" |})).
Proof.
  split; [reflexivity|]. split.
  { eexists. split; [reflexivity|]. split; reflexivity. }
  split; [reflexivity|].
  eexists. split; [reflexivity|].
  eapply exec_fetch; [reflexivity|].
  exists (Fulfilled object_response). split; reflexivity.
Qed.

Lemma from_error value encoding error :
  Buffer.from value encoding = inl error ->
  exists message, error = TypeError message.
Proof.
  destruct value as [text|]; [destruct encoding|]; cbn [Buffer.from];
    intros [= <-]; by eexists.
Qed.

Lemma readContents_success (response : Response GitHubContentResponse)
    (payload : GitHubContentResponse) :
  status response <> 404 ->
  ok response = true ->
  json response = Some payload ->
  readContents (Fulfilled response)
  = match decoded payload with
    | inl error => inl error
    | inr raw =>
        if Js.truthy_string raw then
          match JSON.parse raw with
          | Some parsed =>
              inr {| reviews := parsed; reviews_sha := Some (sha payload) |}
          | None =>
              inl (Error
                     ("reviews.json in GitHub repository contains invalid JSON: "
                      +:+ syntax_error_message))
          end
        else
          inr {| reviews := JSON.Arr []; reviews_sha := Some (sha payload) |}
    end.
Proof.
  intros H404 Hok Hjson. unfold readContents, decoded.
  destruct (Z.eqb_spec (status response) 404); [done|].
  rewrite Hok, Hjson. cbn [negb].
  destruct (Buffer.from _ _) as [error|buffer]; [done|].
  cbv zeta. by destruct (Js.truthy_string _).
Qed.

(** C7, amended: on a successful response, a document that is not empty
    after trimming and is not JSON text makes [fetchReviewsFromGitHub]
    throw a plain [Error] (neither a conflict nor a configuration error)
    that reports invalid JSON, and a payload that [Buffer.from] refuses
    makes it throw that [TypeError]; a document that is empty after
    trimming gives the empty collection; and a document that is JSON text
    is never rejected, whatever it denotes: the read returns the value
    that [JSON.parse] gives, which is not a list when the text is not
    that of a JSON array. *)
Theorem fetch_rejects_only_invalid_json
    (response : Response GitHubContentResponse)
    (payload : GitHubContentResponse) :
  status response <> 404 ->
  ok response = true ->
  json response = Some payload ->
  (forall error,
     decoded payload = inl error ->
     readContents (Fulfilled response) = inl error /\
     is_store_error error = true) /\
  (forall raw,
     decoded payload = inr raw ->
     (raw = "" ->
      readContents (Fulfilled response)
      = inr {| reviews := JSON.Arr []; reviews_sha := Some (sha payload) |}) /\
     (raw <> "" ->
      JSON.parse raw = None ->
      exists detail,
        readContents (Fulfilled response)
        = inl (Error ("reviews.json in GitHub repository contains invalid JSON: "
                      +:+ detail)) /\
        is_store_error
          (Error ("reviews.json in GitHub repository contains invalid JSON: "
                  +:+ detail)) = true) /\
     (raw <> "" ->
      forall parsed,
        JSON.parse raw = Some parsed ->
        readContents (Fulfilled response)
        = inr {| reviews := parsed; reviews_sha := Some (sha payload) |} /\
        (is_collection_text raw = false ->
         forall items, parsed <> JSON.Arr items))).
Proof.
  intros H404 Hok Hjson.
  rewrite (readContents_success response payload H404 Hok Hjson).
  split.
  - intros error Hdecoded. rewrite Hdecoded. split; [done|].
    unfold decoded in Hdecoded.
    destruct (Buffer.from _ _) as [refused|buffer] eqn:Hfrom; [|done].
    destruct (from_error _ _ _ Hfrom) as [message ->].
    by injection Hdecoded as <-.
  - intros raw ->. destruct raw as [|ch rest]; cbn [Js.truthy_string].
    + split; [done|]. split; [done|]. done.
    + split; [discriminate|]. split.
      * intros _ ->. by exists syntax_error_message.
      * intros _ parsed Hparsed. rewrite Hparsed.
        split; [done|]. unfold is_collection_text. rewrite Hparsed.
        intros Hshape items ->. discriminate.
Qed.

Lemma fetch_rejects_only_invalid_json_witness :
  exists detail,
    readContents (Fulfilled garbled_response)
    = inl (Error ("reviews.json in GitHub repository contains invalid JSON: "
                  +:+ detail)) /\
    is_store_error
      (Error ("reviews.json in GitHub repository contains invalid JSON: "
              +:+ detail)) = true.
Proof.
  refine (proj1 (proj2 (proj2 (fetch_rejects_only_invalid_json garbled_response
                                 {| content := Some "bm90IGpzb24=";
                                    encoding := Some Buffer.base64;
                                    sha := "3f2a" |} _ _ _)
                          "not json" _)) _ _).
  - vm_compute. discriminate.
  - reflexivity.
  - reflexivity.
  - reflexivity.
  - discriminate.
  - vm_compute. reflexivity.
Defined.

(** Two documents with white space that is not of the ASCII range: a
    byte order mark before the text of an array, which is read as that
    array, and a lone no-break space, which is read as the empty
    collection; and two payloads that [Buffer.from] refuses: one with the
    encoding [none] and one without content. *)
Example fetch_reads_past_unicode_white_space :
  readContents (Fulfilled marked_response)
  = inr {| reviews := JSON.Arr [JSON.int 1]; reviews_sha := Some "3f2a" |} /\
  readContents (Fulfilled padded_response)
  = inr {| reviews := JSON.Arr []; reviews_sha := Some "3f2a" |} /\
  readContents (Fulfilled large_file_response)
  = inl (TypeError "Unknown encoding: none") /\
  readContents (Fulfilled listing_response)
  = inl (TypeError Buffer.not_a_string).
Proof. vm_compute. repeat split. Qed.

(* ================================================================== *)
(** * The document codec reads back what it wrote *)
(* ================================================================== *)

(** ** Base64 *)

Lemma code_range (c : ascii) : 0 <= Buffer.code c < 256.
Proof.
  unfold Buffer.code. pose proof (N_ascii_bounded c). lia.
Qed.

Lemma char_of_code (c : ascii) : Buffer.char_of (Buffer.code c) = c.
Proof.
  unfold Buffer.char_of, Buffer.code. rewrite N2Z.id. apply ascii_N_embedding.
Qed.

Lemma code_char_of (n : Z) : 0 <= n < 256 -> Buffer.code (Buffer.char_of n) = n.
Proof.
  intros H. unfold Buffer.char_of, Buffer.code.
  rewrite N_ascii_embedding by lia. lia.
Qed.

Lemma base64_char_code (v : Z) :
  0 <= v < 64 ->
  Buffer.code (Buffer.base64_char v)
  = if v <? 26 then 65 + v
    else if v <? 52 then 71 + v
    else if v <? 62 then v - 4
    else if v =? 62 then 43 else 47.
Proof.
  intros H. unfold Buffer.base64_char.
  repeat case_match; try reflexivity; apply code_char_of; lia.
Qed.

Lemma unbase64_base64_char (v : Z) :
  0 <= v < 64 -> Buffer.unbase64 (Buffer.base64_char v) = Some v.
Proof.
  intros H. unfold Buffer.unbase64. rewrite (base64_char_code v H).
  repeat case_match; try (f_equal; lia); lia.
Qed.

Lemma base64_char_not_pad (v : Z) :
  0 <= v < 64 -> Ascii.eqb (Buffer.base64_char v) "=" = false.
Proof.
  intros H. apply Ascii.eqb_neq. intros Heq.
  pose proof (base64_char_code v H) as Hc. rewrite Heq in Hc.
  change (Buffer.code "=") with 61 in Hc.
  repeat case_match; lia.
Qed.

Lemma sextets_cons (v : Z) (s : string) :
  0 <= v < 64 ->
  Buffer.sextets (String (Buffer.base64_char v) s) = v :: Buffer.sextets s.
Proof.
  intros H. cbn [Buffer.sextets].
  by rewrite (base64_char_not_pad v H), (unbase64_base64_char v H).
Qed.

Lemma char_of_eq (n : Z) (c : ascii) :
  n = Buffer.code c -> Buffer.char_of n = c.
Proof. intros ->. apply char_of_code. Qed.

Lemma decode_encode_base64_upto (n : nat) (s : string) :
  (String.length s <= n)%nat ->
  Buffer.decode_base64 (Buffer.encode_base64 s) = s.
Proof.
  revert s. induction n as [n IH] using lt_wf_ind.
  intros s Hlen.
  destruct s as [|a [|b [|c rest]]].
  - reflexivity.
  - unfold Buffer.decode_base64. cbn [Buffer.encode_base64].
    rewrite !sextets_cons by sextet_bounds.
    change (Buffer.sextets "==") with (@nil Z).
    cbn [Buffer.bytes_of_sextets].
    f_equal. apply char_of_eq. sextet_bounds.
  - unfold Buffer.decode_base64. cbn [Buffer.encode_base64].
    rewrite !sextets_cons by sextet_bounds.
    change (Buffer.sextets "=") with (@nil Z).
    cbn [Buffer.bytes_of_sextets].
    f_equal; [|f_equal]; apply char_of_eq; sextet_bounds.
  - unfold Buffer.decode_base64. cbn [Buffer.encode_base64].
    rewrite !sextets_cons by sextet_bounds.
    cbn [Buffer.bytes_of_sextets].
    fold (Buffer.decode_base64 (Buffer.encode_base64 rest)).
    rewrite (IH (String.length rest)); [|simpl in Hlen; lia|lia].
    f_equal; [|f_equal; [|f_equal]]; apply char_of_eq; sextet_bounds.
Qed.

Lemma decode_encode_base64 (s : string) :
  Buffer.decode_base64 (Buffer.encode_base64 s) = s.
Proof. by apply (decode_encode_base64_upto (String.length s)). Qed.

(** A text of the ASCII range is the sequence of its own code units. *)
Lemma low_bytes_ascii (s : string) : ascii_text s -> Buffer.low_bytes s = s.
Proof.
  unfold Buffer.low_bytes.
  induction s as [|c s IH]; [done|]. intros [Hc Hs].
  cbn [Buffer.code_units]. replace (Buffer.code c <? 192) with true by lia.
  cbn [Buffer.bytes_of]. rewrite (IH Hs). f_equal.
  pose proof (code_range c). rewrite Z.mod_small by lia. apply char_of_code.
Qed.

Lemma base64_char_ascii (v : Z) :
  0 <= v < 64 -> Buffer.code (Buffer.base64_char v) < 128.
Proof. intros H. rewrite (base64_char_code v H). repeat case_match; lia. Qed.

Lemma encode_base64_ascii_upto (n : nat) (s : string) :
  (String.length s <= n)%nat -> ascii_text (Buffer.encode_base64 s).
Proof.
  revert s. induction n as [n IH] using lt_wf_ind.
  intros s Hlen.
  destruct s as [|a [|b [|c rest]]]; cbn [Buffer.encode_base64 ascii_text].
  - done.
  - repeat split; try (apply base64_char_ascii; sextet_bounds); done.
  - repeat split; try (apply base64_char_ascii; sextet_bounds); done.
  - repeat split; try (apply base64_char_ascii; sextet_bounds).
    apply (IH (String.length rest)); [simpl in Hlen; lia|lia].
Qed.

Lemma from_encode_base64 (s : string) :
  Buffer.from (Some (Buffer.encode_base64 s)) Buffer.base64 = inr s.
Proof.
  cbn [Buffer.from].
  rewrite low_bytes_ascii
    by apply (encode_base64_ascii_upto (String.length s)), le_n.
  by rewrite decode_encode_base64.
Qed.

(** ** Strings *)

Lemma append_nil_l (s : string) : "" +:+ s = s.
Proof. reflexivity. Qed.

Lemma append_cons (c : ascii) (s t : string) :
  String c s +:+ t = String c (s +:+ t).
Proof. reflexivity. Qed.

Lemma append_nil_r (s : string) : s +:+ "" = s.
Proof. induction s as [|c s IH]; [reflexivity|]. by rewrite append_cons, IH. Qed.

Lemma append_assoc (s t u : string) : (s +:+ t) +:+ u = s +:+ (t +:+ u).
Proof.
  induction s as [|c s IH]; [reflexivity|]. by rewrite !append_cons, IH.
Qed.

Lemma rev_app_rev_app (s t u : string) :
  String.rev_app (String.rev_app s t) u = String.rev_app t (s +:+ u).
Proof.
  revert t. induction s as [|c s IH]; intros t; [reflexivity|].
  cbn [String.rev_app]. by rewrite IH.
Qed.

Lemma rev_rev_app (s acc : string) :
  String.rev (String.rev_app s acc) = String.rev_app acc s.
Proof. unfold String.rev. by rewrite rev_app_rev_app, append_nil_r. Qed.

Lemma string_rev_involutive (s : string) : String.rev (String.rev s) = s.
Proof. unfold String.rev at 2. by rewrite rev_rev_app. Qed.

Lemma rev_app_append (s t : string) :
  String.rev_app s t = String.rev s +:+ t.
Proof.
  unfold String.rev. revert t. induction s as [|c s IH]; intros t; [reflexivity|].
  cbn [String.rev_app]. rewrite (IH (String c t)), (IH (String c "")).
  by rewrite append_assoc.
Qed.

Lemma rev_append_char (s : string) (c : ascii) :
  String.rev (s +:+ String c "") = String c (String.rev s).
Proof.
  rewrite <- (string_rev_involutive s) at 1.
  rewrite <- rev_app_append.
  change (String.rev_app (String.rev s) (String c ""))
    with (String.rev (String c (String.rev s))).
  apply string_rev_involutive.
Qed.

(** No white space code point has a byte of the ASCII range other than
    the six that are white space themselves. *)
Lemma strip_ascii (backwards : bool) (c : ascii) (rest : string) :
  Js.isWhiteSpace c = false ->
  Js.byte c < 128 ->
  Js.strip backwards (String c rest) = String c rest.
Proof.
  intros Hc Hlow. cbn [Js.strip]. rewrite Hc.
  assert (H2 : forall b, Js.isWhiteSpace2 c b = false
                         /\ Js.isWhiteSpace2 b c = false).
  { intros b. unfold Js.isWhiteSpace2. split.
    - replace (Js.byte c =? 194) with false by lia. done.
    - replace (Js.byte c =? 160) with false by lia. apply andb_false_r. }
  assert (H3 : forall a b, Js.isWhiteSpace3 c a b = false
                           /\ Js.isWhiteSpace3 b a c = false).
  { intros a b. unfold Js.isWhiteSpace3. cbv zeta. split.
    - replace (Js.byte c =? 225) with false by lia.
      replace (Js.byte c =? 226) with false by lia.
      replace (Js.byte c =? 227) with false by lia.
      replace (Js.byte c =? 239) with false by lia. done.
    - replace (Js.byte c =? 128) with false by lia.
      replace (128 <=? Js.byte c) with false by lia.
      replace (Js.byte c =? 168) with false by lia.
      replace (Js.byte c =? 169) with false by lia.
      replace (Js.byte c =? 175) with false by lia.
      replace (Js.byte c =? 159) with false by lia.
      replace (Js.byte c =? 191) with false by lia.
      cbn [andb orb]. by rewrite !andb_false_r. }
  destruct rest as [|b rest]; [done|].
  destruct (H2 b) as [-> ->]. rewrite Tauto.if_same.
  destruct rest as [|a rest]; [done|].
  destruct (H3 b a) as [-> ->]. by rewrite Tauto.if_same.
Qed.

(** Text that starts and ends with a character of the ASCII range that
    is not white space is trimmed to itself. *)
Lemma trim_bracketed (first last : ascii) (body : string) :
  Js.isWhiteSpace first = false ->
  Js.byte first < 128 ->
  Js.isWhiteSpace last = false ->
  Js.byte last < 128 ->
  Js.trim (String first (body +:+ String last ""))
  = String first (body +:+ String last "").
Proof.
  intros Hf Hf' Hl Hl'. unfold Js.trim, Js.trimStart.
  rewrite strip_ascii by done.
  unfold Js.trimEnd.
  change (String first (body +:+ String last ""))
    with (String first body +:+ String last "").
  rewrite rev_append_char. rewrite strip_ascii by done.
  rewrite <- rev_append_char. apply string_rev_involutive.
Qed.

(** ** Lexing what was printed *)

Lemma blank_append (s t : string) : blank s -> blank t -> blank (s +:+ t).
Proof.
  induction s as [|c s IH]; [done|]. intros [-> Hs] Ht.
  rewrite append_cons. split; auto.
Qed.

Lemma lex_blank (ws : string) out rest :
  blank ws ->
  JSON.lex_from JSON.LStart out (ws +:+ rest)
  = JSON.lex_from JSON.LStart out rest.
Proof.
  induction ws as [|c ws IH]; [done|]. intros [-> Hws].
  rewrite append_cons. cbn. by apply IH.
Qed.

Lemma lex_newline_blank (ws : string) out rest :
  blank ws ->
  JSON.lex_from JSON.LStart out (String JSON.newline (ws +:+ rest))
  = JSON.lex_from JSON.LStart out rest.
Proof. intros Hws. cbn. by apply lex_blank. Qed.

Lemma lex_from_append st out (s rest : string) :
  JSON.lex_from st out (s +:+ rest)
  = match lex_prefix st out s with
    | Some (st', out') => JSON.lex_from st' out' rest
    | None => None
    end.
Proof.
  revert st out. induction s as [|c s IH]; intros st out; [done|].
  rewrite append_cons. cbn [JSON.lex_from lex_prefix].
  destruct (JSON.lex_step st c out) as [[st' out']|]; [apply IH|done].
Qed.

Lemma lex_prefix_escape_char (c : ascii) acc out :
  lex_prefix (JSON.LString acc) out (JSON.escape_char c)
  = Some (JSON.LString (String c acc), out).
Proof.
  destruct c as [[] [] [] [] [] [] [] []]; vm_compute; reflexivity.
Qed.

Lemma lex_escape_char (c : ascii) acc out rest :
  JSON.lex_from (JSON.LString acc) out (JSON.escape_char c +:+ rest)
  = JSON.lex_from (JSON.LString (String c acc)) out rest.
Proof. by rewrite lex_from_append, lex_prefix_escape_char. Qed.

Lemma lex_string_body (s : string) acc out rest :
  JSON.lex_from (JSON.LString acc) out
    (JSON.escape s +:+ String JSON.quote_char rest)
  = JSON.lex_from JSON.LStart (JSON.TString (String.rev_app acc s) :: out) rest.
Proof.
  revert acc. induction s as [|c s IH]; intros acc.
  - rewrite append_nil_l. cbn [JSON.escape JSON.lex_from JSON.lex_step].
    change (Ascii.eqb JSON.quote_char JSON.quote_char) with true.
    reflexivity.
  - cbn [JSON.escape]. rewrite append_assoc, lex_escape_char, IH. reflexivity.
Qed.

Lemma lex_quote (s : string) out rest :
  JSON.lex_from JSON.LStart out (JSON.quote s +:+ rest)
  = JSON.lex_from JSON.LStart (JSON.TString s :: out) rest.
Proof.
  unfold JSON.quote. rewrite append_cons, append_assoc, append_cons, append_nil_l.
  cbn [JSON.lex_from]. change (JSON.lex_step JSON.LStart JSON.quote_char out)
    with (Some (JSON.LString "", out)).
  cbn iota. apply lex_string_body.
Qed.

(** *** Numbers *)

Lemma pretty_N_go_append (x : N) (s : string) :
  pretty_N_go x s = pretty_N_go x "" +:+ s.
Proof.
  revert s. induction (N.lt_wf_0 x) as [x _ IH]; intros s.
  destruct (N.eq_dec x 0%N) as [->|Hx]; [done|].
  assert (Hlt : (x `div` 10 < x)%N) by (apply N.div_lt; lia).
  rewrite !(pretty_N_go_step x) by lia.
  rewrite (IH _ Hlt (String (pretty_N_char (x `mod` 10)) s)).
  rewrite (IH _ Hlt (String (pretty_N_char (x `mod` 10)) "")).
  by rewrite append_assoc.
Qed.

Lemma digits_snoc (x : N) :
  (0 < x)%N ->
  pretty_N_go x ""
  = pretty_N_go (x `div` 10) "" +:+ String (pretty_N_char (x `mod` 10)) "".
Proof.
  intros Hx. rewrite pretty_N_go_step by done. apply pretty_N_go_append.
Qed.

Lemma small_digit (d : N) :
  (d < 10)%N ->
  (d = 0 \/ d = 1 \/ d = 2 \/ d = 3 \/ d = 4 \/ d = 5 \/ d = 6 \/ d = 7 \/
   d = 8 \/ d = 9)%N.
Proof. lia. Qed.

Lemma digit_below_pretty_char (d : N) :
  (d < 10)%N -> Js.digit_below 10 (pretty_N_char d) = Some (Z.of_N d).
Proof.
  intros H. destruct (small_digit d H) as [->|[->|[->|[->|[->|[->|[->|[->|[->| ->]]]]]]]]];
    reflexivity.
Qed.

Lemma is_number_char_pretty_char (d : N) :
  (d < 10)%N -> JSON.is_number_char (pretty_N_char d) = true.
Proof.
  intros H. destruct (small_digit d H) as [->|[->|[->|[->|[->|[->|[->|[->|[->| ->]]]]]]]]];
    reflexivity.
Qed.

Lemma read_digits_pretty (x : N) :
  exists k : nat,
    ((0 < x)%N -> (0 < k)%nat) /\
    forall count rest,
      Js.read_digits 10 0 count (pretty_N_go x "" +:+ rest)
      = Js.read_digits 10 (Z.of_N x) (k + count) rest.
Proof.
  induction (N.lt_wf_0 x) as [x _ IH].
  destruct (N.eq_dec x 0%N) as [->|Hx].
  { exists O. split; [lia|]. intros count rest. reflexivity. }
  destruct (IH (x `div` 10)%N) as (k & _ & Hk); [apply N.div_lt; lia|].
  exists (S k). split; [lia|]. intros count rest.
  rewrite digits_snoc by lia. rewrite append_assoc, Hk, append_cons, append_nil_l.
  cbn [Js.read_digits].
  rewrite digit_below_pretty_char by (apply N.mod_lt; lia).
  replace (Z.of_N (x `div` 10) * 10 + Z.of_N (x `mod` 10)) with (Z.of_N x).
  - f_equal.
  - rewrite (N.div_mod x 10) at 1 by lia. lia.
Qed.

Lemma number_chars_append (s t : string) :
  number_chars s -> number_chars t -> number_chars (s +:+ t).
Proof.
  induction s as [|c s IH]; [done|]. intros [Hc Hs] Ht.
  rewrite append_cons. split; auto.
Qed.

Lemma number_chars_digits (x : N) : number_chars (pretty_N_go x "").
Proof.
  induction (N.lt_wf_0 x) as [x _ IH].
  destruct (N.eq_dec x 0%N) as [->|Hx]; [done|].
  rewrite digits_snoc by lia. apply number_chars_append.
  - apply IH, N.div_lt; lia.
  - split; [|done]. apply is_number_char_pretty_char, N.mod_lt. lia.
Qed.

(** The first digit of a positive number is not zero. *)
Lemma digits_head (x : N) :
  (0 < x)%N ->
  exists d r,
    pretty_N_go x "" = String (pretty_N_char d) r /\ (0 < d < 10)%N.
Proof.
  induction (N.lt_wf_0 x) as [x _ IH]. intros Hx.
  rewrite digits_snoc by lia.
  destruct (N.eq_dec (x `div` 10)%N 0%N) as [Hq|Hq].
  - rewrite Hq. exists (x `mod` 10)%N, "". split; [reflexivity|].
    pose proof (N.mod_lt x 10%N). pose proof (N.div_mod x 10%N). lia.
  - destruct (IH (x `div` 10)%N) as (d & r & Hd & Hr).
    + apply N.div_lt; lia.
    + by apply N.neq_0_lt_0.
    + rewrite Hd. eauto.
Qed.

Lemma json_number_digits (x : N) (negative : bool) :
  (0 < x)%N ->
  JSON.json_number
    ((if negative then "-" else "") +:+ pretty_N_go x "")
  = Some (Js.of_Z (if negative then - Z.of_N x else Z.of_N x)).
Proof.
  intros Hx.
  destruct (read_digits_pretty x) as (k & Hk & Hread).
  specialize (Hread O ""). rewrite append_nil_r in Hread.
  destruct k as [|k]; [specialize (Hk Hx); lia|].
  destruct (digits_head x Hx) as (d & r & Hd & Hr).
  rewrite Hd in Hread |- *.
  assert (Hcases : (d = 1 \/ d = 2 \/ d = 3 \/ d = 4 \/ d = 5 \/ d = 6 \/
                    d = 7 \/ d = 8 \/ d = 9)%N) by lia.
  rewrite Nat.add_0_r in Hread.
  assert (Hscale : forall f, Js.scale10 f (0 - Z.of_nat 0) = inject_Z f).
  { intros f. unfold Js.scale10. cbn. by rewrite Z.mul_1_r. }
  unfold JSON.json_number.
  destruct negative; rewrite ?append_cons, ?append_nil_l;
    destruct Hcases as [->|[->|[->|[->|[->|[->|[->|[->| ->]]]]]]]];
    cbn [pretty_N_char] in Hread |- *;
    rewrite Hread; cbn [Js.read_digits Nat.eqb negb Js.read_exponent];
    rewrite Hscale; reflexivity.
Qed.

Lemma print_number_int (z : Z) : JSON.print_number (Js.of_Z z) = pretty z.
Proof. reflexivity. Qed.

Lemma pretty_Z_digits (z : Z) :
  z <> 0 ->
  pretty z = (if z <? 0 then "-" else "") +:+ pretty_N_go (Z.to_N (Z.abs z)) "".
Proof.
  destruct z as [|p|p]; [done| |]; intros _; reflexivity.
Qed.

Lemma json_number_pretty (z : Z) :
  JSON.json_number (pretty z) = Some (Js.of_Z z).
Proof.
  destruct (Z.eq_dec z 0) as [->|Hz]; [reflexivity|].
  rewrite pretty_Z_digits by done.
  rewrite json_number_digits by lia.
  do 2 f_equal. destruct (Z.ltb_spec z 0); lia.
Qed.

Lemma number_chars_pretty (z : Z) : number_chars (pretty z).
Proof.
  destruct (Z.eq_dec z 0) as [->|Hz]; [by split|].
  rewrite pretty_Z_digits by done.
  apply number_chars_append; [|apply number_chars_digits].
  by destruct (z <? 0).
Qed.

Lemma pretty_Z_nonempty (z : Z) : exists c s, pretty z = String c s.
Proof.
  destruct (Z.eq_dec z 0) as [->|Hz]; [by exists "0"%char, ""|].
  rewrite pretty_Z_digits by done.
  destruct (z <? 0); [by eexists _, _|].
  destruct (digits_head (Z.to_N (Z.abs z))) as (d & r & -> & _); [lia|].
  by eexists _, _.
Qed.

Lemma lex_start_number_char (c : ascii) out :
  JSON.is_number_char c = true ->
  JSON.lex_start c out = Some (JSON.LNumber (String c ""), out).
Proof.
  destruct c as [[] [] [] [] [] [] [] []]; vm_compute; congruence.
Qed.

Lemma lex_number_run (w : string) acc out rest :
  number_chars w ->
  JSON.lex_from (JSON.LNumber acc) out (w +:+ rest)
  = JSON.lex_from (JSON.LNumber (String.rev_app w acc)) out rest.
Proof.
  revert acc. induction w as [|c w IH]; intros acc; [done|].
  intros [Hc Hw]. rewrite append_cons. cbn [JSON.lex_from JSON.lex_step].
  rewrite Hc. cbn iota. by rewrite IH.
Qed.

Lemma lex_pending_number (w : string) n out rest :
  JSON.json_number (String.rev w) = Some n ->
  boundary rest ->
  JSON.lex_from (JSON.LNumber w) out rest
  = JSON.lex_from JSON.LStart (JSON.TNumber n :: out) rest.
Proof.
  intros Hn Hb. destruct rest as [|c rest].
  - cbn. by rewrite Hn.
  - destruct Hb as [Hc _]. cbn [JSON.lex_from JSON.lex_step JSON.lex_flush].
    by rewrite Hc, Hn.
Qed.

Lemma lex_number (z : Z) out rest :
  boundary rest ->
  JSON.lex_from JSON.LStart out (pretty z +:+ rest)
  = JSON.lex_from JSON.LStart (JSON.TNumber (Js.of_Z z) :: out) rest.
Proof.
  intros Hb.
  pose proof (number_chars_pretty z) as Hchars.
  pose proof (json_number_pretty z) as Hnum.
  destruct (pretty_Z_nonempty z) as (c & s & Hp).
  rewrite Hp in Hchars, Hnum |- *. destruct Hchars as [Hc Hs].
  rewrite append_cons. cbn [JSON.lex_from JSON.lex_step].
  rewrite (lex_start_number_char c out Hc). cbn iota.
  rewrite (lex_number_run s _ _ _ Hs).
  apply lex_pending_number; [|done].
  change (String.rev_app s (String c "")) with (String.rev_app (String c s) "").
  by rewrite rev_rev_app.
Qed.

Lemma lex_pending_word (w : string) t out rest :
  JSON.word_token (String.rev w) = Some t ->
  boundary rest ->
  JSON.lex_from (JSON.LWord w) out rest
  = JSON.lex_from JSON.LStart (t :: out) rest.
Proof.
  intros Ht Hb. destruct rest as [|c rest].
  - cbn [JSON.lex_from JSON.lex_flush]. by rewrite Ht.
  - destruct Hb as [_ Hc]. cbn [JSON.lex_from JSON.lex_step JSON.lex_flush].
    by rewrite Hc, Ht.
Qed.

Lemma lex_word (w : string) (t : JSON.token) out rest :
  (w = "true" /\ t = JSON.TTrue) \/ (w = "false" /\ t = JSON.TFalse) \/
  (w = "null" /\ t = JSON.TNull) ->
  boundary rest ->
  JSON.lex_from JSON.LStart out (w +:+ rest)
  = JSON.lex_from JSON.LStart (t :: out) rest.
Proof.
  intros Hw Hb. rewrite lex_from_append.
  assert (Hprefix : lex_prefix JSON.LStart out w
                    = Some (JSON.LWord (String.rev w), out)).
  { destruct Hw as [[-> _]|[[-> _]|[-> _]]]; reflexivity. }
  rewrite Hprefix. apply lex_pending_word; [|done].
  rewrite string_rev_involutive.
  destruct Hw as [[-> ->]|[[-> ->]|[-> ->]]]; reflexivity.
Qed.

(** *** Values *)

(** Induction on values, with the hypothesis for every member of an array
    and of an object. *)
Lemma value_induction (P : JSON.value -> Prop) :
  P JSON.Null ->
  (forall b, P (JSON.Bool b)) ->
  (forall n, P (JSON.Num n)) ->
  (forall s, P (JSON.Str s)) ->
  (forall items, Forall P items -> P (JSON.Arr items)) ->
  (forall fields, Forall (fun kv => P (snd kv)) fields -> P (JSON.Obj fields)) ->
  forall v, P v.
Proof.
  intros Hnull Hbool Hnum Hstr Harr Hobj.
  fix IH 1. intros [| b | n | s | items | fields].
  - exact Hnull.
  - apply Hbool.
  - apply Hnum.
  - apply Hstr.
  - apply Harr. induction items as [|x items IHitems]; constructor.
    + apply IH.
    + exact IHitems.
  - apply Hobj. induction fields as [|kv fields IHfields]; constructor.
    + apply IH.
    + exact IHfields.
Qed.

Lemma boundary_comma rest : boundary (String "," rest).
Proof. by split. Qed.

Lemma boundary_newline rest : boundary (String JSON.newline rest).
Proof. by split. Qed.

Lemma lex_lbracket out rest :
  JSON.lex_from JSON.LStart out (String "[" rest)
  = JSON.lex_from JSON.LStart (JSON.TLBracket :: out) rest.
Proof. reflexivity. Qed.

Lemma lex_rbracket out rest :
  JSON.lex_from JSON.LStart out (String "]" rest)
  = JSON.lex_from JSON.LStart (JSON.TRBracket :: out) rest.
Proof. reflexivity. Qed.

Lemma lex_lbrace out rest :
  JSON.lex_from JSON.LStart out (String "{" rest)
  = JSON.lex_from JSON.LStart (JSON.TLBrace :: out) rest.
Proof. reflexivity. Qed.

Lemma lex_rbrace out rest :
  JSON.lex_from JSON.LStart out (String "}" rest)
  = JSON.lex_from JSON.LStart (JSON.TRBrace :: out) rest.
Proof. reflexivity. Qed.

Lemma lex_comma out rest :
  JSON.lex_from JSON.LStart out (String "," rest)
  = JSON.lex_from JSON.LStart (JSON.TComma :: out) rest.
Proof. reflexivity. Qed.

Lemma lex_colon_space out rest :
  JSON.lex_from JSON.LStart out (String ":" (String " " rest))
  = JSON.lex_from JSON.LStart (JSON.TColon :: out) rest.
Proof. reflexivity. Qed.

Lemma join_cons (sep a b : string) (l : list string) :
  JSON.join sep (a :: b :: l) = a +:+ sep +:+ JSON.join sep (b :: l).
Proof. reflexivity. Qed.

Lemma separated_cons (a b : list JSON.token) (l : list (list JSON.token)) :
  separated (a :: b :: l) = a ++ JSON.TComma :: separated (b :: l).
Proof. reflexivity. Qed.

(** The members of a container, once each of them lexes to its tokens. *)
Lemma lex_members {A} (print : A -> string) (toks : A -> list JSON.token)
    (inner : string) (members : list A) :
  blank inner ->
  Forall (fun m => forall out rest,
            boundary rest ->
            JSON.lex_from JSON.LStart out (print m +:+ rest)
            = JSON.lex_from JSON.LStart (rev (toks m) ++ out) rest) members ->
  members <> [] ->
  forall out rest,
    boundary rest ->
    JSON.lex_from JSON.LStart out
      (JSON.join (String "," (String JSON.newline inner)) (map print members)
       +:+ rest)
    = JSON.lex_from JSON.LStart (rev (separated (map toks members)) ++ out) rest.
Proof.
  intros Hinner Hall _.
  induction Hall as [|m [|m' members] Hm Hall IH]; intros out rest Hrest.
  - done.
  - cbn [map JSON.join separated]. by apply Hm.
  - cbn [map] in IH |- *. rewrite join_cons, separated_cons.
    rewrite !append_assoc, Hm by apply boundary_comma.
    rewrite !append_cons, lex_comma, lex_newline_blank by done.
    rewrite IH by done.
    f_equal. rewrite rev_app_distr. cbn [rev]. by rewrite <- !app_assoc.
Qed.

Lemma lex_value (v : JSON.value) :
  plain v ->
  forall indent out rest,
    blank indent ->
    boundary rest ->
    JSON.lex_from JSON.LStart out (JSON.stringify_at indent v +:+ rest)
    = JSON.lex_from JSON.LStart (rev (tokens v) ++ out) rest.
Proof.
  induction v as [| b | n | s | items IH | fields IH] using value_induction;
    intros Hplain indent out rest Hindent Hrest.
  - apply lex_word; auto.
  - destruct b; apply lex_word; auto.
  - inversion Hplain as [| | z Hz | | |]; subst.
    cbn [JSON.stringify_at tokens rev app]. rewrite print_number_int.
    by apply lex_number.
  - apply lex_quote.
  - inversion Hplain as [| | | | items' Hitems |]; subst.
    destruct items as [|x items]; [reflexivity|].
    assert (Hinner : blank (indent +:+ JSON.gap)).
    { apply blank_append; [done|]. by repeat split. }
    cbn [JSON.stringify_at tokens].
    rewrite !append_assoc, !append_cons, append_nil_l.
    rewrite lex_lbracket, lex_newline_blank by done.
    rewrite (lex_members (JSON.stringify_at (indent +:+ JSON.gap)) tokens);
      [|done| |done|apply boundary_newline].
    + rewrite lex_newline_blank, lex_rbracket by done.
      f_equal. cbn [rev]. rewrite rev_app_distr. cbn [rev app].
      by rewrite <- app_assoc.
    + rewrite Forall_forall in IH, Hitems. apply Forall_forall.
      intros m Hm out' rest' Hrest'. by apply IH; auto.
  - inversion Hplain as [| | | | | fields' Hkeys Hfields]; subst.
    destruct fields as [|kv fields]; [reflexivity|].
    assert (Hinner : blank (indent +:+ JSON.gap)).
    { apply blank_append; [done|]. by repeat split. }
    cbn [JSON.stringify_at tokens].
    rewrite !append_assoc, !append_cons, append_nil_l.
    rewrite lex_lbrace, lex_newline_blank by done.
    rewrite (lex_members
               (fun kv => JSON.quote (fst kv) +:+ ": " +:+
                          JSON.stringify_at (indent +:+ JSON.gap) (snd kv))
               (fun kv => JSON.TString (fst kv) :: JSON.TColon :: tokens (snd kv)));
      [|done| |done|apply boundary_newline].
    + rewrite lex_newline_blank, lex_rbrace by done.
      f_equal. cbn [rev]. rewrite rev_app_distr. cbn [rev app].
      by rewrite <- app_assoc.
    + rewrite Forall_forall in IH, Hfields. apply Forall_forall.
      intros m Hm out' rest' Hrest'.
      rewrite !append_assoc, lex_quote.
      rewrite !append_cons, append_nil_l, lex_colon_space.
      rewrite IH by auto.
      f_equal. cbn [rev]. by rewrite <- !app_assoc.
Qed.

(** ** Parsing the tokens of a value *)

Lemma obj_set_fresh fields (k : string) (v : JSON.value) :
  k ∉ map fst fields -> JSON.obj_set fields k v = fields ++ [(k, v)].
Proof.
  induction fields as [|[k' v'] fields IH]; [done|].
  cbn [map fst JSON.obj_set]. intros Hk.
  apply not_elem_of_cons in Hk as [Hne Hk].
  destruct (String.eqb_spec k' k) as [->|_]; [done|].
  cbn [app]. by rewrite IH.
Qed.

Lemma make_object_from (acc members : list (string * JSON.value)) :
  NoDup (map fst (acc ++ members)) ->
  fold_left (fun o kv => JSON.obj_set o (fst kv) (snd kv)) members acc
  = acc ++ members.
Proof.
  revert acc. induction members as [|[k v] members IH]; intros acc Hnd.
  - by rewrite app_nil_r.
  - cbn [fold_left fst snd]. rewrite obj_set_fresh.
    + rewrite IH; rewrite <- app_assoc; [done|exact Hnd].
    + rewrite map_app in Hnd. apply NoDup_app in Hnd as (_ & Hdisj & _).
      intros Hin. apply (Hdisj k Hin). cbn [map fst]. apply elem_of_cons. by left.
Qed.

Lemma make_object_plain (fields : list (string * JSON.value)) :
  NoDup (map fst fields) -> JSON.make_object fields = fields.
Proof. intros H. unfold JSON.make_object. by rewrite make_object_from. Qed.

Lemma tokens_head (v : JSON.value) :
  exists t ts, tokens v = t :: ts /\ starts_value t.
Proof.
  destruct v as [| [|] | n | s | items | fields]; cbn [tokens]; by eexists _, _.
Qed.

Lemma parse_array_open stack t ts :
  starts_value t ->
  JSON.parse_from (JSON.PArrOpen stack) (t :: ts)
  = JSON.parse_from (JSON.PValue (JSON.FArr [] :: stack)) (t :: ts).
Proof. by destruct t. Qed.

Lemma parse_items (items : list JSON.value) :
  Forall (fun v => forall stack rest,
            JSON.parse_from (JSON.PValue stack) (tokens v ++ rest)
            = JSON.parse_from (JSON.reduce v stack) rest) items ->
  items <> [] ->
  forall done stack rest,
    JSON.parse_from (JSON.PValue (JSON.FArr done :: stack))
      (separated (map tokens items) ++ JSON.TRBracket :: rest)
    = JSON.parse_from
        (JSON.reduce (JSON.Arr (rev (rev items ++ done))) stack) rest.
Proof.
  intros Hall.
  induction Hall as [|x [|y items] Hx Hall IH]; intros Hne done stack rest.
  - done.
  - cbn [map separated]. rewrite Hx. reflexivity.
  - cbn [map] in IH |- *. rewrite separated_cons.
    rewrite <- app_assoc, Hx. rewrite <- app_comm_cons.
    cbn [JSON.reduce JSON.parse_from JSON.parse_step].
    rewrite IH by done. do 3 f_equal.
    cbn [rev]. by rewrite <- !app_assoc.
Qed.

Lemma parse_fields (fields : list (string * JSON.value)) :
  Forall (fun kv => forall stack rest,
            JSON.parse_from (JSON.PValue stack) (tokens (snd kv) ++ rest)
            = JSON.parse_from (JSON.reduce (snd kv) stack) rest) fields ->
  fields <> [] ->
  forall st done stack rest,
    st = JSON.PObjKey done stack \/ (st = JSON.PObjOpen stack /\ done = []) ->
    JSON.parse_from st
      (separated
         (map (fun kv => JSON.TString (fst kv) :: JSON.TColon :: tokens (snd kv))
              fields) ++
       JSON.TRBrace :: rest)
    = JSON.parse_from
        (JSON.reduce (JSON.Obj (JSON.make_object (rev (rev fields ++ done))))
           stack) rest.
Proof.
  intros Hall.
  induction Hall as [|[k v] [|kv' fields] Hx Hall IH];
    intros Hne st done stack rest Hst.
  - done.
  - cbn [map separated fst snd] in Hx |- *.
    assert (Hkey : JSON.parse_step st (JSON.TString k)
                   = Some (JSON.PObjColon done k stack)).
    { by destruct Hst as [->|[-> ->]]. }
    rewrite <- !app_comm_cons. cbn [JSON.parse_from]. rewrite Hkey.
    cbn [JSON.parse_step]. rewrite Hx. reflexivity.
  - cbn [map fst snd] in Hx, IH |- *. rewrite separated_cons.
    assert (Hkey : JSON.parse_step st (JSON.TString k)
                   = Some (JSON.PObjColon done k stack)).
    { by destruct Hst as [->|[-> ->]]. }
    rewrite <- !app_comm_cons. cbn [JSON.parse_from]. rewrite Hkey.
    cbn [JSON.parse_step]. rewrite <- app_assoc, Hx. rewrite <- app_comm_cons.
    cbn [JSON.reduce JSON.parse_from JSON.parse_step].
    rewrite (IH ltac:(done) (JSON.PObjKey ((k, v) :: done) stack)
               ((k, v) :: done) stack) by (by left).
    do 4 f_equal. cbn [rev]. by rewrite <- !app_assoc.
Qed.

Lemma parse_value (v : JSON.value) :
  plain v ->
  forall stack rest,
    JSON.parse_from (JSON.PValue stack) (tokens v ++ rest)
    = JSON.parse_from (JSON.reduce v stack) rest.
Proof.
  induction v as [| b | n | s | items IH | fields IH] using value_induction;
    intros Hplain stack rest.
  - reflexivity.
  - by destruct b.
  - reflexivity.
  - reflexivity.
  - inversion Hplain as [| | | | items' Hitems |]; subst.
    destruct items as [|x items]; [reflexivity|].
    cbn [tokens]. rewrite <- app_comm_cons.
    cbn [JSON.parse_from JSON.parse_step JSON.start_value].
    destruct (tokens_head x) as (t & ts & Ht & Hstart).
    assert (Hsep : exists ts',
               separated (map tokens (x :: items)) = t :: ts').
    { cbn [map separated]. rewrite Ht. destruct (map tokens items); by eexists. }
    destruct Hsep as [ts' Hsep].
    rewrite <- app_assoc. cbn [app].
    rewrite Hsep, <- app_comm_cons, parse_array_open by done.
    rewrite app_comm_cons, <- Hsep.
    rewrite parse_items; [|..|done].
    + by rewrite app_nil_r, rev_involutive.
    + rewrite Forall_forall in IH, Hitems. apply Forall_forall.
      intros m Hm stack' rest'. by apply IH; auto.
  - inversion Hplain as [| | | | | fields' Hkeys Hfields]; subst.
    destruct fields as [|kv fields]; [reflexivity|].
    cbn [tokens]. rewrite <- app_comm_cons.
    cbn [JSON.parse_from JSON.parse_step JSON.start_value].
    rewrite <- app_assoc. cbn [app].
    rewrite (parse_fields (kv :: fields)) with (done := []) (stack := stack);
      [| |done|by right].
    + rewrite app_nil_r, rev_involutive. by rewrite make_object_plain.
    + rewrite Forall_forall in IH, Hfields. apply Forall_forall.
      intros m Hm stack' rest'. by apply IH; auto.
Qed.

(** [JSON.parse] reads back what [JSON.stringify] printed. *)
Lemma parse_stringify (v : JSON.value) :
  plain v -> JSON.parse (JSON.stringify v) = Some v.
Proof.
  intros Hplain. unfold JSON.parse, JSON.lex, JSON.stringify.
  rewrite <- (append_nil_r (JSON.stringify_at "" v)).
  rewrite (lex_value v Hplain "" [] ""); [|done|done].
  cbn [JSON.lex_from JSON.lex_flush]. rewrite app_nil_r, rev_involutive.
  rewrite <- (app_nil_r (tokens v)), (parse_value v Hplain). reflexivity.
Qed.

(** ** Reading back a stored collection *)

Lemma stringify_array_shape (l : list JSON.value) :
  exists body,
    JSON.stringify (JSON.Arr l) = String "[" (body +:+ String "]" "").
Proof.
  destruct l as [|x l]; [by exists ""|].
  unfold JSON.stringify. cbn [JSON.stringify_at].
  eexists. rewrite <- !append_assoc, append_cons. reflexivity.
Qed.

Lemma decoded_document (l : list JSON.value) enc version :
  enc = None \/ enc = Some Buffer.base64 ->
  decoded {| content := Some (document l); encoding := enc; sha := version |}
  = inr (JSON.stringify (JSON.Arr l)).
Proof.
  intros Henc. unfold decoded, document. cbn [content encoding].
  assert (Hfrom : Buffer.from
                    (Some (Buffer.encode_base64 (JSON.stringify (JSON.Arr l))))
                    (Js.nullish_default enc Buffer.base64)
                  = inr (JSON.stringify (JSON.Arr l))).
  { destruct Henc as [-> | ->]; apply from_encode_base64. }
  rewrite Hfrom. unfold Buffer.toString. f_equal.
  destruct (stringify_array_shape l) as [body ->].
  by apply trim_bracketed.
Qed.

Lemma read_document (l : list JSON.value) (version body : string) :
  Forall plain l ->
  readContents
    (Fulfilled {| status := 200;
                  text := body;
                  json := Some {| content := Some (document l);
                                  encoding := Some Buffer.base64;
                                  sha := version |} |})
  = inr {| reviews := JSON.Arr l; reviews_sha := Some version |}.
Proof.
  intros Hplain.
  rewrite (readContents_success _
             {| content := Some (document l); encoding := Some Buffer.base64;
                sha := version |}) by done.
  rewrite decoded_document by auto.
  rewrite parse_stringify by (by constructor).
  destruct (stringify_array_shape l) as [b ->]. done.
Qed.

Lemma persisted_empty (s : Store.state) :
  Store.file s = None -> persisted s = inr [].
Proof. intros H. unfold persisted, Store.get. rewrite H. reflexivity. Qed.

Lemma persisted_document (s : Store.state) (l : list JSON.value) (v : string) :
  Store.file s = Some (document l, v) ->
  Forall plain l ->
  persisted s = inr l.
Proof.
  intros H Hplain. unfold persisted, Store.get. rewrite H.
  cbn [fst]. by rewrite read_document.
Qed.

Lemma store_get_state (s : Store.state) : snd (Store.get s) = s.
Proof. unfold Store.get. by destruct (Store.file s) as [[? ?]|]. Qed.

Lemma store_put_accepted (body : PutBody) (s : Store.state) :
  Store.matches s (body_sha body) = true ->
  readUpdate (fst (Store.put body s))
  = inr (Some (Store.token_of (S (Store.accepted s)))) /\
  snd (Store.put body s)
  = {| Store.file := Some (body_content body,
                           Store.token_of (S (Store.accepted s)));
       Store.accepted := S (Store.accepted s) |}.
Proof.
  intros H. unfold Store.put. rewrite H. cbn [fst snd]. split; [|done].
  by destruct (Store.file s).
Qed.

Lemma store_put_rejected (body : PutBody) (s : Store.state) :
  Store.matches s (body_sha body) = false ->
  readUpdate (fst (Store.put body s))
  = inl (GitHubConflictError "GitHub file changed during update") /\
  snd (Store.put body s) = s.
Proof. intros H. unfold Store.put. by rewrite H. Qed.

Lemma run_fetch_store (env : Env) (config : Config) (s : Store.state) :
  getConfig env = inr config ->
  run Store.network (fetchReviewsFromGitHub env) s
  = (match readContents (fst (Store.get s)) with
     | inl e => Thrown e
     | inr fetched => Returned fetched
     end,
     [read_event config (fst (Store.get s))], s).
Proof.
  intros Hcfg. unfold fetchReviewsFromGitHub. rewrite Hcfg.
  unfold mbind, Async_bind. cbn [lift bind run on_get Store.network].
  pose proof (store_get_state s) as Hs.
  destruct (Store.get s) as [gs s1]. cbn [fst snd] in Hs |- *. subst s1.
  by destruct (readContents gs).
Qed.

Lemma run_mutate_accepted {T} (env : Env) (config : Config)
    (mutator : list JSON.value -> list JSON.value * T) (retries : Z)
    (s : Store.state) fetched snapshot :
  getConfig env = inr config ->
  0 < retries ->
  readContents (fst (Store.get s)) = inr fetched ->
  spread (reviews fetched) = inr snapshot ->
  Store.matches s
    (body_sha (putBody config (fst (mutator snapshot)) (reviews_sha fetched)))
  = true ->
  run Store.network (mutateReviewsWithRetry env mutator retries) s
  = (Returned (snd (mutator snapshot)),
     [read_event config (fst (Store.get s));
      write_event config (fst (mutator snapshot)) (reviews_sha fetched)
        (fst (Store.put
                (putBody config (fst (mutator snapshot)) (reviews_sha fetched))
                s))],
     snd (Store.put
            (putBody config (fst (mutator snapshot)) (reviews_sha fetched)) s)).
Proof.
  intros Hcfg Hpos Hread Hspread Hmatch.
  unfold mutateReviewsWithRetry.
  destruct (Z.to_nat retries) as [|n] eqn:E; [lia|].
  cbn [retryLoop]. rewrite (proj2 (Z.ltb_lt 0 retries) Hpos).
  unfold attemptOnce, fetchReviewsFromGitHub, persistReviewsToGitHub.
  rewrite Hcfg. unfold mbind, Async_bind.
  cbn [lift bind run on_get Store.network].
  pose proof (store_get_state s) as Hs.
  destruct (Store.get s) as [gs s1]. cbn [fst snd] in Hs, Hread |- *. subst s1.
  rewrite Hread. cbn [lift bind]. rewrite Hspread. cbn [lift bind].
  destruct (mutator snapshot) as [next result].
  cbn [fst snd bind try_catch run on_put Store.network] in Hmatch |- *.
  destruct (store_put_accepted _ _ Hmatch) as [Hupd Hstate].
  destruct (Store.put (putBody config next (reviews_sha fetched)) s)
    as [ps s2].
  cbn [fst snd] in Hupd, Hstate |- *. rewrite Hupd. cbn [lift bind try_catch run].
  reflexivity.
Qed.

Lemma newReview_plain (id createdAt : string) (req : AddReviewRequest) :
  (req_stars req = None \/ exists z, req_stars req = Some (Js.of_Z z)) ->
  plain (newReview id createdAt req).
Proof.
  intros Hstars. unfold newReview. apply plain_obj.
  - cbn [map fst]. by apply (bool_decide_unpack _).
  - repeat (apply Forall_cons; split); try apply plain_str; [|done].
    cbn [snd]. unfold stars_or_default.
    destruct Hstars as [-> | [z ->]]; [apply plain_int|].
    destruct (Js.truthy_number (Js.of_Z z)); apply plain_int.
Qed.

(** C9: under a valid configuration, [mutateReviewsWithRetry] with the
    mutator of [addReview] for a text that trims to [hello] and with five
    attempts, when its read is answered "not found" and its write is
    answered with success, returns the new review after that one read
    and one write; the write carries no version and the collection that
    consists of exactly that review, and a successful read of the written
    content returns that collection.  The text of the review is [hello],
    its rating is 5 when none or zero was supplied, its avatar is the
    placeholder when none was supplied.  Run on a store without a
    document, the call is answered so: it returns the review, and a read
    of the store afterwards returns the collection that consists of
    exactly that review. *)
Theorem first_review_on_empty_store (env : Env) (config : Config)
    (id createdAt : string) (req : AddReviewRequest) :
  getConfig env = inr config ->
  Js.trim (req_text req) = "hello" ->
  (req_stars req = None \/ exists z, req_stars req = Some (Js.of_Z z)) ->
  let review := newReview id createdAt req in
  let call :=
    mutateReviewsWithRetry env (addReviewMutator id createdAt req) 5 in
  (forall response ps version,
     status response = 404 ->
     readUpdate ps = inr version ->
     exec call
       [read_event config (Fulfilled response);
        write_event config [review] None ps]
       (Returned review)) /\
  (forall version body,
     readContents
       (Fulfilled {| status := 200;
                     text := body;
                     json := Some {| content :=
                                       Some (body_content
                                           (putBody config [review] None));
                                     encoding := Some Buffer.base64;
                                     sha := version |} |})
     = inr {| reviews := JSON.Arr [review]; reviews_sha := Some version |}) /\
  exists trace after,
    run Store.network call Store.empty = (Returned review, trace, after) /\
    reads trace = 1%nat /\ writes trace = 1%nat /\
    member "text" review = Some (JSON.Str "hello") /\
    (req_stars req = None \/ req_stars req = Some (Js.of_Z 0) ->
     member "stars" review = Some (JSON.int 5)) /\
    (req_avatar req = None ->
     member "avatar" review = Some (JSON.Str placeholder_avatar)) /\
    persisted after = inr [review] /\
    fst (fst (run Store.network (fetchReviewsFromGitHub env) after))
    = Returned {| reviews := JSON.Arr [review];
                  reviews_sha := Some (Store.token_of 1) |}.
Proof.
  intros Hcfg Htext Hstars review call.
  assert (Hplain : Forall plain [review]).
  { constructor; [by apply newReview_plain|constructor]. }
  split; [|split].
  { intros response ps version H404 Hupd. unfold call.
    apply (cycles_mutate env config _ 5 Hcfg); [lia|].
    apply (cycles_written config (addReviewMutator id createdAt req) 5 0
             (Fulfilled response)
             {| reviews := JSON.Arr []; reviews_sha := None |} [] ps version);
      [|reflexivity|exact Hupd].
    simpl. by rewrite H404. }
  { intros version body. by apply read_document. }
  pose proof (run_mutate_accepted env config (addReviewMutator id createdAt req)
                5 Store.empty
                {| reviews := JSON.Arr []; reviews_sha := None |} []
                Hcfg ltac:(lia) eq_refl eq_refl eq_refl) as Hrun.
  cbn [addReviewMutator fst snd app reviews_sha] in Hrun.
  fold review in Hrun.
  destruct (store_put_accepted (putBody config [review] None) Store.empty eq_refl)
    as [_ Hafter].
  rewrite Hafter in Hrun. cbn [putBody body_content Store.accepted Store.empty] in Hrun.
  fold (document [review]) in Hrun.
  eexists _, _. split; [exact Hrun|].
  split; [reflexivity|]. split; [reflexivity|].
  split; [|split; [|split; [|split]]].
  - unfold review, newReview. cbn. by rewrite Htext.
  - intros Hzero. unfold review, newReview. cbn.
    by destruct Hzero as [-> | ->].
  - intros Hnone. unfold review, newReview. cbn. by rewrite Hnone.
  - by apply (persisted_document _ [review] (Store.token_of 1)).
  - rewrite (run_fetch_store env config) by done. cbn [fst].
    unfold Store.get. cbn [Store.file fst].
    by rewrite read_document.
Qed.

Lemma first_review_on_empty_store_witness :
  let review :=
    newReview "1700000000000abc" "2024-01-01T00:00:00.000Z" sample_request in
  let call := mutateReviewsWithRetry sample_env sample_mutator 5 in
  (forall response ps version,
     status response = 404 ->
     readUpdate ps = inr version ->
     exec call
       [read_event sample_config (Fulfilled response);
        write_event sample_config [review] None ps]
       (Returned review)) /\
  (forall version body,
     readContents
       (Fulfilled {| status := 200;
                     text := body;
                     json := Some {| content :=
                                       Some (body_content
                                           (putBody sample_config [review] None));
                                     encoding := Some Buffer.base64;
                                     sha := version |} |})
     = inr {| reviews := JSON.Arr [review]; reviews_sha := Some version |}) /\
  exists trace after,
    run Store.network call Store.empty = (Returned review, trace, after) /\
    reads trace = 1%nat /\ writes trace = 1%nat /\
    member "text" review = Some (JSON.Str "hello") /\
    (req_stars sample_request = None \/
     req_stars sample_request = Some (Js.of_Z 0) ->
     member "stars" review = Some (JSON.int 5)) /\
    (req_avatar sample_request = None ->
     member "avatar" review = Some (JSON.Str placeholder_avatar)) /\
    persisted after = inr [review] /\
    fst (fst (run Store.network (fetchReviewsFromGitHub sample_env) after))
    = Returned {| reviews := JSON.Arr [review];
                  reviews_sha := Some (Store.token_of 1) |}.
Proof.
  refine (first_review_on_empty_store sample_env sample_config
            "1700000000000abc" "2024-01-01T00:00:00.000Z" sample_request _ _ _).
  - reflexivity.
  - reflexivity.
  - left. reflexivity.
Defined.

(** ** Interleaved invocations *)

Lemma token_of_inj (n m : nat) : Store.token_of n = Store.token_of m -> n = m.
Proof.
  unfold Store.token_of. intros H.
  apply (inj (String.append "v")) in H. by apply (inj pretty) in H.
Qed.

Lemma token_of_truthy (n : nat) : Js.truthy (Some (Store.token_of n)) = true.
Proof. reflexivity. Qed.

Lemma retryLoop_reading {T} (env : Env)
    (mutator : list JSON.value -> list JSON.value * T) (retries : Z)
    fuel attempt lastError :
  reading mutator (retryLoop env mutator retries fuel attempt lastError).
Proof.
  revert attempt lastError.
  induction fuel as [|fuel IH]; intros attempt lastError;
    cbn [retryLoop]; destruct (attempt <? retries);
    try apply reading_failed.
  unfold attemptOnce, fetchReviewsFromGitHub, persistReviewsToGitHub.
  destruct (getConfig env) as [e|config] eqn:Hcfg.
  { apply reading_failed. }
  unfold mbind, Async_bind. cbn [lift bind].
  apply reading_get. intros gs.
  destruct (readContents gs) as [e|fetched] eqn:Hread; cbn [lift bind].
  { apply read_then_fail. }
  destruct (spread (reviews fetched)) as [e|snapshot] eqn:Hspread;
    cbn [lift bind].
  { apply read_then_fail. }
  destruct (mutator snapshot) as [next result] eqn:Hm.
  cbn [bind try_catch].
  apply (read_then_put mutator gs fetched snapshot);
    [exact Hread|exact Hspread| | |].
  - cbn [putBody body_content]. by rewrite Hm.
  - reflexivity.
  - intros ps.
    destruct (readUpdate ps) as [e|version] eqn:Hupd; cbn [lift bind try_catch].
    + eapply write_then_retry; [exact Hupd|].
      destruct (is_conflict e && _); [apply IH|apply reading_failed].
    + replace result with (snd (mutator snapshot)) by (by rewrite Hm).
      by eapply write_then_return.
Qed.

Lemma mutate_reading {T} (env : Env)
    (mutator : list JSON.value -> list JSON.value * T) (retries : Z) :
  reading mutator (mutateReviewsWithRetry env mutator retries).
Proof. apply retryLoop_reading. Qed.

Lemma serial_snoc {T}
    (calls : list ((list JSON.value -> list JSON.value * T) * Z))
    (order : list nat) (i : nat) call :
  calls !! i = Some call ->
  serial calls (order ++ [i]) = fst (fst call (serial calls order)).
Proof.
  intros Hcall. unfold serial. rewrite fold_left_app. cbn [fold_left].
  by rewrite Hcall.
Qed.

Section Serializable.

Context {T : Type}.
Variable calls : list ((list JSON.value -> list JSON.value * T) * Z).

Hypothesis Hclosed :
  forall call current,
    call ∈ calls ->
    Forall plain current ->
    Forall plain (fst (fst call current)).

Lemma inv_invocations (env : Env) : inv calls (invocations env calls).
Proof.
  unfold inv, invocations. cbn [store pool accepted_by].
  split; [|split; [|split]].
  - split; [constructor|]. done.
  - constructor.
  - intros i Hi. by apply elem_of_nil in Hi.
  - intros i p Hp. right. split; [apply not_elem_of_nil|].
    rewrite list_lookup_fmap in Hp.
    destruct (calls !! i) as [call|] eqn:Hcall; [|done].
    injection Hp as <-. exists call. split; [done|].
    left. apply mutate_reading.
Qed.

(** What a read of the store returns. *)
Lemma store_inv_read (s : Store.state) (log : list nat) :
  store_inv calls s log ->
  readContents (fst (Store.get s))
  = inr {| reviews := JSON.Arr (serial calls log);
           reviews_sha := token_at (Store.accepted s) |}.
Proof.
  intros [Hplain Hfile]. unfold Store.get.
  destruct (Store.file s) as [[stored version]|].
  - destruct Hfile as (-> & -> & Hpos). cbn [fst].
    rewrite read_document by done.
    by destruct (Store.accepted s); [lia|].
  - destruct Hfile as [-> ->]. reflexivity.
Qed.

(** A write is accepted only if nothing was accepted since the read. *)
Lemma store_inv_matches (s : Store.state) (log : list nat) (n : nat) :
  store_inv calls s log ->
  (n <= Store.accepted s)%nat ->
  Store.matches s (token_at n) = true ->
  Store.accepted s = n.
Proof.
  intros [_ Hfile] Hle. unfold Store.matches.
  destruct (Store.file s) as [[stored version]|].
  - destruct Hfile as (_ & -> & Hpos).
    destruct n as [|n]; [done|]. cbn [token_at].
    intros Heq. apply String.eqb_eq in Heq. by apply token_of_inj.
  - destruct Hfile as [Hzero _]. lia.
Qed.

Lemma thread_inv_other (s s' : Store.state) (log : list nat) (i j : nat)
    (p : Async T) :
  i <> j ->
  (Store.accepted s <= Store.accepted s')%nat ->
  (s' = s \/ Store.accepted s < Store.accepted s')%nat ->
  thread_inv calls s log j p ->
  thread_inv calls s' log j p /\
  (s' <> s -> thread_inv calls s' (log ++ [i]) j p).
Proof.
  intros Hne Hmono Hchange [(before & after & call & Hlog & Hcall & Hp)|
                           (Hnotin & call & Hcall & Hshape)].
  - split.
    + left. by exists before, after, call.
    + intros _. left. exists before, (after ++ [i]), call.
      split; [|done]. rewrite Hlog. by rewrite <- app_assoc.
  - assert (Hwriting : forall log',
               (s' = s -> log' = log) ->
               writing calls (fst call) s log p -> writing calls (fst call) s' log' p).
    { intros log' Hlog'
        (url & headers & body & k & snapshot & n & -> & Hk & Hc & Hpl & Hn & Hsha & Hsnap).
      exists url, headers, body, k, snapshot, n.
      repeat split; auto; [lia|].
      intros Hacc. destruct Hchange as [->|Hlt]; [|lia].
      rewrite Hlog' by done. auto. }
    split.
    + right. split; [done|]. exists call. split; [done|].
      destruct Hshape as [Hr|Hw]; [by left|right].
      apply (Hwriting log); [done|exact Hw].
    + intros Hchanged. right. split.
      * rewrite elem_of_app, list_elem_of_singleton. intros [?|?]; congruence.
      * exists call. split; [done|].
        destruct Hshape as [Hr|Hw]; [by left|right].
        apply (Hwriting (log ++ [i])); [done|exact Hw].
Qed.

Lemma inv_serve (i : nat) (sys : Shared T) : inv calls sys -> inv calls (serve i sys).
Proof.
  intros (Hstore & Hnodup & Hdone & Hthreads). unfold serve.
  destruct (pool sys !! i) as [p|] eqn:Hp; [|done].
  assert (Hlen : (i < length (pool sys))%nat) by (by eapply lookup_lt_Some).
  pose proof (Hthreads i p Hp) as Hi.
  destruct p as [r|e|url headers k|url headers body k]; [done|done| |].
  - (* the read of invocation [i] is served *)
    destruct Hi as [(? & ? & ? & _ & _ & [=])|(Hnotin & call & Hcall & Hshape)].
    destruct Hshape as [Hreading|(? & ? & ? & ? & ? & ? & [=] & _)].
    inversion Hreading as [|url' headers' k' Hk]; subst.
    cbn [on_get Store.network]. rewrite store_get_state.
    unfold inv. cbn [store pool accepted_by].
    split; [done|]. split; [done|]. split.
    { intros j Hj. rewrite list_lookup_insert_is_Some. auto. }
    intros j q Hq.
    destruct (decide (i = j)) as [<-|Hne].
    + rewrite list_lookup_insert_eq in Hq by done. injection Hq as <-.
      right. split; [done|]. exists call. split; [done|].
      pose proof (store_inv_read _ _ Hstore) as Hread.
      destruct (Hk (fst (Store.get (store sys))))
        as [gs e|gs fetched snapshot url' headers' body k' Hr Hs Hc Hsha Hw].
      * left. apply reading_failed.
      * right. rewrite Hread in Hr. injection Hr as <-.
        cbn [reviews reviews_sha] in Hs, Hsha. injection Hs as <-.
        exists url', headers', body, k', (serial calls (accepted_by sys)),
          (Store.accepted (store sys)).
        destruct Hstore as [Hplain _].
        repeat split; auto.
        rewrite Hsha. by destruct (Store.accepted (store sys)).
    + rewrite list_lookup_insert_ne in Hq by done. auto.
  - (* the write of invocation [i] is served *)
    destruct Hi as [(? & ? & ? & _ & _ & [=])|(Hnotin & call & Hcall & Hshape)].
    destruct Hshape as [Hreading|Hwriting]; [inversion Hreading|].
    destruct Hwriting
      as (url' & headers' & body' & k' & snapshot & n & [= <- <- <- <-]
          & Hk & Hc & Hpl & Hn & Hsha & Hsnap).
    cbn [on_put Store.network].
    destruct (Store.matches (store sys) (body_sha body)) eqn:Hmatch.
    + (* accepted *)
      destruct (store_put_accepted body (store sys) Hmatch) as [Hupd Hnew].
      rewrite Hsha in Hmatch.
      pose proof (store_inv_matches _ _ _ Hstore Hn Hmatch) as Hacc.
      specialize (Hsnap Hacc). subst snapshot.
      assert (Hserial : serial calls (accepted_by sys ++ [i])
                        = fst (fst call (serial calls (accepted_by sys)))).
      { by apply serial_snoc. }
      unfold inv. cbn [store pool accepted_by]. rewrite Hnew.
      split; [|split; [|split]].
      * split.
        { rewrite Hserial. apply Hclosed; [|done].
          by eapply list_elem_of_lookup_2. }
        cbn [Store.file Store.accepted].
        rewrite Hserial, Hc. repeat split. lia.
      * apply NoDup_app. split; [done|]. split; [|apply NoDup_singleton].
        intros j Hj Hin. apply list_elem_of_singleton in Hin. by subst.
      * intros j Hj. rewrite list_lookup_insert_is_Some.
        apply elem_of_app in Hj as [Hj|Hj]; [auto|].
        apply list_elem_of_singleton in Hj as ->. eauto.
      * intros j q Hq.
        destruct (decide (i = j)) as [<-|Hne].
        { rewrite list_lookup_insert_eq in Hq by done. injection Hq as <-.
          left. exists (accepted_by sys), [], call.
          split; [done|]. split; [done|].
          destruct (Hk (fst (Store.put body (store sys))))
            as [snapshot ps version Hu|snapshot ps e q Hu Hq]; [done|].
          congruence. }
        rewrite list_lookup_insert_ne in Hq by done.
        refine (proj2 (thread_inv_other (store sys) _ _ i j q Hne _ _
                         (Hthreads j q Hq)) _).
        { cbn [Store.accepted]. lia. }
        { right. cbn [Store.accepted]. lia. }
        intros Heq. apply (f_equal Store.accepted) in Heq.
        cbn [Store.accepted] in Heq. lia.
    + (* rejected *)
      destruct (store_put_rejected body (store sys) Hmatch) as [Hupd Hsame].
      unfold inv. cbn [store pool accepted_by]. rewrite Hsame.
      split; [done|]. split; [done|]. split.
      { intros j Hj. rewrite list_lookup_insert_is_Some. auto. }
      intros j q Hq.
      destruct (decide (i = j)) as [<-|Hne].
      * rewrite list_lookup_insert_eq in Hq by done. injection Hq as <-.
        right. split; [done|]. exists call. split; [done|]. left.
        destruct (Hk (fst (Store.put body (store sys))))
          as [snapshot ps version Hu|snapshot ps e q Hu Hq]; [congruence|done].
      * rewrite list_lookup_insert_ne in Hq by done. auto.
Qed.

Lemma inv_interleave (schedule : list nat) (sys : Shared T) :
  inv calls sys -> inv calls (interleave schedule sys).
Proof.
  revert sys. induction schedule as [|i schedule IH]; intros sys Hinv; [done|].
  cbn [interleave fold_left]. apply IH. by apply inv_serve.
Qed.

Lemma inv_persisted (sys : Shared T) :
  inv calls sys ->
  persisted (store sys) = inr (serial calls (accepted_by sys)).
Proof.
  intros ([Hplain Hfile] & _).
  destruct (Store.file (store sys)) as [[stored version]|] eqn:Hf.
  - destruct Hfile as (-> & -> & _). by eapply persisted_document.
  - destruct Hfile as [_ ->]. by apply persisted_empty.
Qed.

Lemma inv_returned (sys : Shared T) (i : nat) :
  inv calls sys ->
  i ∈ accepted_by sys <-> exists result, pool sys !! i = Some (Return result).
Proof.
  intros (_ & _ & Hdone & Hthreads). split.
  - intros Hi. destruct (Hdone i Hi) as [p Hp].
    destruct (Hthreads i p Hp) as [(? & ? & ? & _ & _ & ->)|[Hnotin _]];
      [eauto|done].
  - intros [result Hp].
    destruct (Hthreads i _ Hp)
      as [(before & after & ? & -> & _)|(_ & call & _ & [Hr|Hw])].
    + rewrite elem_of_app, elem_of_cons. auto.
    + inversion Hr.
    + by destruct Hw as (? & ? & ? & ? & ? & ? & [=] & _).
Qed.

Lemma inv_result (sys : Shared T) (i : nat) (result : T) :
  inv calls sys ->
  pool sys !! i = Some (Return result) ->
  exists before after call,
    accepted_by sys = before ++ i :: after /\
    calls !! i = Some call /\
    result = snd (fst call (serial calls before)).
Proof.
  intros (_ & _ & _ & Hthreads) Hp.
  destruct (Hthreads i _ Hp)
    as [(before & after & call & Hlog & Hcall & [= ->])
       |(_ & call & _ & [Hr|Hw])].
  - by exists before, after, call.
  - inversion Hr.
  - by destruct Hw as (? & ? & ? & ? & ? & ? & [=] & _).
Qed.

End Serializable.

(** C3: for every list of concurrent [mutateReviewsWithRetry] calls on a
    store without a document and every interleaving of their requests,
    the collection that the store holds is the result of applying, from
    the empty collection, the mutators of the calls whose write was
    accepted, one after the other in the order in which the store
    accepted them; every such call appears exactly once in that order and
    is exactly a call that has returned, with the result that its mutator
    gives at its place in the order: no accepted update is lost.  The
    mutators are taken to return collections that the document format
    stores without loss (integer ratings, no repeated key). *)
Theorem interleaved_mutations_serialize {T} (env : Env)
    (calls : list ((list JSON.value -> list JSON.value * T) * Z))
    (schedule : list nat) :
  (forall call current,
     call ∈ calls ->
     Forall plain current ->
     Forall plain (fst (fst call current))) ->
  let sys := interleave schedule (invocations env calls) in
  persisted (store sys) = inr (serial calls (accepted_by sys)) /\
  NoDup (accepted_by sys) /\
  (forall i,
     i ∈ accepted_by sys <->
     exists result, pool sys !! i = Some (Return result)) /\
  (forall i result,
     pool sys !! i = Some (Return result) ->
     exists before after call,
       accepted_by sys = before ++ i :: after /\
       calls !! i = Some call /\
       result = snd (fst call (serial calls before))).
Proof.
  intros Hclosed sys.
  assert (Hinv : inv calls sys).
  { apply (inv_interleave calls Hclosed). apply inv_invocations. }
  split; [exact (inv_persisted calls sys Hinv)|].
  split; [apply Hinv|].
  split.
  - intros i. exact (inv_returned calls sys i Hinv).
  - intros i result. exact (inv_result calls sys i result Hinv).
Qed.

Lemma addReviewMutator_plain id createdAt req (current : list JSON.value) :
  (req_stars req = None \/ exists z, req_stars req = Some (Js.of_Z z)) ->
  Forall plain current ->
  Forall plain (fst (addReviewMutator id createdAt req current)).
Proof.
  intros Hstars Hcurrent. cbn [addReviewMutator fst].
  apply Forall_app. split; [done|].
  constructor; [by apply newReview_plain|constructor].
Qed.

Lemma interleaved_mutations_serialize_witness :
  let sys := interleave racing_schedule (invocations sample_env pair_of_calls) in
  persisted (store sys) = inr (serial pair_of_calls (accepted_by sys)) /\
  NoDup (accepted_by sys) /\
  (forall i,
     i ∈ accepted_by sys <->
     exists result, pool sys !! i = Some (Return result)) /\
  (forall i result,
     pool sys !! i = Some (Return result) ->
     exists before after call,
       accepted_by sys = before ++ i :: after /\
       pair_of_calls !! i = Some call /\
       result = snd (fst call (serial pair_of_calls before))).
Proof.
  apply (interleaved_mutations_serialize sample_env pair_of_calls racing_schedule).
  intros call current Hcall Hcurrent. unfold pair_of_calls in Hcall.
  apply elem_of_cons in Hcall as [->|Hcall].
  { apply addReviewMutator_plain; [by left|done]. }
  apply list_elem_of_singleton in Hcall as ->.
  apply addReviewMutator_plain; [right; by exists 3|done].
Defined.

(** In that interleaving the second call is rejected once, reads again and
    is accepted after the first: both reviews are stored, in that order. *)
Example racing_calls_outcome :
  let sys := interleave racing_schedule (invocations sample_env pair_of_calls) in
  accepted_by sys = [0; 1]%nat /\
  Store.accepted (store sys) = 2%nat /\
  persisted (store sys)
  = inr [newReview "1700000000000abc" "2024-01-01T00:00:00.000Z" sample_request;
         newReview "1700000000001def" "2024-01-01T00:00:01.000Z"
           {| req_text := " second "; req_avatar := None;
              req_stars := Some (Js.of_Z 3) |}].
Proof. vm_compute. repeat split. Qed.

(* ================================================================== *)
(** * Further properties of the retry loop *)
(* ================================================================== *)

(** How an invocation can go: the bound lets no attempt through, the
    configuration is rejected before the first request, or the loop
    cycles. *)
Lemma mutate_exec_outcome {T} (env : Env)
    (mutator : list JSON.value -> list JSON.value * T) retries trace c :
  exec (mutateReviewsWithRetry env mutator retries) trace c ->
  (retries <= 0 /\ trace = [] /\ c = Thrown (exhausted None)) \/
  (0 < retries /\
   exists e, getConfig env = inl e /\ trace = [] /\ c = Thrown e) \/
  (0 < retries /\
   exists config,
     getConfig env = inr config /\ cycles config mutator retries 0 trace c).
Proof.
  intros H.
  destruct (Z_lt_le_dec 0 retries) as [Hpos|Hle].
  - right. destruct (getConfig env) as [e|config] eqn:Hcfg.
    + left. split; [done|]. exists e. split; [done|].
      unfold mutateReviewsWithRetry in H.
      destruct (Z.to_nat retries) as [|n] eqn:E; [lia|].
      rewrite (retryLoop_config_error _ _ _ _ _ _ _ Hcfg Hpos) in H.
      by apply exec_throw_inv in H.
    + right. split; [done|]. exists config. split; [done|].
      by eapply mutate_cycles.
  - left. split; [done|]. unfold mutateReviewsWithRetry in H.
    rewrite retryLoop_exhausted in H by exact Hle.
    by apply exec_throw_inv in H.
Qed.

Lemma readContents_error gs e :
  readContents gs = inl e ->
  is_conflict e = false /\ is_config_error e = false /\
  (e = exhausted None -> False).
Proof.
  destruct gs as [r|reason]; simpl.
  - destruct (status r =? 404); [done|].
    destruct (negb (ok r)).
    { intros [= <-]. repeat split. intros [=]. }
    destruct (json r) as [payload|]; [|intros [= <-]; repeat split; intros [=]].
    destruct (Buffer.from _ _) as [error|buffer] eqn:Hfrom.
    { destruct (from_error _ _ _ Hfrom) as [message ->].
      intros [= <-]. repeat split. intros [=]. }
    destruct (negb _); [done|].
    destruct (JSON.parse _); [done|].
    intros [= <-]. repeat split. intros [=].
  - intros [= <-]. repeat split. intros [=].
Qed.

Lemma spread_error v e :
  spread v = inl e ->
  is_conflict e = false /\ is_config_error e = false /\
  (e = exhausted None -> False).
Proof.
  destruct v; simpl; try discriminate;
    intros [= <-]; repeat split; intros [=].
Qed.


Lemma cycles_result {T} config (mutator : list JSON.value -> list JSON.value * T)
    retries attempt trace result :
  cycles config mutator retries attempt trace (Returned result) ->
  exists before gs fetched snapshot ps version,
    trace = before ++
            [read_event config gs;
             write_event config (fst (mutator snapshot)) (reviews_sha fetched)
               ps] /\
    readContents gs = inr fetched /\
    spread (reviews fetched) = inr snapshot /\
    readUpdate ps = inr version /\
    result = snd (mutator snapshot).
Proof.
  intros H. remember (Returned result) as c eqn:Hc.
  induction H as [attempt gs e Hr|attempt gs fetched e Hr Hs
                 |attempt gs fetched snapshot ps0 version Hr Hs Hu
                 |attempt gs fetched snapshot ps0 e Hr Hs Hu Hno
                 |attempt gs fetched snapshot ps0 e rest c Hr Hs Hu Hyes Hrest IH];
    try discriminate.
  - injection Hc as <-.
    by exists [], gs, fetched, snapshot, ps0, version.
  - destruct (IH Hc) as (before & gs' & fetched' & snapshot' & ps' & version'
                         & -> & H').
    exists (read_event config gs ::
            write_event config (fst (mutator snapshot)) (reviews_sha fetched) ps0 ::
            before), gs', fetched', snapshot', ps', version'.
    split; [reflexivity|exact H'].
Qed.

Lemma cycles_reads {T} config (mutator : list JSON.value -> list JSON.value * T)
    retries attempt trace c :
  cycles config mutator retries attempt trace c ->
  forall before url headers gs after,
    trace = before ++ Get url headers gs :: after ->
    match readContents gs with
    | inl e => after = [] /\ c = Thrown e
    | inr fetched =>
        match spread (reviews fetched) with
        | inl e => after = [] /\ c = Thrown e
        | inr snapshot =>
            exists ps after',
              after = write_event config (fst (mutator snapshot))
                        (reviews_sha fetched) ps :: after'
        end
    end.
Proof.
  induction 1 as [attempt gs0 e Hr|attempt gs0 fetched e Hr Hs
                 |attempt gs0 fetched snapshot ps0 version Hr Hs Hu
                 |attempt gs0 fetched snapshot ps0 e Hr Hs Hu Hno
                 |attempt gs0 fetched snapshot ps0 e rest c Hr Hs Hu Hyes Hrest IH];
    intros before url headers gs after Htrace;
    unfold read_event, write_event in Htrace.
  - destruct before as [|x [|y before]]; simplify_eq/=. by rewrite Hr.
  - destruct before as [|x [|y before]]; simplify_eq/=. by rewrite Hr, Hs.
  - destruct before as [|x [|y [|z before]]]; simplify_eq/=.
    rewrite Hr, Hs. eauto.
  - destruct before as [|x [|y [|z before]]]; simplify_eq/=.
    rewrite Hr, Hs. eauto.
  - destruct before as [|x [|y before]]; simplify_eq/=.
    + rewrite Hr, Hs. eauto.
    + eapply IH; eauto.
Qed.

Lemma cycles_conflict {T} config (mutator : list JSON.value -> list JSON.value * T)
    retries attempt trace e :
  cycles config mutator retries attempt trace (Thrown e) ->
  is_conflict e = true ->
  attempt < retries ->
  Z.of_nat (writes trace) = retries - attempt /\
  reads trace = writes trace /\
  Forall conflicts_only trace.
Proof.
  intros H. remember (Thrown e) as c eqn:Hc.
  induction H as [attempt gs e0 Hr|attempt gs fetched e0 Hr Hs
                 |attempt gs fetched snapshot ps0 version Hr Hs Hu
                 |attempt gs fetched snapshot ps0 e0 Hr Hs Hu Hno
                 |attempt gs fetched snapshot ps0 e0 rest c Hr Hs Hu Hyes Hrest IH];
    intros Hconflict Hlt; unfold read_event, write_event; simpl.
  - injection Hc as ->.
    destruct (readContents_error _ _ Hr) as [Hn _]. congruence.
  - injection Hc as ->.
    destruct (spread_error _ _ Hs) as [Hn _]. congruence.
  - discriminate.
  - injection Hc as ->. rewrite Hconflict in Hno. cbn [andb] in Hno.
    apply Z.ltb_ge in Hno.
    split; [lia|]. split; [done|].
    repeat constructor. simpl. by eapply readUpdate_conflict.
  - apply andb_true_iff in Hyes as [Hc0 Hmore]. apply Z.ltb_lt in Hmore.
    destruct (IH Hc Hconflict Hmore) as (Hw & Hrw & Hall).
    split; [lia|]. split; [by rewrite Hrw|].
    repeat constructor; [|done]. simpl. by eapply readUpdate_conflict.
Qed.


Lemma cycles_shape {T} config (mutator : list JSON.value -> list JSON.value * T)
    retries attempt trace c :
  cycles config mutator retries attempt trace c ->
  alternating true trace = true /\
  (reads trace = writes trace \/ reads trace = S (writes trace)) /\
  Forall (addressed config) trace.
Proof.
  induction 1 as [attempt gs e0 Hr|attempt gs fetched e0 Hr Hs
                 |attempt gs fetched snapshot ps0 version Hr Hs Hu
                 |attempt gs fetched snapshot ps0 e0 Hr Hs Hu Hno
                 |attempt gs fetched snapshot ps0 e0 rest c Hr Hs Hu Hyes Hrest IH];
    unfold read_event, write_event; simpl.
  - split; [done|]. split; [by right|]. by repeat constructor.
  - split; [done|]. split; [by right|]. by repeat constructor.
  - split; [done|]. split; [by left|]. by repeat constructor.
  - split; [done|]. split; [by left|]. by repeat constructor.
  - destruct IH as (Ha & Hrw & Hall). split; [done|].
    split; [destruct Hrw as [-> | ->]; auto|].
    by repeat constructor.
Qed.

Lemma cycles_thrown {T} config (mutator : list JSON.value -> list JSON.value * T)
    retries attempt trace e :
  cycles config mutator retries attempt trace (Thrown e) ->
  exists before,
    (exists gs,
       trace = before ++ [read_event config gs] /\
       (readContents gs = inl e \/
        exists fetched,
          readContents gs = inr fetched /\ spread (reviews fetched) = inl e)) \/
    (exists snapshot sha ps,
       trace = before ++ [write_event config (fst (mutator snapshot)) sha ps] /\
       readUpdate ps = inl e).
Proof.
  intros H. remember (Thrown e) as c eqn:Hc.
  induction H as [attempt gs e0 Hr|attempt gs fetched e0 Hr Hs
                 |attempt gs fetched snapshot ps0 version Hr Hs Hu
                 |attempt gs fetched snapshot ps0 e0 Hr Hs Hu Hno
                 |attempt gs fetched snapshot ps0 e0 rest c Hr Hs Hu Hyes Hrest IH].
  - injection Hc as ->. exists []. left. exists gs. split; [done|by left].
  - injection Hc as ->. exists []. left. exists gs. split; [done|].
    right. by exists fetched.
  - discriminate.
  - injection Hc as ->. exists [read_event config gs]. right.
    by exists snapshot, (reviews_sha fetched), ps0.
  - destruct (IH Hc) as (before & Hlast).
    exists (read_event config gs ::
            write_event config (fst (mutator snapshot)) (reviews_sha fetched) ps0 ::
            before).
    destruct Hlast as [(gs' & -> & H')|(snapshot' & sha' & ps' & -> & H')].
    + left. by exists gs'.
    + right. by exists snapshot', sha', ps'.
Qed.

(** When the call throws, a write at the end of the exchanges is the one
    that failed. *)
Lemma mutate_thrown_last_write {T} (env : Env)
    (mutator : list JSON.value -> list JSON.value * T) retries trace e :
  exec (mutateReviewsWithRetry env mutator retries) trace (Thrown e) ->
  forall before url headers body ps,
    trace = before ++ [Put url headers body ps] ->
    readUpdate ps = inl e.
Proof.
  intros Hexec before url headers body ps Htrace.
  destruct (mutate_exec_outcome _ _ _ _ _ Hexec)
    as [(_ & -> & _)|[(_ & e0 & _ & -> & _)|(_ & config & Hcfg & Hcycles)]];
    [by destruct before|by destruct before|].
  destruct (cycles_thrown _ _ _ _ _ _ Hcycles)
    as (before' & [(gs & -> & _)|(snapshot & sha & ps' & -> & Hu)]);
    apply app_inj_tail in Htrace as [_ Hev];
    unfold read_event, write_event in Hev; [discriminate|].
  by injection Hev as _ _ _ ->.
Qed.

(** X5: when [mutateReviewsWithRetry] returns, the last two exchanges are
    a read and the write of what the mutator made of that read, the write
    was answered with success, and the value returned is the result that
    the mutator gave for that read: never the result of an attempt whose
    write was rejected. *)
Theorem mutate_returns_after_accepted_write {T} (env : Env)
    (mutator : list JSON.value -> list JSON.value * T) (retries : Z)
    (trace : list Event) (c : Completion T) :
  exec (mutateReviewsWithRetry env mutator retries) trace c ->
  forall result,
    c = Returned result ->
    exists config before gs fetched snapshot ps version,
      getConfig env = inr config /\
      trace = before ++
              [read_event config gs;
               write_event config (fst (mutator snapshot))
                 (reviews_sha fetched) ps] /\
      readContents gs = inr fetched /\
      spread (reviews fetched) = inr snapshot /\
      readUpdate ps = inr version /\
      result = snd (mutator snapshot).
Proof.
  intros Hexec result ->.
  destruct (mutate_exec_outcome _ _ _ _ _ Hexec)
    as [(_ & _ & [=])|[(_ & e & _ & _ & [=])|(_ & config & Hcfg & Hcycles)]].
  destruct (cycles_result _ _ _ _ _ _ Hcycles)
    as (before & gs & fetched & snapshot & ps & version & H).
  by exists config, before, gs, fetched, snapshot, ps, version.
Qed.

Lemma mutate_returns_after_accepted_write_witness :
  exists config before gs fetched snapshot ps version,
    getConfig sample_env = inr config /\
    snd (fst contended_once)
    = before ++
      [read_event config gs;
       write_event config (fst (sample_mutator snapshot))
         (reviews_sha fetched) ps] /\
    readContents gs = inr fetched /\
    spread (reviews fetched) = inr snapshot /\
    readUpdate ps = inr version /\
    newReview "1700000000000abc" "2024-01-01T00:00:00.000Z" sample_request
    = snd (sample_mutator snapshot).
Proof.
  apply (mutate_returns_after_accepted_write sample_env sample_mutator 3
           (snd (fst contended_once)) (fst (fst contended_once))
           (run_exec Store.contended
              (mutateReviewsWithRetry sample_env sample_mutator 3)
              (Store.empty, [foreign_document]))).
  vm_compute. reflexivity.
Defined.

(** X6: a read is never retried.  In every execution of
    [mutateReviewsWithRetry], a read that throws, whatever makes
    [fetchReviewsFromGitHub] throw on the settled request (no response, a
    status that is neither a success nor 404, a body that is not JSON, a
    content or an encoding that [Buffer.from] refuses, a document that is
    neither empty after trimming nor JSON), or that returns a value that
    cannot be spread, is the last exchange and its error is what the call
    throws, whatever attempts remain; every other read is followed at
    once by the write of what the mutator made of it. *)
Theorem failed_read_is_not_retried {T} (env : Env)
    (mutator : list JSON.value -> list JSON.value * T) (retries : Z)
    (trace : list Event) (c : Completion T) :
  exec (mutateReviewsWithRetry env mutator retries) trace c ->
  forall before url headers gs after,
    trace = before ++ Get url headers gs :: after ->
    match readContents gs with
    | inl e => after = [] /\ c = Thrown e
    | inr fetched =>
        match spread (reviews fetched) with
        | inl e => after = [] /\ c = Thrown e
        | inr snapshot =>
            exists config ps after',
              getConfig env = inr config /\
              after = write_event config (fst (mutator snapshot))
                        (reviews_sha fetched) ps :: after'
        end
    end.
Proof.
  intros Hexec before url headers gs after Htrace.
  destruct (mutate_exec_outcome _ _ _ _ _ Hexec)
    as [(_ & -> & _)|[(_ & e & _ & -> & _)|(_ & config & Hcfg & Hcycles)]];
    [by destruct before|by destruct before|].
  pose proof (cycles_reads _ _ _ _ _ _ Hcycles _ _ _ _ _ Htrace) as H.
  destruct (readContents gs) as [e|fetched]; [exact H|].
  destruct (spread (reviews fetched)) as [e|snapshot]; [exact H|].
  destruct H as (ps & after' & ->). by exists config, ps, after'.
Qed.

Lemma failed_read_is_not_retried_witness :
  drop 1 (snd (fst failing_read)) = [] /\
  fst (fst failing_read)
  = Thrown (Error "Failed to fetch reviews from GitHub: 503 Service Unavailable").
Proof.
  apply (failed_read_is_not_retried sample_env sample_mutator 3
           (snd (fst failing_read)) (fst (fst failing_read))
           (run_exec unavailable_store
              (mutateReviewsWithRetry sample_env sample_mutator 3) tt)
           []
           (contents_url sample_config +:+ "?ref=" +:+ branch sample_config)
           (buildHeaders (token sample_config))
           unavailable_answer
           (drop 1 (snd (fst failing_read)))).
  vm_compute. reflexivity.
Defined.

(** X7: called with an integer bound, [mutateReviewsWithRetry] throws a
    [GitHubConflictError] only when the attempts are used up: the number
    of writes then equals [retries], every read was followed by a write,
    and every write was answered with status 409. *)
Theorem conflict_surfaces_only_when_exhausted {T} (env : Env)
    (mutator : list JSON.value -> list JSON.value * T) (retries : Z)
    (trace : list Event) (c : Completion T) :
  exec (mutateReviewsWithRetry env mutator retries) trace c ->
  forall e,
    c = Thrown e ->
    is_conflict e = true ->
    Z.of_nat (writes trace) = retries /\
    reads trace = writes trace /\
    Forall conflicts_only trace.
Proof.
  intros Hexec e -> Hconflict.
  destruct (mutate_exec_outcome _ _ _ _ _ Hexec)
    as [(_ & _ & [= ->])|[(_ & e0 & Hcfg & _ & [= <-])
                         |(Hpos & config & Hcfg & Hcycles)]].
  - discriminate.
  - pose proof (getConfig_error _ _ Hcfg) as Hce. by destruct e.
  - destruct (cycles_conflict _ _ _ _ _ _ Hcycles Hconflict Hpos)
      as (Hw & Hrw & Hall).
    split; [lia|done].
Qed.

Lemma conflict_surfaces_only_when_exhausted_witness :
  Z.of_nat (writes (snd (fst contended_twice))) = 2 /\
  reads (snd (fst contended_twice)) = writes (snd (fst contended_twice)) /\
  Forall conflicts_only (snd (fst contended_twice)).
Proof.
  apply (conflict_surfaces_only_when_exhausted sample_env sample_mutator 2
           (snd (fst contended_twice)) (fst (fst contended_twice))
           (run_exec Store.contended
              (mutateReviewsWithRetry sample_env sample_mutator 2)
              (Store.empty, [foreign_document; foreign_document]))
           (GitHubConflictError "GitHub file changed during update")).
  - vm_compute. reflexivity.
  - reflexivity.
Defined.



(** X9: the requests of one invocation go to one file.  In every
    execution of [mutateReviewsWithRetry] the exchanges are GETs and PUTs
    in turn, starting with a GET, so that there are as many reads as
    writes or one more; every GET asks for the configured file at the
    configured branch and every PUT goes to the same file, names that
    branch and the configured commit message, and both carry the
    configured credential. *)
Theorem requests_alternate_on_one_file {T} (env : Env)
    (mutator : list JSON.value -> list JSON.value * T) (retries : Z)
    (trace : list Event) (c : Completion T) :
  exec (mutateReviewsWithRetry env mutator retries) trace c ->
  alternating true trace = true /\
  (reads trace = writes trace \/ reads trace = S (writes trace)) /\
  forall config, getConfig env = inr config -> Forall (addressed config) trace.
Proof.
  intros Hexec.
  destruct (mutate_exec_outcome _ _ _ _ _ Hexec)
    as [(_ & -> & _)|[(_ & e & _ & -> & _)|(_ & config & Hcfg & Hcycles)]];
    [by repeat split; auto|by repeat split; auto|].
  destruct (cycles_shape _ _ _ _ _ _ Hcycles) as (Ha & Hrw & Hall).
  split; [done|]. split; [done|].
  intros config' Hcfg'. by replace config' with config by congruence.
Qed.

Lemma requests_alternate_on_one_file_witness :
  alternating true (snd (fst contended_once)) = true /\
  (reads (snd (fst contended_once)) = writes (snd (fst contended_once)) \/
   reads (snd (fst contended_once)) = S (writes (snd (fst contended_once)))) /\
  forall config,
    getConfig sample_env = inr config ->
    Forall (addressed config) (snd (fst contended_once)).
Proof.
  apply (requests_alternate_on_one_file sample_env sample_mutator 3
           (snd (fst contended_once)) (fst (fst contended_once))
           (run_exec Store.contended
              (mutateReviewsWithRetry sample_env sample_mutator 3)
              (Store.empty, [foreign_document]))).
Defined.

(** X17: when [mutateReviewsWithRetry] throws, the error is that of its
    last step.  Either nothing was sent, and the error is the
    configuration error or [retries] is not positive; or the last exchange
    is a read and the error is the one that the read, or the spreading of
    what it returned, gave; or the last exchange is a write and the error
    is the one that this write gave.  An error of an earlier attempt is
    never what the caller sees. *)
Theorem mutate_throws_error_of_last_exchange {T} (env : Env)
    (mutator : list JSON.value -> list JSON.value * T) (retries : Z)
    (trace : list Event) (c : Completion T) :
  exec (mutateReviewsWithRetry env mutator retries) trace c ->
  forall e,
    c = Thrown e ->
    (trace = [] /\ (getConfig env = inl e \/ retries <= 0)) \/
    (exists before url headers gs,
       trace = before ++ [Get url headers gs] /\
       (readContents gs = inl e \/
        exists fetched,
          readContents gs = inr fetched /\ spread (reviews fetched) = inl e)) \/
    (exists before url headers body ps,
       trace = before ++ [Put url headers body ps] /\
       readUpdate ps = inl e).
Proof.
  intros Hexec e ->.
  destruct (mutate_exec_outcome _ _ _ _ _ Hexec)
    as [(Hle & -> & _)|[(_ & e0 & Hcfg & -> & [= <-])
                       |(_ & config & Hcfg & Hcycles)]].
  - left. split; [done|by right].
  - left. split; [done|by left].
  - right.
    destruct (cycles_thrown _ _ _ _ _ _ Hcycles)
      as (before & [(gs & -> & H)|(snapshot & sha & ps & -> & Hu)]).
    + left. by eexists before, _, _, gs.
    + right. by eexists before, _, _, _, ps.
Qed.

Lemma mutate_throws_error_of_last_exchange_witness :
  (snd (fst failing_write) = [] /\
   (getConfig sample_env
    = inl (Error "Failed to persist reviews to GitHub: 500 Server Error") \/
    3 <= 0)) \/
  (exists before url headers gs,
     snd (fst failing_write) = before ++ [Get url headers gs] /\
     (readContents gs
      = inl (Error "Failed to persist reviews to GitHub: 500 Server Error") \/
      exists fetched,
        readContents gs = inr fetched /\
        spread (reviews fetched)
        = inl (Error "Failed to persist reviews to GitHub: 500 Server Error"))) \/
  (exists before url headers body ps,
     snd (fst failing_write) = before ++ [Put url headers body ps] /\
     readUpdate ps
     = inl (Error "Failed to persist reviews to GitHub: 500 Server Error")).
Proof.
  apply (mutate_throws_error_of_last_exchange sample_env sample_mutator 3
           (snd (fst failing_write)) (fst (fst failing_write))
           (run_exec failing_store
              (mutateReviewsWithRetry sample_env sample_mutator 3) tt)).
  reflexivity.
Defined.

(* ================================================================== *)
(** * Further properties of the configuration *)
(* ================================================================== *)

Lemma nonspace_pretty_char (d : N) :
  (d < 10)%N ->
  Js.isWhiteSpace (pretty_N_char d) = false /\ Js.byte (pretty_N_char d) < 128.
Proof.
  intros H. destruct (small_digit d H) as [->|[->|[->|[->|[->|[->|[->|[->|[->| ->]]]]]]]]];
    by split.
Qed.

Lemma trim_digits (x : N) :
  (0 < x)%N -> Js.trim (pretty_N_go x "") = pretty_N_go x "".
Proof.
  intros Hx. unfold Js.trim, Js.trimStart.
  assert (Hstart : Js.strip false (pretty_N_go x "") = pretty_N_go x "").
  { destruct (digits_head x Hx) as (d & r & -> & Hd).
    destruct (nonspace_pretty_char d) as [Hs Hb]; [lia|].
    by apply strip_ascii. }
  rewrite Hstart. unfold Js.trimEnd.
  rewrite digits_snoc at 1 by done. rewrite rev_append_char.
  destruct (nonspace_pretty_char (x `mod` 10)) as [Hs Hb];
    [apply N.mod_lt; lia|].
  rewrite strip_ascii by done.
  rewrite <- rev_append_char, string_rev_involutive.
  by rewrite <- digits_snoc.
Qed.

Lemma floor_log2_integer (n : Z) : 0 < n -> Js.floor_log2 n 1 = Z.log2 n.
Proof.
  intros Hn. unfold Js.floor_log2. cbn [Z.log2]. rewrite Z.sub_0_r.
  pose proof (Z.log2_nonneg n) as Hnn.
  replace (0 <=? Z.log2 n) with true by lia.
  destruct (Z.log2_spec n Hn) as [Hlow _].
  rewrite Z.mul_1_l. by replace (2 ^ Z.log2 n <=? n) with true by lia.
Qed.

Lemma nearest_even_integer (a : Z) : Js.nearest_even a 1 = a.
Proof.
  unfold Js.nearest_even. rewrite Z.mod_1_r, Z.div_1_r. reflexivity.
Qed.

Lemma scale2_integer (n k : Z) :
  0 <= k -> Js.scale2 (n * 2 ^ k) (- k) = inject_Z n.
Proof.
  intros Hk. unfold Js.scale2.
  replace (Z.max (- k) 0) with 0 by lia.
  replace (Z.max (- - k) 0) with k by lia.
  assert (Hpow : 0 < 2 ^ k) by (apply Z.pow_pos_nonneg; lia).
  rewrite <- (Qcanon.Qred_identity (inject_Z n)) by apply Z.gcd_1_r.
  apply Qred_complete. unfold Qeq, inject_Z. cbn [Qnum Qden].
  rewrite Z2Pos.id by done. cbn. lia.
Qed.

(** An integer below [2^53] is its own Number value. *)
Lemma binary64_integer (n : Z) :
  1 <= n < 2 ^ 53 -> Js.binary64 (inject_Z n) = Js.of_Z n.
Proof.
  intros [Hlow Hhigh]. unfold Js.binary64, inject_Z. cbn [Qnum Qden].
  rewrite Z.abs_eq by lia.
  replace (n =? 0) with false by lia.
  rewrite floor_log2_integer by lia.
  assert (Hlog : 0 <= Z.log2 n < 53).
  { split; [apply Z.log2_nonneg|].
    apply Z.log2_lt_pow2; lia. }
  set (k := 52 - Z.log2 n).
  replace (Z.max (Z.log2 n - 52) (-1074)) with (- k) by lia.
  assert (Hm : (if 0 <=? - k
                then Js.nearest_even n (1 * 2 ^ (- k))
                else Js.nearest_even (n * 2 ^ (- - k)) 1) = n * 2 ^ k).
  { destruct (Z.leb_spec 0 (- k)).
    - replace k with 0 by lia. cbn. rewrite nearest_even_integer. lia.
    - rewrite Z.opp_involutive. apply nearest_even_integer. }
  rewrite Hm.
  rewrite Z.log2_mul_pow2 by lia.
  replace (1024 <=? k + Z.log2 n + - k) with false by lia.
  replace (n <? 0) with false by lia.
  by rewrite scale2_integer by lia.
Qed.

Lemma Number_pretty (n : Z) :
  1 <= n < 2 ^ 53 -> Js.Number_ (pretty n) = Js.of_Z n.
Proof.
  intros Hn. rewrite pretty_Z_digits by lia.
  replace (n <? 0) with false by lia. rewrite append_nil_l.
  set (x := Z.to_N (Z.abs n)). assert (Hx : (0 < x)%N) by lia.
  assert (Hxn : Z.of_N x = n) by lia. clearbody x.
  unfold Js.Number_. rewrite trim_digits by done.
  destruct (read_digits_pretty x) as (k & Hk & Hread).
  specialize (Hread O ""). rewrite append_nil_r, Hxn in Hread.
  destruct k as [|k]; [specialize (Hk Hx); lia|].
  destruct (digits_head x Hx) as (d & r & Hd & Hr).
  rewrite Hd in Hread |- *.
  assert (Hcases : (d = 1 \/ d = 2 \/ d = 3 \/ d = 4 \/ d = 5 \/ d = 6 \/
                    d = 7 \/ d = 8 \/ d = 9)%N) by lia.
  rewrite Nat.add_0_r in Hread.
  assert (Hscale : forall f, Js.scale10 f (0 - Z.of_nat 0) = inject_Z f).
  { intros f. unfold Js.scale10. cbn. by rewrite Z.mul_1_r. }
  destruct Hcases as [->|[->|[->|[->|[->|[->|[->|[->| ->]]]]]]]];
    cbn [pretty_N_char] in Hread |- *;
    match goal with
    | |- context [String ?c r] =>
        change (Js.signed_decimal (String c r) = Js.of_Z n)
    end;
    unfold Js.signed_decimal; cbn [Js.read_sign];
    change (String.eqb (String _ r) "Infinity") with false; cbn iota;
    unfold Js.unsigned_decimal; rewrite Hread;
    cbn [Js.read_digits Nat.add Js.read_exponent];
    rewrite Hscale; by apply binary64_integer.
Qed.

(** X1: [getConfig] succeeds exactly when GITHUB_TOKEN, GITHUB_OWNER and
    GITHUB_REPO are all set to something other than the empty string;
    otherwise it throws a [GitHubConfigError] whose message names the
    first of them, in that order, that is missing. *)
Theorem getConfig_reports_first_missing (env : Env) :
  ((exists config, getConfig env = inr config) <->
   Js.truthy (env !! "GITHUB_TOKEN") && Js.truthy (env !! "GITHUB_OWNER") &&
   Js.truthy (env !! "GITHUB_REPO") = true) /\
  (Js.truthy (env !! "GITHUB_TOKEN") = false ->
   getConfig env
   = inl (GitHubConfigError "Missing GITHUB_TOKEN environment variable")) /\
  (Js.truthy (env !! "GITHUB_TOKEN") = true ->
   Js.truthy (env !! "GITHUB_OWNER") = false ->
   getConfig env
   = inl (GitHubConfigError "Missing GITHUB_OWNER environment variable")) /\
  (Js.truthy (env !! "GITHUB_TOKEN") = true ->
   Js.truthy (env !! "GITHUB_OWNER") = true ->
   Js.truthy (env !! "GITHUB_REPO") = false ->
   getConfig env
   = inl (GitHubConfigError "Missing GITHUB_REPO environment variable")).
Proof.
  unfold getConfig.
  destruct (env !! "GITHUB_TOKEN") as [[|? ?]|];
    destruct (env !! "GITHUB_OWNER") as [[|? ?]|];
    destruct (env !! "GITHUB_REPO") as [[|? ?]|]; cbn;
    (split; [split; [intros [? [=]] || (intros _; reflexivity)
                    |discriminate || (intros _; eauto)]|]);
    repeat split; intros; done.
Qed.

Lemma getConfig_reports_first_missing_witness :
  getConfig (<["GITHUB_TOKEN" := "secret"]> (<["GITHUB_REPO" := "site"]> ∅))
  = inl (GitHubConfigError "Missing GITHUB_OWNER environment variable").
Proof.
  apply (proj1 (proj2 (proj2
           (getConfig_reports_first_missing
              (<["GITHUB_TOKEN" := "secret"]> (<["GITHUB_REPO" := "site"]> ∅))))));
    reflexivity.
Defined.

(** X2: with the three required settings and neither GITHUB_FILE_PATH nor
    GITHUB_BRANCH set, [fetchReviewsFromGitHub] sends one request, a GET
    of [reviews.json] on branch [main] of the configured repository, with
    the token as bearer credential. *)
Theorem fetch_default_location (env : Env) (t o r : string)
    (trace : list Event) (c : Completion ReviewsWithSha) :
  env !! "GITHUB_TOKEN" = Some t ->
  env !! "GITHUB_OWNER" = Some o ->
  env !! "GITHUB_REPO" = Some r ->
  Js.truthy_string t && Js.truthy_string o && Js.truthy_string r = true ->
  env !! "GITHUB_FILE_PATH" = None ->
  env !! "GITHUB_BRANCH" = None ->
  exec (fetchReviewsFromGitHub env) trace c ->
  exists settled,
    trace
    = [Get ("https://api.github.com/repos/" +:+ o +:+ "/" +:+ r +:+
            "/contents/reviews.json?ref=main")
           {| Authorization := "Bearer " +:+ t;
              Accept := "application/vnd.github+json";
              User_Agent := "reviews-service" |}
           settled].
Proof.
  intros Ht Ho Hr Hset Hpath Hbranch Hexec.
  unfold fetchReviewsFromGitHub, getConfig in Hexec.
  rewrite Ht, Ho, Hr, Hpath, Hbranch in Hexec.
  destruct t as [|ct t]; [done|]. destruct o as [|co o]; [done|].
  destruct r as [|cr r]; [by rewrite andb_false_r in Hset|].
  unfold mbind, Async_bind in Hexec.
  cbn [lift bind Js.nullish_default strip_leading_slash] in Hexec.
  apply exec_get_inv in Hexec as (settled & rest & -> & Hexec).
  destruct (readContents settled); cbn [lift] in Hexec;
    [apply exec_throw_inv in Hexec as [-> _]
    |apply exec_return_inv in Hexec as [-> _]];
    exists settled; unfold contents_url, buildHeaders;
    cbn [owner repo filePath branch token];
    by rewrite !append_assoc.
Qed.

Lemma fetch_default_location_witness :
  exists settled,
    snd (fst (run Store.network (fetchReviewsFromGitHub sample_env) Store.empty))
    = [Get "https://api.github.com/repos/studio/site/contents/reviews.json?ref=main"
           {| Authorization := "Bearer secret";
              Accept := "application/vnd.github+json";
              User_Agent := "reviews-service" |}
           settled].
Proof.
  apply (fetch_default_location sample_env "secret" "studio" "site"
           (snd (fst (run Store.network (fetchReviewsFromGitHub sample_env)
                        Store.empty)))
           (fst (fst (run Store.network (fetchReviewsFromGitHub sample_env)
                        Store.empty))));
    try reflexivity.
  apply run_exec.
Defined.

(** X3: when the setting that counts is the decimal numeral of an integer
    [n] from 1 to [2^53 - 1], the bound is [n]. *)
Theorem getMaxRetries_decimal (env : Env) (n : Z) :
  1 <= n < 2 ^ 53 ->
  retries_setting env = Some (pretty n) ->
  getMaxRetries env = Js.of_Z n.
Proof.
  intros Hn Hset. unfold getMaxRetries. rewrite Hset.
  destruct (pretty_Z_nonempty n) as (ch & rest & Hp).
  rewrite Hp at 1. cbn [Js.truthy_string]. rewrite Number_pretty by done.
  unfold Js.of_Z, Js.truthy_number, Js.isNaN, Js.ltZ, Qeq_bool, Qle_bool,
    inject_Z. cbn [Qnum Qden].
  replace (n * 1 =? 0 * 1) with false by lia.
  replace (1 * 1 <=? n * 1) with true by lia.
  reflexivity.
Qed.

Lemma getMaxRetries_decimal_witness :
  getMaxRetries (<["GITHUB_RETRY_LIMIT" := "12"]> ∅) = Js.of_Z 12.
Proof.
  apply (getMaxRetries_decimal (<["GITHUB_RETRY_LIMIT" := "12"]> ∅) 12).
  - lia.
  - reflexivity.
Defined.

(** Outside that range the bound is the Number value of the numeral: the
    nearest binary64 value, or an infinity; white space around the
    numeral is skipped, and a fraction is kept. *)
Example getMaxRetries_rounds :
  getMaxRetries (<["GITHUB_MAX_RETRIES" := "9007199254740993"]> ∅)
  = Js.of_Z (2 ^ 53) /\
  getMaxRetries (<["GITHUB_MAX_RETRIES" := "0.99999999999999999"]> ∅)
  = Js.of_Z 1 /\
  getMaxRetries (<["GITHUB_MAX_RETRIES" := no_break_space +:+ "3"]> ∅)
  = Js.of_Z 3 /\
  getMaxRetries (<["GITHUB_MAX_RETRIES" := "1e400"]> ∅) = Js.Infinity false /\
  getMaxRetries (<["GITHUB_MAX_RETRIES" := "2.5"]> ∅) = Js.Finite (5 # 2).
Proof. vm_compute. repeat split. Qed.


(** X16: the three settings of the bound are read in a fixed order and
    only the first that is set counts.  When GITHUB_MAX_RETRIES is set,
    to whatever value, setting or changing GITHUB_RETRY_LIMIT and
    MAX_RETRIES changes nothing; when it is not set and
    GITHUB_RETRY_LIMIT is, changing MAX_RETRIES changes nothing. *)
Theorem getMaxRetries_precedence (env : Env) (v w : string) :
  (is_Some (env !! "GITHUB_MAX_RETRIES") ->
   getMaxRetries (<["GITHUB_RETRY_LIMIT" := v]> (<["MAX_RETRIES" := w]> env))
   = getMaxRetries env) /\
  (env !! "GITHUB_MAX_RETRIES" = None ->
   is_Some (env !! "GITHUB_RETRY_LIMIT") ->
   getMaxRetries (<["MAX_RETRIES" := w]> env) = getMaxRetries env).
Proof.
  split.
  - intros [s Hs]. unfold getMaxRetries, retries_setting.
    rewrite !lookup_insert_ne by done. by rewrite Hs.
  - intros Hnone [s Hs]. unfold getMaxRetries, retries_setting.
    rewrite !lookup_insert_ne by done. by rewrite Hnone, Hs.
Qed.

Lemma getMaxRetries_precedence_witness :
  getMaxRetries
    (<["GITHUB_RETRY_LIMIT" := "7"]>
       (<["MAX_RETRIES" := "9"]> (<["GITHUB_MAX_RETRIES" := "2"]> ∅)))
  = getMaxRetries (<["GITHUB_MAX_RETRIES" := "2"]> ∅).
Proof.
  apply (proj1 (getMaxRetries_precedence
                  (<["GITHUB_MAX_RETRIES" := "2"]> ∅) "7" "9")).
  by eexists.
Defined.

(* ================================================================== *)
(** * Further properties of the document *)
(* ================================================================== *)

Lemma lossless_plain (v : JSON.value) : lossless v -> plain v.
Proof.
  induction v as [| b | n | s | items IH | fields IH] using value_induction;
    intros H.
  - apply plain_null.
  - apply plain_bool.
  - inversion H. apply plain_int.
  - apply plain_str.
  - inversion H as [| | | | items' Hitems |]; subst. apply plain_arr.
    clear H. induction IH as [|x l Hx _ IHl]; [constructor|].
    inversion Hitems; subst. constructor; auto.
  - inversion H as [| | | | | fields' Hkeys Hfields]; subst.
    apply plain_obj; [done|].
    clear H Hkeys. induction IH as [|x l Hx _ IHl]; [constructor|].
    inversion Hfields; subst. constructor; auto.
Qed.

(** X4: what [persistReviewsToGitHub] writes, [fetchReviewsFromGitHub]
    reads back.  When a successful response to the GET carries as content
    the content of the body that a PUT for a collection sent, in base64
    (named or by default), the read returns exactly that collection, with
    the version of the response.  The collections are those that a JSON
    document holds without loss: numbers that are integers of absolute
    value below 2^53, no repeated key. *)
Theorem written_document_reads_back (env : Env) (config : Config)
    (collection : list JSON.value) (version : option string)
    url headers body ps (written : Completion (option string))
    (response : Response GitHubContentResponse)
    (payload : GitHubContentResponse) :
  getConfig env = inr config ->
  Forall lossless collection ->
  exec (persistReviewsToGitHub env collection version)
    [Put url headers body ps] written ->
  ok response = true ->
  json response = Some payload ->
  content payload = Some (body_content body) ->
  encoding payload = None \/ encoding payload = Some Buffer.base64 ->
  exec (fetchReviewsFromGitHub env) [read_event config (Fulfilled response)]
    (Returned {| reviews := JSON.Arr collection;
                 reviews_sha := Some (sha payload) |}).
Proof.
  intros Hcfg Hlossless Hput Hok Hjson Hcontent Henc.
  assert (Hplain : Forall plain collection).
  { clear Hput. induction Hlossless as [|v l Hv _ IH]; constructor;
      [by apply lossless_plain|done]. }
  destruct (exec_persist _ _ _ _ _ _ Hcfg Hput) as (ps' & Hev & _).
  unfold write_event in Hev. injection Hev as -> -> -> ->.
  apply (exec_fetch _ _ _ _ Hcfg). exists (Fulfilled response).
  split; [reflexivity|].
  assert (H404 : status response <> 404).
  { intros H. unfold ok in Hok. rewrite H in Hok. discriminate. }
  rewrite (readContents_success _ payload H404 Hok Hjson).
  destruct payload as [stored enc v]. cbn [content encoding sha] in *.
  subst stored. cbn [putBody body_content]. fold (document collection).
  rewrite decoded_document by done.
  rewrite parse_stringify by (by constructor).
  by destruct (stringify_array_shape collection) as [b ->].
Qed.

Lemma written_document_reads_back_witness :
  let review :=
    newReview "1700000000000abc" "2024-01-01T00:00:00.000Z" sample_request in
  exec (fetchReviewsFromGitHub sample_env)
    [read_event sample_config
       (Fulfilled {| status := 200;
                     text := "";
                     json := Some {| content :=
                                       Some (body_content
                                           (putBody sample_config [review] None));
                                     encoding := None;
                                     sha := "3f2a" |} |})]
    (Returned {| reviews := JSON.Arr [review]; reviews_sha := Some "3f2a" |}).
Proof.
  intros review.
  refine (written_document_reads_back sample_env sample_config [review] None
            (contents_url sample_config) (buildHeaders (token sample_config))
            (putBody sample_config [review] None)
            (Fulfilled {| status := 201; text := ""; json := None |})
            _
            {| status := 200;
               text := "";
               json := Some {| content :=
                                 Some (body_content
                                     (putBody sample_config [review] None));
                               encoding := None;
                               sha := "3f2a" |} |}
            {| content :=
                 Some (body_content (putBody sample_config [review] None));
               encoding := None; sha := "3f2a" |}
            eq_refl _ _ eq_refl eq_refl eq_refl (or_introl eq_refl)).
  - constructor; [|constructor]. apply lossless_obj.
    + by apply (bool_decide_unpack _).
    + repeat (apply Forall_cons; split); try apply lossless_str; [|done].
      apply (lossless_int 5). lia.
  - apply (persist_exec sample_env sample_config [review] None
             (Fulfilled {| status := 201; text := ""; json := None |})).
    reflexivity.
Defined.

(* ================================================================== *)
(** * Properties of the handlers *)
(* ================================================================== *)

(** A handler sends the success response when its call of the service
    returns and the response of [handleError] when it throws; it exchanges
    what the call exchanges. *)
Lemma exec_handler {T} (p : Async T) (success : T -> HttpResponse) trace c :
  exec (try_catch (bind p (fun result => Return (success result)))
          (fun error => Return (handleError error))) trace c <->
  exists c0, exec p trace c0 /\ c = Returned (answer success c0).
Proof.
  revert trace.
  induction p as [a|e|url headers k IH|url headers body k IH]; intros trace;
    cbn [bind try_catch].
  - split.
    + intros [-> ->]%exec_return_inv. exists (Returned a). split; constructor.
    + intros (c0 & [-> ->]%exec_return_inv & ->). constructor.
  - split.
    + intros [-> ->]%exec_return_inv. exists (Thrown e). split; constructor.
    + intros (c0 & [-> ->]%exec_throw_inv & ->). constructor.
  - split.
    + intros (gs & rest & -> & H)%exec_get_inv.
      apply IH in H as (c0 & H & ->). exists c0. split; [by constructor|done].
    + intros (c0 & (gs & rest & -> & H)%exec_get_inv & ->).
      constructor. apply IH. by exists c0.
  - split.
    + intros (ps & rest & -> & H)%exec_put_inv.
      apply IH in H as (c0 & H & ->). exists c0. split; [by constructor|done].
    + intros (c0 & (ps & rest & -> & H)%exec_put_inv & ->).
      constructor. apply IH. by exists c0.
Qed.

Lemma handleError_status (e : JsError) :
  http_status (handleError e) = if is_conflict e then 409 else 500.
Proof. unfold handleError. by destruct (is_conflict e), (is_config_error e). Qed.

Lemma handleError_config (e : JsError) :
  is_config_error e = true ->
  handleError e
  = {| http_status := 500;
       http_body := JSON.Obj [("error", JSON.Str (error_message e))] |}.
Proof. by destruct e. Qed.

Lemma text_rejected_trim (text : string) :
  text_rejected text = true <-> Js.trim text = "".
Proof.
  unfold text_rejected. destruct text as [|ch text]; [done|].
  cbn [Js.truthy_string negb orb].
  destruct (Js.trim (String ch text)); cbn; split; done.
Qed.

(** On a body of the declared type [AddReviewRequest] the review is the
    one of [newReview]. *)
Lemma createdReview_typed (id createdAt : string) (req : AddReviewRequest) :
  createdReview id createdAt (req_text req)
    (JSON.Str <$> req_avatar req) (JSON.Num <$> req_stars req)
  = newReview id createdAt req.
Proof.
  unfold createdReview, newReview. do 5 f_equal.
  - destruct (req_avatar req) as [[|ch a]|]; reflexivity.
  - do 2 f_equal.
    destruct (req_stars req) as [n|]; cbn; [|reflexivity].
    by destruct (Js.truthy_number n).
Qed.

(** X10: a review that [addReview] creates from a text that passed its
    check has that text trimmed, of the white space and line terminators
    of the language, and it is not empty; its avatar and its rating are
    never a falsy value: a missing, null, empty, zero or false avatar is
    replaced by the placeholder and such a rating by 5, and any other
    value of the body is kept as it is. *)
Theorem created_review_invariant (id createdAt text : string)
    (avatar stars : option JSON.value) :
  text_rejected text = false ->
  let review := createdReview id createdAt text avatar stars in
  member "text" review = Some (JSON.Str (Js.trim text)) /\
  Js.truthy_string (Js.trim text) = true /\
  truthy_value (member "avatar" review) = true /\
  truthy_value (member "stars" review) = true /\
  member "avatar" review
  = Some (if truthy_value avatar
          then default JSON.Null avatar
          else JSON.Str placeholder_avatar) /\
  member "stars" review
  = Some (if truthy_value stars then default JSON.Null stars else JSON.int 5).
Proof.
  intros Htext review.
  assert (Hnonempty : Js.truthy_string (Js.trim text) = true).
  { destruct (Js.trim text) eqn:E; [|done].
    apply text_rejected_trim in E. congruence. }
  assert (Hor : forall a d,
             truthy_value (Some d) = true ->
             truthy_value (Some (or_value a d)) = true /\
             or_value a d = if truthy_value a then default JSON.Null a else d).
  { intros [v|] d Hd; cbn [or_value default]; [|done].
    destruct (truthy_value (Some v)) eqn:Hv; done. }
  destruct (Hor avatar (JSON.Str placeholder_avatar) eq_refl) as [Ha1 Ha2].
  destruct (Hor stars (JSON.int 5) eq_refl) as [Hs1 Hs2].
  unfold review, createdReview, member. cbn.
  rewrite <- Ha2, <- Hs2. done.
Qed.

Lemma created_review_invariant_witness :
  let review :=
    createdReview "1700000000000abc" "2024-01-01T00:00:00.000Z" padded_text
      (Some (JSON.Str "")) (Some (JSON.int 0)) in
  member "text" review = Some (JSON.Str "hello") /\
  Js.truthy_string "hello" = true /\
  truthy_value (member "avatar" review) = true /\
  truthy_value (member "stars" review) = true /\
  member "avatar" review
  = Some (if truthy_value (Some (JSON.Str ""))
          then default JSON.Null (Some (JSON.Str ""))
          else JSON.Str placeholder_avatar) /\
  member "stars" review
  = Some (if truthy_value (Some (JSON.int 0))
          then default JSON.Null (Some (JSON.int 0))
          else JSON.int 5).
Proof.
  apply (created_review_invariant "1700000000000abc" "2024-01-01T00:00:00.000Z"
           padded_text (Some (JSON.Str "")) (Some (JSON.int 0))).
  reflexivity.
Defined.

Lemma exec_getReviews (env : Env) trace c :
  exec (getReviews env) trace c <->
  exists c0,
    exec (fetchReviewsFromGitHub env) trace c0 /\
    c = Returned (answer listed c0).
Proof. unfold getReviews, mbind, Async_bind. apply exec_handler. Qed.

Lemma exec_clearReviews (env : Env) retries trace c :
  exec (clearReviews env retries) trace c <->
  exists c0,
    exec (mutateReviewsWithRetry env clearReviewsMutator retries) trace c0 /\
    c = Returned (answer cleared c0).
Proof. unfold clearReviews, mbind, Async_bind. apply exec_handler. Qed.

Lemma exec_addReview (env : Env) retries id createdAt body text trace c :
  property "text" (body_or_empty body) = Some (JSON.Str text) ->
  text_rejected text = false ->
  exec (addReview env retries id createdAt body) trace c <->
  exists c0,
    exec (mutateReviewsWithRetry env
            (createdMutator id createdAt text
               (property "avatar" (body_or_empty body))
               (property "stars" (body_or_empty body)))
            retries) trace c0 /\
    c = Returned (answer created c0).
Proof.
  intros Htext Hok. unfold addReview. cbv zeta. rewrite Htext, Hok.
  unfold mbind, Async_bind. apply exec_handler.
Qed.

(** X11: [addReview] answers 400 and sends nothing to the store when the
    body has no [text], when [text] is not a string, and when it is empty
    or white space only, which is when [text.trim()] is empty; this holds
    whatever the configuration is. *)
Theorem addReview_rejects_bad_text (env : Env) (retries : Z)
    (id createdAt : string) (body : option JSON.value)
    (trace : list Event) (c : Completion HttpResponse) :
  (forall text,
     property "text" (body_or_empty body) = Some (JSON.Str text) ->
     Js.trim text = "") ->
  exec (addReview env retries id createdAt body) trace c ->
  trace = [] /\ c = Returned bad_request.
Proof.
  intros Hbad. unfold addReview. cbv zeta.
  destruct (property "text" (body_or_empty body)) as [[| | |text| |]|];
    try (by intros []%exec_return_inv).
  rewrite (proj2 (text_rejected_trim text) (Hbad text eq_refl)).
  by intros []%exec_return_inv.
Qed.

Lemma addReview_rejects_bad_text_witness :
  snd (fst (run Store.network
              (addReview ∅ 5 "1700000000000abc" "2024-01-01T00:00:00.000Z"
                 (Some (JSON.Obj [("text", JSON.Str blank_text)])))
              Store.empty)) = [] /\
  fst (fst (run Store.network
              (addReview ∅ 5 "1700000000000abc" "2024-01-01T00:00:00.000Z"
                 (Some (JSON.Obj [("text", JSON.Str blank_text)])))
              Store.empty)) = Returned bad_request.
Proof.
  apply (addReview_rejects_bad_text ∅ 5 "1700000000000abc"
           "2024-01-01T00:00:00.000Z"
           (Some (JSON.Obj [("text", JSON.Str blank_text)]))).
  - intros text [= <-]. reflexivity.
  - apply run_exec.
Defined.

(** X12: [getReviews] always answers and only reads.  In every execution
    it sends no PUT and at most one GET; it answers 200 with the value
    that the read returned when the read succeeded, and otherwise 500,
    never 409. *)
Theorem getReviews_only_reads (env : Env) (trace : list Event)
    (c : Completion HttpResponse) :
  exec (getReviews env) trace c ->
  writes trace = 0%nat /\
  (reads trace <= 1)%nat /\
  ((exists config gs fetched,
      getConfig env = inr config /\
      trace = [read_event config gs] /\
      readContents gs = inr fetched /\
      c = Returned (listed fetched)) \/
   (exists e,
      c = Returned (handleError e) /\
      http_status (handleError e) = 500)).
Proof.
  intros (c0 & Hexec & ->)%exec_getReviews.
  destruct (getConfig env) as [e|config] eqn:Hcfg.
  - rewrite (fetch_config_error _ _ Hcfg) in Hexec.
    apply exec_throw_inv in Hexec as [-> ->].
    split; [done|]. split; [simpl; lia|]. right. exists e.
    split; [done|]. rewrite handleError_status.
    pose proof (getConfig_error _ _ Hcfg). by destruct e.
  - destruct (proj1 (exec_fetch _ _ _ _ Hcfg) Hexec) as (gs & -> & ->).
    split; [done|]. split; [simpl; lia|].
    destruct (readContents gs) as [e|fetched] eqn:Hread.
    + right. exists e. split; [done|]. rewrite handleError_status.
      by destruct (readContents_error _ _ Hread) as [-> _].
    + left. by exists config, gs, fetched.
Qed.

Lemma getReviews_only_reads_witness :
  let outcome := run Store.network (getReviews sample_env) Store.empty in
  writes (snd (fst outcome)) = 0%nat /\
  (reads (snd (fst outcome)) <= 1)%nat /\
  ((exists config gs fetched,
      getConfig sample_env = inr config /\
      snd (fst outcome) = [read_event config gs] /\
      readContents gs = inr fetched /\
      fst (fst outcome) = Returned (listed fetched)) \/
   (exists e,
      fst (fst outcome) = Returned (handleError e) /\
      http_status (handleError e) = 500)).
Proof.
  intros outcome.
  apply (getReviews_only_reads sample_env (snd (fst outcome))
           (fst (fst outcome))).
  apply run_exec.
Defined.

(** X13: what [addReview] answers for a text that passed its check, when
    [MAX_RETRIES], which is what [getMaxRetries] returned, is an integer.
    It answers 201 with the created review exactly when the last exchange
    is a write that was answered with success, and that write carries the
    collection read in the same attempt with the review appended at its
    end.  It answers 409 only after as many writes as [getMaxRetries]
    returned, which were all answered with a conflict.  In every other case it answers 500, and a
    write at the end of the exchanges is then one that failed. *)
Theorem addReview_answers (env : Env) (retries : Z) (id createdAt : string)
    (body : option JSON.value) (text : string)
    (trace : list Event) (c : Completion HttpResponse) :
  getMaxRetries env = Js.of_Z retries ->
  property "text" (body_or_empty body) = Some (JSON.Str text) ->
  text_rejected text = false ->
  exec (addReview env retries id createdAt body) trace c ->
  let review :=
    createdReview id createdAt text
      (property "avatar" (body_or_empty body))
      (property "stars" (body_or_empty body)) in
  (c = Returned (created review) /\
   exists config before gs fetched snapshot ps version,
     getConfig env = inr config /\
     trace = before ++
             [read_event config gs;
              write_event config (snapshot ++ [review]) (reviews_sha fetched)
                ps] /\
     readContents gs = inr fetched /\
     spread (reviews fetched) = inr snapshot /\
     readUpdate ps = inr version) \/
  (exists e,
     c = Returned (handleError e) /\
     http_status (handleError e) = 409 /\
     getMaxRetries env = Js.of_Z (Z.of_nat (writes trace)) /\
     Forall conflicts_only trace) \/
  (exists e,
     c = Returned (handleError e) /\
     http_status (handleError e) = 500 /\
     forall before url headers sent ps,
       trace = before ++ [Put url headers sent ps] ->
       readUpdate ps = inl e).
Proof.
  intros Hmax Htext Hok Hexec review.
  apply (exec_addReview _ _ _ _ _ _ _ _ Htext Hok) in Hexec
    as (c0 & Hexec & ->).
  destruct c0 as [result|e]; cbn [answer].
  - left.
    destruct (mutate_exec_outcome _ _ _ _ _ Hexec)
      as [(_ & _ & [=])|[(_ & e & _ & _ & [=])|(_ & config & Hcfg & Hcycles)]].
    destruct (cycles_result _ _ _ _ _ _ Hcycles)
      as (before & gs & fetched & snapshot & ps & version
          & -> & Hr & Hs & Hu & ->).
    split; [reflexivity|].
    by exists config, before, gs, fetched, snapshot, ps, version.
  - right.
    destruct (is_conflict e) eqn:Hconflict;
      [left
      |right; exists e; rewrite handleError_status, Hconflict;
       split; [done|]; split; [done|];
       exact (mutate_thrown_last_write _ _ _ _ _ Hexec)].
    exists e. split; [done|].
    split; [by rewrite handleError_status, Hconflict|].
    destruct (mutate_exec_outcome _ _ _ _ _ Hexec)
      as [(_ & _ & [= ->])|[(_ & e0 & Hcfg & _ & [= <-])
                           |(Hpos & config & Hcfg & Hcycles)]].
    + discriminate.
    + pose proof (getConfig_error _ _ Hcfg). by destruct e.
    + destruct (cycles_conflict _ _ _ _ _ _ Hcycles Hconflict Hpos)
        as (Hw & _ & Hall).
      split; [|done]. rewrite Hmax. f_equal. lia.
Qed.

Lemma addReview_answers_witness :
  let body := Some (JSON.Obj [("text", JSON.Str padded_text)]) in
  let outcome :=
    run Store.network
      (addReview sample_env 5 "1700000000000abc" "2024-01-01T00:00:00.000Z"
         body)
      Store.empty in
  let review :=
    createdReview "1700000000000abc" "2024-01-01T00:00:00.000Z" padded_text
      (property "avatar" (body_or_empty body))
      (property "stars" (body_or_empty body)) in
  (fst (fst outcome) = Returned (created review) /\
   exists config before gs fetched snapshot ps version,
     getConfig sample_env = inr config /\
     snd (fst outcome)
     = before ++
       [read_event config gs;
        write_event config (snapshot ++ [review]) (reviews_sha fetched) ps] /\
     readContents gs = inr fetched /\
     spread (reviews fetched) = inr snapshot /\
     readUpdate ps = inr version) \/
  (exists e,
     fst (fst outcome) = Returned (handleError e) /\
     http_status (handleError e) = 409 /\
     getMaxRetries sample_env
     = Js.of_Z (Z.of_nat (writes (snd (fst outcome)))) /\
     Forall conflicts_only (snd (fst outcome))) \/
  (exists e,
     fst (fst outcome) = Returned (handleError e) /\
     http_status (handleError e) = 500 /\
     forall before url headers sent ps,
       snd (fst outcome) = before ++ [Put url headers sent ps] ->
       readUpdate ps = inl e).
Proof.
  intros body outcome review.
  apply (addReview_answers sample_env 5 "1700000000000abc"
           "2024-01-01T00:00:00.000Z" body padded_text
           (snd (fst outcome)) (fst (fst outcome))).
  - reflexivity.
  - reflexivity.
  - reflexivity.
  - apply run_exec.
Defined.

(** With the bound set to 2 and a store that another client overtakes
    twice, the answer is 409 after two writes. *)
Example addReview_gives_up_after_conflicts :
  let env : Env := <["GITHUB_MAX_RETRIES" := "2"]> sample_env in
  let outcome :=
    run Store.contended
      (addReview env 2 "1700000000000abc" "2024-01-01T00:00:00.000Z"
         (Some (JSON.Obj [("text", JSON.Str padded_text)])))
      (Store.empty, [foreign_document; foreign_document]) in
  getMaxRetries env = Js.of_Z 2 /\
  fst (fst outcome)
  = Returned
      (handleError (GitHubConflictError "GitHub file changed during update")) /\
  writes (snd (fst outcome)) = 2%nat /\
  reads (snd (fst outcome)) = 2%nat.
Proof. vm_compute. repeat split. Qed.

(** X14: [clearReviews] never writes anything but the empty collection.
    In every execution each PUT carries the document of the empty
    collection (the base64 of the two characters of an empty array),
    whatever was read; the answer is 200 exactly when the last exchange is
    a write that was answered with success, and otherwise the response of
    [handleError] to an error that a write at the end of the exchanges,
    if there is one, gave. *)
Theorem clearReviews_writes_empty_collection (env : Env) (retries : Z)
    (trace : list Event) (c : Completion HttpResponse) :
  exec (clearReviews env retries) trace c ->
  (forall before url headers body ps after,
     trace = before ++ Put url headers body ps :: after ->
     body_content body = "W10=") /\
  ((c = Returned (cleared tt) /\
    exists before url headers body ps version,
      trace = before ++ [Put url headers body ps] /\
      readUpdate ps = inr version) \/
   (exists e,
      c = Returned (handleError e) /\
      forall before url headers body ps,
        trace = before ++ [Put url headers body ps] ->
        readUpdate ps = inl e)).
Proof.
  intros (c0 & Hexec & ->)%exec_clearReviews.
  pose proof (fun e => mutate_thrown_last_write env clearReviewsMutator
                         retries trace e) as Hlast.
  destruct (mutate_exec_outcome _ _ _ _ _ Hexec)
    as [(_ & -> & ->)|[(_ & e & _ & -> & ->)|(_ & config & Hcfg & Hcycles)]].
  - split; [by intros []|]. right. eexists. split; [done|]. by intros [].
  - split; [by intros []|]. right. eexists. split; [done|]. by intros [].
  - split.
    + intros before url headers body ps after Htrace.
      destruct (cycles_writes _ _ _ _ _ _ Hcycles _ _ _ _ _ _ Htrace)
        as (before' & gs & fetched & snapshot & _ & _ & _ & Hput & _).
      unfold write_event in Hput. by injection Hput as _ _ ->.
    + destruct c0 as [[]|e];
        [left|right; exists e; split; [done|]; by apply Hlast].
      split; [reflexivity|].
      destruct (cycles_result _ _ _ _ _ _ Hcycles)
        as (before & gs & fetched & snapshot & ps & version
            & -> & _ & _ & Hu & _).
      exists (before ++ [read_event config gs]). eexists _, _, _, ps, version.
      split; [|exact Hu]. rewrite <- app_assoc. reflexivity.
Qed.

Lemma clearReviews_writes_empty_collection_witness :
  let outcome :=
    run Store.contended (clearReviews sample_env 3)
      (Store.empty, [foreign_document]) in
  (forall before url headers body ps after,
     snd (fst outcome) = before ++ Put url headers body ps :: after ->
     body_content body = "W10=") /\
  ((fst (fst outcome) = Returned (cleared tt) /\
    exists before url headers body ps version,
      snd (fst outcome) = before ++ [Put url headers body ps] /\
      readUpdate ps = inr version) \/
   (exists e,
      fst (fst outcome) = Returned (handleError e) /\
      forall before url headers body ps,
        snd (fst outcome) = before ++ [Put url headers body ps] ->
        readUpdate ps = inl e)).
Proof.
  intros outcome.
  apply (clearReviews_writes_empty_collection sample_env 3
           (snd (fst outcome)) (fst (fst outcome))).
  apply run_exec.
Defined.

(** X15: a missing required setting is answered 500 with the message of
    the configuration error, which names the variable, and nothing is
    sent: by [getReviews] always, and by [clearReviews] and by [addReview]
    for an accepted text when [MAX_RETRIES] is positive. *)
Theorem missing_config_answers_500 (env : Env) (retries : Z)
    (id createdAt : string) (body : option JSON.value) (text : string)
    (e : JsError) (trace : list Event) (c : Completion HttpResponse) :
  getConfig env = inl e ->
  let response :=
    {| http_status := 500;
       http_body := JSON.Obj [("error", JSON.Str (error_message e))] |} in
  (exec (getReviews env) trace c -> trace = [] /\ c = Returned response) /\
  (0 < retries ->
   exec (clearReviews env retries) trace c ->
   trace = [] /\ c = Returned response) /\
  (0 < retries ->
   property "text" (body_or_empty body) = Some (JSON.Str text) ->
   text_rejected text = false ->
   exec (addReview env retries id createdAt body) trace c ->
   trace = [] /\ c = Returned response).
Proof.
  intros Hcfg response.
  pose proof (handleError_config e (getConfig_error _ _ Hcfg)) as Hanswer.
  assert (Hmutate : forall T (mutator : list JSON.value -> list JSON.value * T)
                      c0,
             0 < retries ->
             exec (mutateReviewsWithRetry env mutator retries) trace c0 ->
             trace = [] /\ c0 = Thrown e).
  { intros T mutator c0 Hpos Hexec.
    destruct (mutate_exec_outcome _ _ _ _ _ Hexec)
      as [(Hle & _)|[(_ & e0 & Hcfg0 & -> & ->)|(_ & config & Hcfg0 & _)]];
      [lia| |congruence].
    split; [done|congruence]. }
  split; [|split].
  - intros (c0 & Hexec & ->)%exec_getReviews.
    rewrite (fetch_config_error _ _ Hcfg) in Hexec.
    apply exec_throw_inv in Hexec as [-> ->]. split; [done|].
    cbn [answer]. by rewrite Hanswer.
  - intros Hpos (c0 & Hexec & ->)%exec_clearReviews.
    destruct (Hmutate _ _ _ Hpos Hexec) as [-> ->]. split; [done|].
    cbn [answer]. by rewrite Hanswer.
  - intros Hpos Htext Hok Hexec.
    apply (exec_addReview _ _ _ _ _ _ _ _ Htext Hok) in Hexec
      as (c0 & Hexec & ->).
    destruct (Hmutate _ _ _ Hpos Hexec) as [-> ->]. split; [done|].
    cbn [answer]. by rewrite Hanswer.
Qed.

Lemma missing_config_answers_500_witness :
  let env : Env := <["GITHUB_TOKEN" := "secret"]> ∅ in
  let outcome := run Store.network (getReviews env) Store.empty in
  snd (fst outcome) = [] /\
  fst (fst outcome)
  = Returned
      {| http_status := 500;
         http_body :=
           JSON.Obj
             [("error",
               JSON.Str "Missing GITHUB_OWNER environment variable")] |}.
Proof.
  intros env outcome.
  apply (proj1 (missing_config_answers_500 env 5 "" "" None ""
                  (GitHubConfigError "Missing GITHUB_OWNER environment variable")
                  (snd (fst outcome)) (fst (fst outcome)) eq_refl)).
  apply run_exec.
Defined.
